(** * intl-number-input: the locale number codec of [numberFormat.ts]

    A shallow embedding of [packages/core/src/numberFormat.ts] (class
    [NumberFormat]) and the properties of its parser, formatter and
    partial-input helpers.

    - JavaScript strings are sequences of UTF-16 code units: [list N].
    - The host ([Intl.NumberFormat], [Number.prototype.toLocaleString],
      [Number(...)]) is not code of the repository: it is a record [Host] the
      codec is parametrised by.  Locale data tables ([en], [ar-EG], the POSIX
      variant of [en-US], and every table with ten consecutive digit glyphs)
      instantiate it.
    - [escapeRegExp] is imported from [./utils], whose source is not part of
      the development: the codec takes it as a parameter.
    - Exceptions are explicit: a computation yields [Normal v] or [Throw e]. *)

From Stdlib Require Import String Ascii.
From Stdlib Require Import List Bool Arith NArith ZArith Lia.
Import ListNotations.
Local Open Scope list_scope.

(* ------------------------------------------------------------------ *)
(** * JavaScript strings *)

Abbreviation char := N (only parsing).
Abbreviation jsstring := (list N) (only parsing).

(** An ASCII literal as a JavaScript string. *)
Definition u (s : string) : jsstring := map N_of_ascii (list_ascii_of_string s).

Definition DOLLAR : char := 36%N.
Definition AMPERSAND : char := 38%N.
Definition APOSTROPHE : char := 39%N.
Definition BACKTICK : char := 96%N.
Definition ZERO : char := 48%N.
Definition NINE : char := 57%N.
Definition HYPHEN : char := 45%N.
Definition COMMA : char := 44%N.
Definition PERIOD : char := 46%N.
Definition PERCENT_SIGN : char := 37%N.
Definition NBSP : char := 160%N.
Definition YEN : char := 165%N.
Definition EURO : char := 8364%N.
Definition INFINITY_SIGN : char := 8734%N.
Definition ARABIC_LETTER_MARK : char := 1564%N.
Definition ARABIC_ZERO : char := 1632%N.
Definition ARABIC_DECIMAL : char := 1643%N.
Definition ARABIC_THOUSANDS : char := 1644%N.

Definition jseqb (a b : jsstring) : bool :=
  if list_eq_dec N.eq_dec a b then true else false.

(** [ToString] of a value that is a string or [undefined]. *)
Definition ToString (v : option jsstring) : jsstring :=
  match v with
  | Some s => s
  | None => u "undefined"
  end.

(** [str.startsWith(search)]. *)
Fixpoint startsWith (str search : jsstring) {struct search} : bool :=
  match search with
  | [] => true
  | c :: search' =>
      match str with
      | [] => false
      | d :: str' => N.eqb c d && startsWith str' search'
      end
  end.

(** The first occurrence of [pat] in [str]: the text before it and the text
    after it.  The empty pattern occurs at index 0. *)
Fixpoint search (pat str : jsstring) : option (jsstring * jsstring) :=
  if startsWith str pat then Some ([], skipn (length pat) str)
  else
    match str with
    | [] => None
    | c :: str' =>
        match search pat str' with
        | Some (before, after) => Some (c :: before, after)
        | None => None
        end
    end.

(** [GetSubstitution] for a string pattern (no capture groups): [$$], [$&],
    [$`] and [$'] are expanded, any other text is literal. *)
Fixpoint GetSubstitution (matched before after rep : jsstring) : jsstring :=
  match rep with
  | [] => []
  | c :: r =>
      if N.eqb c DOLLAR then
        match r with
        | [] => [c]
        | d :: r' =>
            if N.eqb d DOLLAR then DOLLAR :: GetSubstitution matched before after r'
            else if N.eqb d AMPERSAND then matched ++ GetSubstitution matched before after r'
            else if N.eqb d BACKTICK then before ++ GetSubstitution matched before after r'
            else if N.eqb d APOSTROPHE then after ++ GetSubstitution matched before after r'
            else c :: GetSubstitution matched before after r
        end
      else c :: GetSubstitution matched before after r
  end.

(** [str.replace(pat, rep)] with a string pattern: the first occurrence only. *)
Definition replace (str pat rep : jsstring) : jsstring :=
  match search pat str with
  | None => str
  | Some (before, after) => before ++ GetSubstitution pat before after rep ++ after
  end.

(** [str.replace(new RegExp(pat, 'g'), rep)] for a pattern that matches the
    text [pat] literally and a replacement without [$]: every occurrence, left
    to right, without overlap.  [skip] counts the code units of a match still to
    be consumed. *)
Fixpoint replace_g_from (pat rep : jsstring) (skip : nat) (str : jsstring) : jsstring :=
  match str with
  | [] => []
  | c :: str' =>
      match skip with
      | S k => replace_g_from pat rep k str'
      | O =>
          if startsWith str pat
          then rep ++ replace_g_from pat rep (length pat - 1) str'
          else c :: replace_g_from pat rep 0 str'
      end
  end.

Definition replace_g (str pat rep : jsstring) : jsstring :=
  match pat with
  | [] => flat_map (fun c => rep ++ [c]) str ++ rep
  | _ :: _ => replace_g_from pat rep 0 str
  end.

(** [str.substr(start, length)]; [length] omitted is [None]. *)
Definition substr (str : jsstring) (start : Z) (len : option Z) : jsstring :=
  let size := Z.of_nat (length str) in
  let from := if (start <? 0)%Z then Z.max (size + start) 0 else Z.min start size in
  let count :=
    match len with
    | None => (size - from)%Z
    | Some l => Z.min (Z.max l 0) (size - from)
    end in
  firstn (Z.to_nat count) (skipn (Z.to_nat from) str).

(** [str.split(sep)[0]] for a non-empty separator. *)
Definition split_head (str sep : jsstring) : jsstring :=
  match search sep str with
  | Some (before, _) => before
  | None => str
  end.

Definition is_digit (c : char) : bool := N.leb ZERO c && N.leb c NINE.

(** [arr.findIndex(f)]. *)
Fixpoint findIndex {A} (f : A -> bool) (l : list A) : Z :=
  match l with
  | [] => (-1)%Z
  | x :: l' =>
      if f x then 0%Z
      else let i := findIndex f l' in if (i <? 0)%Z then (-1)%Z else (i + 1)%Z
  end.

(** [arr.slice(start, end)]; [end] omitted is [None]. *)
Definition slice {A} (l : list A) (start : Z) (stop : option Z) : list A :=
  let len := Z.of_nat (length l) in
  let k := if (start <? 0)%Z then Z.max (len + start) 0 else Z.min start len in
  let final :=
    match stop with
    | None => len
    | Some e => if (e <? 0)%Z then Z.max (len + e) 0 else Z.min e len
    end in
  firstn (Z.to_nat (Z.max (final - k) 0)) (skipn (Z.to_nat k) l).

(* ------------------------------------------------------------------ *)
(** * Completions *)

Inductive exn := TypeError | SyntaxError | RangeError.

Inductive completion (A : Type) : Type :=
| Normal (a : A)
| Throw (e : exn).
Arguments Normal {A} a.
Arguments Throw {A} e.

Definition bind {A B} (c : completion A) (k : A -> completion B) : completion B :=
  match c with
  | Normal a => k a
  | Throw e => Throw e
  end.

Notation "x <- c ;; k" := (bind c (fun x => k))
  (at level 61, c at next level, right associativity).

Definition returns {A} (c : completion A) : Prop := exists a, c = Normal a.

(* ------------------------------------------------------------------ *)
(** * Regular expressions of the codec *)

(** [INTEGER_PATTERN], a zero or a non-zero digit followed by digits, then
    [fraction], the optional group of the decimal symbol and a captured run of
    digits (or nothing when the profile has no decimal symbol), anchored by [^]
    and [$].  The matcher follows the backtracking
    order of the pattern: alternative [0] first, then the non-zero digit with
    the longest digit run first; after the integer the optional group is tried
    before the empty alternative.  [dec] is the text the escaped decimal symbol
    matches. *)

(** The optional fraction group and [$] at [rest]: [Some (Some f)] when the group matched with
    capture [f], [Some None] when only [$] matched. *)
Definition exec_fraction (dec : option jsstring) (rest : jsstring)
  : option (option jsstring) :=
  match dec with
  | Some d =>
      if startsWith rest d && forallb is_digit (skipn (length d) rest)
      then Some (Some (skipn (length d) rest))
      else match rest with [] => Some None | _ :: _ => None end
  | None => match rest with [] => Some None | _ :: _ => None end
  end.

(** Length of the longest run of ASCII digits at the head of [s]. *)
Fixpoint digit_run (s : jsstring) : nat :=
  match s with
  | c :: s' => if is_digit c then S (digit_run s') else 0
  | [] => 0
  end.

(** The non-zero digit is [c]; the digit run takes [k] units of [s'], then
    fewer. *)
Fixpoint exec_runs (dec : option jsstring) (c : char) (s' : jsstring) (k : nat)
  : option (jsstring * option jsstring) :=
  match exec_fraction dec (skipn k s') with
  | Some m2 => Some (c :: firstn k s', m2)
  | None =>
      match k with
      | O => None
      | S k' => exec_runs dec c s' k'
      end
  end.

(** [str.match(new RegExp(`^${INTEGER_PATTERN}${fraction}$`))]: the captures
    [match[1]] and [match[2]] ([None] is [undefined]). *)
Definition exec_number (dec : option jsstring) (str : jsstring)
  : option (jsstring * option jsstring) :=
  match str with
  | [] => None
  | c :: s' =>
      if N.eqb c ZERO then
        match exec_fraction dec s' with
        | Some m2 => Some ([c], m2)
        | None => None
        end
      else if is_digit c then exec_runs dec c s' (digit_run s')
      else None
  end.

(** [new RegExp(`^${INTEGER_PATTERN}${DEC}$`)] of [isFractionIncomplete]. *)
Definition test_integer_then (dec : jsstring) (str : jsstring) : bool :=
  match str with
  | [] => false
  | c :: s' =>
      if N.eqb c ZERO then jseqb s' dec
      else if is_digit c then
        existsb (fun k => jseqb (skipn k s') dec) (seq 0 (S (digit_run s')))
      else false
  end.

(* ------------------------------------------------------------------ *)
(** * The host: Intl.NumberFormat, toLocaleString, Number *)

Module NumberFormatStyle.
Inductive t := Decimal | Currency | Percent | Unit.
End NumberFormatStyle.

Module PartType.
Inductive t :=
| integer | group | decimal | fraction | minusSign | plusSign
| literal | currency | percentSign | unit | infinity | nan.

Definition eqb (a b : t) : bool :=
  match a, b with
  | integer, integer | group, group | decimal, decimal
  | fraction, fraction | minusSign, minusSign | plusSign, plusSign
  | literal, literal | currency, currency | percentSign, percentSign
  | unit, unit | infinity, infinity | nan, nan => true
  | _, _ => false
  end.
End PartType.

(** One element of [formatToParts]: [{ type, value }]. *)
Record Part := { type : PartType.t; value : jsstring }.

(** [Intl.NumberFormatOptions], the members the codec sets. *)
Record NumberFormatOptions := {
  o_style : option NumberFormatStyle.t;
  o_currency : option jsstring;
  o_unit : option jsstring;
  o_minimumFractionDigits : option nat;
  o_maximumFractionDigits : option nat;
  o_useGrouping : option bool
}.

Definition no_options : NumberFormatOptions :=
  {| o_style := None; o_currency := None; o_unit := None;
     o_minimumFractionDigits := None; o_maximumFractionDigits := None;
     o_useGrouping := None |}.

(** [{ ...base, ...over }]. *)
Definition spread (base over : NumberFormatOptions) : NumberFormatOptions :=
  let pick {A} (b o : option A) := match o with Some _ => o | None => b end in
  {| o_style := pick (o_style base) (o_style over);
     o_currency := pick (o_currency base) (o_currency over);
     o_unit := pick (o_unit base) (o_unit over);
     o_minimumFractionDigits :=
       pick (o_minimumFractionDigits base) (o_minimumFractionDigits over);
     o_maximumFractionDigits :=
       pick (o_maximumFractionDigits base) (o_maximumFractionDigits over);
     o_useGrouping := pick (o_useGrouping base) (o_useGrouping over) |}.

(** What the codec consumes from the JavaScript host.  [number] is the host's
    Number type; the codec never computes on numbers, it only carries them from
    [Number(text)] to [toLocaleString].  [toLocaleString] is taken on locales
    and options for which [Intl_NumberFormat] has succeeded, where it returns:
    the constructor and [isValidIntegerFormat] call it with the style, the
    currency and the unit handed to [Intl_NumberFormat] and no fraction digits
    but a minimum of 0; [format] passes fraction digits of the profile or of
    its caller, which the host may refuse, and asks [Intl_NumberFormat]
    first. *)
Record Host := {
  number : Type;
  Number : jsstring -> number;
  isFinite : number -> bool;
  numberFormat : Type;
  Intl_NumberFormat : option jsstring -> NumberFormatOptions -> completion numberFormat;
  formatToParts : numberFormat -> number -> list Part;
  resolvedMinimumFractionDigits : numberFormat -> nat;
  resolvedMaximumFractionDigits : numberFormat -> nat;
  toLocaleString : number -> option jsstring -> NumberFormatOptions -> jsstring
}.

(* ------------------------------------------------------------------ *)
(** * class NumberFormat *)

Definition DECIMAL_SEPARATORS : list jsstring := [[COMMA]; [PERIOD]; [ARABIC_DECIMAL]].

(** [NumberInputOptions], the members the constructor reads. *)
Record NumberInputOptions := {
  formatStyle : NumberFormatStyle.t;
  opt_currency : option jsstring;
  opt_unit : option jsstring;
  opt_locale : option jsstring;
  precision : option nat
}.

(** The fields of a [NumberFormat] instance (the locale profile). *)
Record NumberFormat := {
  locale : option jsstring;
  style : NumberFormatStyle.t;
  currency : option jsstring;
  unit : option jsstring;
  digits : list jsstring;
  decimalSymbol : option jsstring;
  groupingSymbol : option jsstring;
  minusSymbol : option jsstring;
  minimumFractionDigits : nat;
  maximumFractionDigits : nat;
  prefix : jsstring;
  negativePrefix : jsstring;
  suffix : jsstring
}.

(** [value ? a : b] on a string or [undefined]: the empty string is falsy. *)
Definition truthy (v : option jsstring) : bool :=
  match v with
  | Some (_ :: _) => true
  | _ => false
  end.

Definition join (l : list jsstring) : jsstring := concat l.

(** [parts.find(part => part.type === t)?.value]. *)
Definition find_value (t : PartType.t) (parts : list Part) : option jsstring :=
  option_map value (find (fun part => PartType.eqb (type part) t) parts).

Definition is_type (t : PartType.t) (part : Part) : bool := PartType.eqb (type part) t.

(** Decimal digits of a natural number, most significant first; the fuel is
    one more than the binary logarithm of [n], which bounds the number of its
    decimal digits. *)
Fixpoint to_digits (fuel : nat) (n : N) (acc : jsstring) : jsstring :=
  match fuel with
  | O => acc
  | S f =>
      let acc' := (ZERO + n mod 10)%N :: acc in
      if N.eqb (n / 10) 0 then acc' else to_digits f (n / 10)%N acc'
  end.

Definition decimal_digits (n : N) : jsstring := to_digits (S (N.to_nat (N.log2 n))) n [].

(** [String(index)]. *)
Definition String_of_index (i : nat) : jsstring := decimal_digits (N.of_nat i).

Section Codec.

Variable H : Host.

(** [escapeRegExp] of [./utils].  Its result is a pattern source; the model
    keeps the text that pattern matches, and the caller builds the [RegExp]
    matching that text literally. *)
Variable escapeRegExp : option jsstring -> completion jsstring.

(** The probe value [-123456.768]. *)
Definition PROBE : number H := Number H (u "-123456.768").

Definition constructor (options : NumberInputOptions) : completion NumberFormat :=
  let style := formatStyle options in
  let currency := opt_currency options in
  let unit := opt_unit options in
  let locale := opt_locale options in
  let precision := precision options in
  numberFormat <- Intl_NumberFormat H locale
    {| o_style := Some style; o_currency := currency; o_unit := unit;
       o_minimumFractionDigits := None; o_maximumFractionDigits := None;
       o_useGrouping := None |} ;;
  let parts := formatToParts H numberFormat PROBE in
  let decimalSymbol := find_value PartType.decimal parts in
  let fractionDigits :=
    match decimalSymbol with
    | None => (0, 0)
    | Some _ =>
        match precision with
        | Some p => (p, p)
        | None => (resolvedMinimumFractionDigits H numberFormat,
                   resolvedMaximumFractionDigits H numberFormat)
        end
    end in
  Normal
    {| locale := locale;
       style := style;
       currency := currency;
       unit := unit;
       digits := map (fun i => toLocaleString H (Number H (String_of_index i)) locale no_options)
                     (seq 0 10);
       decimalSymbol := decimalSymbol;
       groupingSymbol := find_value PartType.group parts;
       minusSymbol := find_value PartType.minusSign parts;
       minimumFractionDigits := fst fractionDigits;
       maximumFractionDigits := snd fractionDigits;
       prefix :=
         join (map value (slice parts 1 (Some (findIndex (is_type PartType.integer) parts))));
       negativePrefix :=
         join (map value (slice parts 0 (Some (findIndex (is_type PartType.integer) parts))));
       suffix :=
         join (map value (slice parts (findIndex (is_type PartType.fraction) parts + 1) None)) |}.

Variable this : NumberFormat.

(** [digits.forEach((digit, index) => str = str.replace(new RegExp(digit, 'g'), String(index)))].
    The glyphs are digits of a numbering system: as a pattern each matches
    itself. *)
Fixpoint normalizeDigits_from (ds : list jsstring) (index : nat) (str : jsstring) : jsstring :=
  match ds with
  | [] => str
  | digit :: ds' => normalizeDigits_from ds' (S index) (replace_g str digit (String_of_index index))
  end.

Definition normalizeDigits (str : jsstring) : jsstring :=
  if jseqb (ToString (nth_error (digits this) 0)) [ZERO] then str
  else normalizeDigits_from (digits this) 0 str.

(** [normalizeDigits(str).replace(/\D+/g, '')]. *)
Definition onlyDigits (str : jsstring) : jsstring :=
  filter is_digit (normalizeDigits str).

(** Removing every run of code units outside the character class made of
    [digits.join('')]. *)
Definition onlyLocaleDigits (str : jsstring) : jsstring :=
  filter (fun c => existsb (N.eqb c) (join (digits this))) str.

Definition isNegative (str : jsstring) : bool :=
  startsWith str (negativePrefix this)
  || startsWith (replace str [HYPHEN] (ToString (minusSymbol this))) (ToString (minusSymbol this)).

Definition insertPrefixOrSuffix (str : jsstring) (negative : bool) : jsstring :=
  (if negative then negativePrefix this else prefix this) ++ str ++ suffix this.

Definition stripGroupingSeparator (str : jsstring) : completion jsstring :=
  g <- escapeRegExp (groupingSymbol this) ;;
  Normal (replace_g str g []).

Definition stripMinusSymbol (str : jsstring) : jsstring :=
  replace (replace str [HYPHEN] (ToString (minusSymbol this))) (ToString (minusSymbol this)) [].

Definition stripPrefixOrSuffix (str : jsstring) : jsstring :=
  replace (replace (replace str (negativePrefix this) []) (prefix this) []) (suffix this) [].

Definition normalizeDecimalSeparator (str : jsstring) (from : Z) : jsstring :=
  fold_left
    (fun str s =>
       substr str 0 (Some from)
       ++ replace (substr str from None) s (ToString (decimalSymbol this)))
    DECIMAL_SEPARATORS str.

Definition toFraction (str : jsstring) : jsstring :=
  ToString (nth_error (digits this) 0)
  ++ ToString (decimalSymbol this)
  ++ substr (onlyLocaleDigits (substr str 1 None)) 0
       (Some (Z.of_nat (maximumFractionDigits this))).

Definition isFractionIncomplete (str : jsstring) : completion bool :=
  stripped <- stripGroupingSeparator str ;;
  dec <- escapeRegExp (decimalSymbol this) ;;
  Normal (test_integer_then dec (normalizeDigits stripped)).

Definition isValidIntegerFormat (formattedNumber : jsstring) (integerNumber : number H) : bool :=
  let options :=
    {| o_style := Some (style this); o_currency := currency this; o_unit := unit this;
       o_minimumFractionDigits := Some 0; o_maximumFractionDigits := None;
       o_useGrouping := None |} in
  let grouping b := spread options
    {| o_style := None; o_currency := None; o_unit := None;
       o_minimumFractionDigits := None; o_maximumFractionDigits := None;
       o_useGrouping := Some b |} in
  existsb (jseqb formattedNumber)
    [ stripPrefixOrSuffix (normalizeDigits (toLocaleString H integerNumber (locale this) (grouping true)));
      stripPrefixOrSuffix (normalizeDigits (toLocaleString H integerNumber (locale this) (grouping false))) ].

Definition parse (str : option jsstring) : completion (option (number H)) :=
  match str with
  | Some ((_ :: _) as str) =>
      let negative := isNegative str in
      let str := normalizeDigits str in
      let str := stripPrefixOrSuffix str in
      let str := stripMinusSymbol str in
      fraction <- (if truthy (decimalSymbol this)
                   then dec <- escapeRegExp (decimalSymbol this) ;; Normal (Some dec)
                   else Normal None) ;;
      stripped <- stripGroupingSeparator str ;;
      match exec_number fraction stripped with
      | Some (m1, m2) =>
          if isValidIntegerFormat
               (if truthy (decimalSymbol this)
                then split_head str (ToString (decimalSymbol this))
                else str)
               (Number H m1)
          then Normal (Some (Number H
                 ((if negative then [HYPHEN] else [])
                  ++ onlyDigits m1 ++ [PERIOD]
                  ++ onlyDigits (match m2 with Some f => f | None => [] end))))
          else Normal None
      | None => Normal None
      end
  | _ => Normal None
  end.

(** Names for the intermediate values of [parse]: the two texts
    [isValidIntegerFormat] compares with, the text after steps 3 to 5, and the
    text [parse] hands to [isValidIntegerFormat]. *)
Definition renderings (integerNumber : number H) : list jsstring :=
  map (fun b =>
         stripPrefixOrSuffix (normalizeDigits
           (toLocaleString H integerNumber (locale this)
              {| o_style := Some (style this); o_currency := currency this;
                 o_unit := unit this; o_minimumFractionDigits := Some 0;
                 o_maximumFractionDigits := None; o_useGrouping := Some b |})))
      [true; false].

Definition affix_stripped (str : jsstring) : jsstring :=
  stripMinusSymbol (stripPrefixOrSuffix (normalizeDigits str)).

Definition integer_portion (str : jsstring) : jsstring :=
  if truthy (decimalSymbol this)
  then split_head str (ToString (decimalSymbol this))
  else str.

(** [value.toLocaleString(locales, options)] on options the caller chooses:
    the host constructs [new Intl.NumberFormat(locales, options)], which raises
    on options it refuses (fraction digits out of range, a currency style
    without currency), and formats the value with it. *)
Definition Number_toLocaleString (value : number H) (locales : option jsstring)
  (options : NumberFormatOptions) : completion jsstring :=
  numberFormat <- Intl_NumberFormat H locales options ;;
  Normal (toLocaleString H value locales options).

Definition format (value : option (number H)) (options : option NumberFormatOptions)
  : completion jsstring :=
  let options :=
    match options with
    | Some o => o
    | None =>
        {| o_style := None; o_currency := None; o_unit := None;
           o_minimumFractionDigits := Some (minimumFractionDigits this);
           o_maximumFractionDigits := Some (maximumFractionDigits this);
           o_useGrouping := None |}
    end in
  match value with
  | Some value =>
      Number_toLocaleString value (locale this)
        (spread
           {| o_style := Some (style this); o_currency := currency this; o_unit := unit this;
              o_minimumFractionDigits := None; o_maximumFractionDigits := None;
              o_useGrouping := None |}
           options)
  | None => Normal []
  end.

End Codec.

(* ------------------------------------------------------------------ *)
(** * [escapeRegExp] *)

(** Modelled from the spec: [escapeRegExp] is imported from [./utils], which is
    not among the sources.  The parser steps 6 and 7 have the grouping and the
    decimal symbol matched as literal text, so on a string the pattern matches
    that string; the function is a call of a string method on its argument
    ([str.replace] with the class of pattern metacharacters), which on
    [undefined] raises a TypeError. *)
Definition utils_escapeRegExp (str : option jsstring) : completion jsstring :=
  match str with
  | Some s => Normal s
  | None => Throw TypeError
  end.

(** An [escapeRegExp] that escapes: on a string, the pattern matches it. *)
Definition escapes (escapeRegExp : option jsstring -> completion jsstring) : Prop :=
  forall s, escapeRegExp (Some s) = Normal s.

(* ------------------------------------------------------------------ *)
(** * A host given by a locale data table *)

Module Table.

(** Numbers as exact decimals: [Finite neg m k] is [(-1)^neg * m / 10^k] with
    [k] minimal.  The range is that of IEEE doubles (a literal at or beyond
    [2^1024 - 2^970] reads as an infinity); the 53-bit rounding of the
    significand is not modelled, so the table host agrees with a JavaScript
    engine on decimals of at most 15 significant digits. *)
Inductive num :=
| NaN
| Infinity (negative : bool)
| Finite (negative : bool) (mantissa : N) (scale : nat).

Definition OVERFLOW : N := (2 ^ 1024 - 2 ^ 970)%N.

(** Drops trailing zeros of the fraction while more than [min] digits stay. *)
Fixpoint trim (m : N) (k min : nat) : N * nat :=
  match k with
  | O => (m, O)
  | S k' =>
      if (min <=? k')%nat && N.eqb (m mod 10) 0 then trim (m / 10)%N k' min
      else (m, k)
  end.

Definition digits_value (s : jsstring) : N :=
  fold_left (fun acc c => (acc * 10 + (c - ZERO))%N) s 0%N.

(** [Number(text)] on decimal literals: an optional sign, digits, an optional
    point and digits.  The empty text is 0; any other text is NaN. *)
Definition StringToNumber (text : jsstring) : num :=
  let '(neg, body) :=
    match text with
    | c :: r => if N.eqb c HYPHEN then (true, r) else (false, text)
    | [] => (false, [])
    end in
  let '(i, f) :=
    match search [PERIOD] body with
    | Some (b, a) => (b, a)
    | None => (body, [])
    end in
  match text with
  | [] => Finite false 0 0
  | _ :: _ =>
      if forallb is_digit i && forallb is_digit f
         && negb (Nat.eqb (length i + length f) 0)
      then
        let m := digits_value (i ++ f) in
        let k := length f in
        if (OVERFLOW * 10 ^ N.of_nat k <=? m)%N then Infinity neg
        else let '(m', k') := trim m k 0 in Finite neg m' k'
      else NaN
  end.

Definition finite (x : num) : bool :=
  match x with
  | Finite _ _ _ => true
  | _ => false
  end.

(** The locale data. *)
Record LocaleData := {
  zero : char;                 (* glyph of digit 0; the glyphs are contiguous *)
  group : jsstring;            (* empty: the locale does not group *)
  decimal : jsstring;
  minus : jsstring;
  percent : jsstring;
  knows : NumberFormatStyle.t -> bool   (* styles the table has patterns for *)
}.

Section Rendering.

Variable ld : LocaleData.

Definition localize (s : jsstring) : jsstring :=
  map (fun c => if is_digit c then (zero ld + (c - ZERO))%N else c) s.

(** Integer digits as [integer] parts separated by [group] parts, three
    digits to a group counted from the right. *)
Fixpoint int_parts (chunk : jsstring) (d : jsstring) : list Part :=
  match d with
  | [] => [{| type := PartType.integer; value := chunk |}]
  | c :: d' =>
      if (0 <? length d')%nat && (length d' mod 3 =? 0)%nat
      then {| type := PartType.integer; value := chunk ++ [c] |}
           :: {| type := PartType.group; value := group ld |}
           :: int_parts [] d'
      else int_parts (chunk ++ [c]) d'
  end.

Definition pad_left (n : nat) (s : jsstring) : jsstring :=
  repeat ZERO (n - length s) ++ s.

(** Rounds [m / 10^k] to [max] fraction digits, half away from zero. *)
Definition round (m : N) (k max : nat) : N * nat :=
  if (k <=? max)%nat then (m, k)
  else
    let d := (10 ^ N.of_nat (k - max))%N in
    let q := (m / d)%N in
    ((if (d <=? 2 * (m mod d))%N then q + 1 else q)%N, max).

(** ISO 4217 minor units and symbol of the currencies the table knows. *)
Definition currency_digits (cur : option jsstring) : nat :=
  match cur with
  | Some c => if jseqb c (u "JPY") then 0 else 2
  | None => 2
  end.

Definition currency_symbol (cur : option jsstring) : jsstring :=
  match cur with
  | Some c =>
      if jseqb c (u "EUR") then [EURO]
      else if jseqb c (u "JPY") then [YEN]
      else if jseqb c (u "USD") then [DOLLAR]
      else c ++ [NBSP]
  | None => []
  end.

Definition unit_symbol (unit : option jsstring) : jsstring :=
  match unit with
  | Some un => if jseqb un (u "gigabit") then u "Gb" else un
  | None => []
  end.

Definition style_of (o : NumberFormatOptions) : NumberFormatStyle.t :=
  match o_style o with
  | Some s => s
  | None => NumberFormatStyle.Decimal
  end.

(** The resolved [minimumFractionDigits] and [maximumFractionDigits], for
    options that [construct] accepts. *)
Definition fraction_digits (o : NumberFormatOptions) : nat * nat :=
  let '(mnfdDefault, mxfdDefault) :=
    match style_of o with
    | NumberFormatStyle.Currency =>
        (currency_digits (o_currency o), currency_digits (o_currency o))
    | NumberFormatStyle.Percent => (0, 0)
    | _ => (0, 3)
    end in
  match o_minimumFractionDigits o, o_maximumFractionDigits o with
  | None, None => (mnfdDefault, mxfdDefault)
  | Some mn, None => (mn, Nat.max mxfdDefault mn)
  | None, Some mx => (Nat.min mnfdDefault mx, mx)
  | Some mn, Some mx => (mn, Nat.max mn mx)
  end.

Definition number_parts (o : NumberFormatOptions) (x : num) : list Part :=
  match x with
  | NaN => [{| type := PartType.nan; value := u "NaN" |}]
  | Infinity _ => [{| type := PartType.infinity; value := [INFINITY_SIGN] |}]
  | Finite _ m k =>
      let '(mn, mx) := fraction_digits o in
      let m :=
        match style_of o with
        | NumberFormatStyle.Percent => (m * 100)%N
        | _ => m
        end in
      let '(q, kk) := round m k mx in
      let '(q, kk) := trim q kk mn in
      let '(q, kk) := if (kk <? mn)%nat then ((q * 10 ^ N.of_nat (mn - kk))%N, mn) else (q, kk) in
      let i := localize (decimal_digits (q / 10 ^ N.of_nat kk)) in
      let f := localize (pad_left kk (decimal_digits (q mod 10 ^ N.of_nat kk))) in
      (match o_useGrouping o, group ld with
       | Some false, _ | _, [] => [{| type := PartType.integer; value := i |}]
       | _, _ :: _ => int_parts [] i
       end)
      ++ (match kk with
          | O => []
          | S _ => [{| type := PartType.decimal; value := decimal ld |};
                    {| type := PartType.fraction; value := f |}]
          end)
  end.

Definition is_negative (x : num) : bool :=
  match x with
  | NaN => false
  | Infinity neg => neg
  | Finite neg _ _ => neg
  end.

(** Sign, then the currency symbol, the number, then the percent sign or
    the unit. *)
Definition parts (o : NumberFormatOptions) (x : num) : list Part :=
  (if is_negative x then [{| type := PartType.minusSign; value := minus ld |}] else [])
  ++ (match style_of o with
      | NumberFormatStyle.Currency =>
          [{| type := PartType.currency; value := currency_symbol (o_currency o) |}]
      | _ => []
      end)
  ++ number_parts o x
  ++ (match style_of o with
      | NumberFormatStyle.Percent => [{| type := PartType.percentSign; value := percent ld |}]
      | NumberFormatStyle.Unit =>
          [{| type := PartType.literal; value := u " " |};
           {| type := PartType.unit; value := unit_symbol (o_unit o) |}]
      | _ => []
      end).

(** The fraction digits a host accepts: [minimumFractionDigits] and
    [maximumFractionDigits] from 0 to 100, the minimum not above the maximum
    when both are given. *)
Definition MAX_FRACTION_DIGITS : nat := 100.

Definition digits_in_range (o : NumberFormatOptions) : bool :=
  let bounded v :=
    match v with
    | Some n => (n <=? MAX_FRACTION_DIGITS)%nat
    | None => true
    end in
  bounded (o_minimumFractionDigits o) && bounded (o_maximumFractionDigits o)
  && match o_minimumFractionDigits o, o_maximumFractionDigits o with
     | Some mn, Some mx => (mn <=? mx)%nat
     | _, _ => true
     end.

(** [new Intl.NumberFormat(locale, options)]: every locale resolves to the
    table; a currency style needs a currency, a unit style a unit, a style
    outside the table is refused, and so are fraction digits out of range
    (a RangeError). *)
Definition construct (locale : option jsstring) (o : NumberFormatOptions)
  : completion NumberFormatOptions :=
  match style_of o, o_currency o, o_unit o with
  | NumberFormatStyle.Currency, None, _ => Throw TypeError
  | NumberFormatStyle.Unit, _, None => Throw TypeError
  | s, _, _ =>
      if knows ld s
      then if digits_in_range o then Normal o else Throw RangeError
      else Throw RangeError
  end.

Definition host : Host :=
  {| number := num;
     Number := StringToNumber;
     isFinite := finite;
     numberFormat := NumberFormatOptions;
     Intl_NumberFormat := construct;
     formatToParts := fun nf x => parts nf x;
     resolvedMinimumFractionDigits := fun nf => fst (fraction_digits nf);
     resolvedMaximumFractionDigits := fun nf => snd (fraction_digits nf);
     toLocaleString := fun x _ o => join (map value (parts o x)) |}.

End Rendering.

Definition en : LocaleData :=
  {| zero := ZERO; group := [COMMA]; decimal := [PERIOD]; minus := [HYPHEN];
     percent := [PERCENT_SIGN]; knows := fun _ => true |}.

(** Arabic (Egypt): Arabic-Indic digits; only the decimal pattern is
    tabulated. *)
Definition ar_EG : LocaleData :=
  {| zero := ARABIC_ZERO; group := [ARABIC_THOUSANDS]; decimal := [ARABIC_DECIMAL];
     minus := [ARABIC_LETTER_MARK; HYPHEN];
     percent := [1642%N; ARABIC_LETTER_MARK];
     knows := fun s => match s with NumberFormatStyle.Decimal => true | _ => false end |}.

(** The POSIX variant of American English: no grouping. *)
Definition en_US_POSIX : LocaleData :=
  {| zero := ZERO; group := []; decimal := [PERIOD]; minus := [HYPHEN];
     percent := [PERCENT_SIGN]; knows := fun _ => true |}.

End Table.

(* ------------------------------------------------------------------ *)
(** * The profiles of the scenarios *)

Definition options_of (tag : string) (style : NumberFormatStyle.t)
  (currency : option string) (precision : option nat) : NumberInputOptions :=
  {| formatStyle := style; opt_currency := option_map u currency; opt_unit := None;
     opt_locale := Some (u tag); precision := precision |}.

Definition en_host : Host := Table.host Table.en.
Definition ar_host : Host := Table.host Table.ar_EG.
Definition posix_host : Host := Table.host Table.en_US_POSIX.

Definition ascii_digits : list jsstring := map (fun i => String_of_index i) (seq 0 10).

Definition en_Decimal : NumberFormat :=
  {| locale := Some (u "en"); style := NumberFormatStyle.Decimal;
     currency := None; unit := None; digits := ascii_digits;
     decimalSymbol := Some [PERIOD]; groupingSymbol := Some [COMMA];
     minusSymbol := Some [HYPHEN];
     minimumFractionDigits := 0; maximumFractionDigits := 3;
     prefix := []; negativePrefix := [HYPHEN]; suffix := [] |}.

Definition en_Percent : NumberFormat :=
  {| locale := Some (u "en"); style := NumberFormatStyle.Percent;
     currency := None; unit := None; digits := ascii_digits;
     decimalSymbol := None; groupingSymbol := Some [COMMA];
     minusSymbol := Some [HYPHEN];
     minimumFractionDigits := 0; maximumFractionDigits := 0;
     prefix := []; negativePrefix := [HYPHEN];
     suffix := u "-12,345,677%" |}.

Definition en_EUR : NumberFormat :=
  {| locale := Some (u "en"); style := NumberFormatStyle.Currency;
     currency := Some (u "EUR"); unit := None; digits := ascii_digits;
     decimalSymbol := Some [PERIOD]; groupingSymbol := Some [COMMA];
     minusSymbol := Some [HYPHEN];
     minimumFractionDigits := 2; maximumFractionDigits := 2;
     prefix := [EURO]; negativePrefix := [HYPHEN; EURO]; suffix := [] |}.

Definition en_JPY : NumberFormat :=
  {| locale := Some (u "en"); style := NumberFormatStyle.Currency;
     currency := Some (u "JPY"); unit := None; digits := ascii_digits;
     decimalSymbol := None; groupingSymbol := Some [COMMA];
     minusSymbol := Some [HYPHEN];
     minimumFractionDigits := 0; maximumFractionDigits := 0;
     prefix := [YEN]; negativePrefix := [HYPHEN; YEN];
     suffix := [HYPHEN; YEN] ++ u "123,457" |}.

Definition ar_Decimal : NumberFormat :=
  {| locale := Some (u "ar-EG"); style := NumberFormatStyle.Decimal;
     currency := None; unit := None;
     digits := map (fun i => [(ARABIC_ZERO + N.of_nat i)%N]) (seq 0 10);
     decimalSymbol := Some [ARABIC_DECIMAL]; groupingSymbol := Some [ARABIC_THOUSANDS];
     minusSymbol := Some [ARABIC_LETTER_MARK; HYPHEN];
     minimumFractionDigits := 0; maximumFractionDigits := 3;
     prefix := []; negativePrefix := [ARABIC_LETTER_MARK; HYPHEN]; suffix := [] |}.

Definition posix_Decimal : NumberFormat :=
  {| locale := Some (u "en-US-POSIX"); style := NumberFormatStyle.Decimal;
     currency := None; unit := None; digits := ascii_digits;
     decimalSymbol := Some [PERIOD]; groupingSymbol := None;
     minusSymbol := Some [HYPHEN];
     minimumFractionDigits := 0; maximumFractionDigits := 3;
     prefix := []; negativePrefix := [HYPHEN]; suffix := [] |}.

(** ** Texts of the table hosts *)

(** Digits with a separator before every group of three counted from the
    right: the text of [Table.int_parts]. *)
Fixpoint grouped (sep d : jsstring) : jsstring :=
  match d with
  | [] => []
  | c :: d' =>
      c :: (if (0 <? length d')%nat && (length d' mod 3 =? 0)%nat
            then sep ++ grouped sep d'
            else grouped sep d')
  end.

(** ** Tables with ten consecutive digit glyphs and separators of one code unit *)

Definition digit_table (z g d : char) (mn pc : jsstring)
  (knows : NumberFormatStyle.t -> bool) : Table.LocaleData :=
  {| Table.zero := z; Table.group := [g]; Table.decimal := [d];
     Table.minus := mn; Table.percent := pc; Table.knows := knows |}.

(** ASCII digits written with the glyphs that start at [z]; other code units
    are kept. *)
Definition localized (z : char) (s : jsstring) : jsstring :=
  map (fun c => if is_digit c then (z + (c - ZERO))%N else c) s.

Definition is_glyph (z c : char) : bool := ((z <=? c) && (c <=? z + 9))%N.

(** The way back: a glyph of the table as the ASCII digit it stands for. *)
Definition unglyph (z c : char) : char :=
  if is_glyph z c then (ZERO + (c - z))%N else c.

Definition glyphs (z : char) : list jsstring :=
  map (fun i => [(z + N.of_nat i)%N]) (seq 0 10).

(** What the table host writes before and after the digits of a number, for
    the styles other than percent. *)
Definition host_prefix (style : NumberFormatStyle.t) (currency : option jsstring) : jsstring :=
  match style with
  | NumberFormatStyle.Currency => Table.currency_symbol currency
  | _ => []
  end.

Definition host_suffix (style : NumberFormatStyle.t) (unit : option jsstring) : jsstring :=
  match style with
  | NumberFormatStyle.Unit => u " " ++ Table.unit_symbol unit
  | _ => []
  end.

(** Integer digits grouped by [g] or not, then fraction digits after [d], all
    in ASCII digits. *)
Definition number_text (g d : char) (q : N) (fr : option jsstring) (grouping : bool) : jsstring :=
  (if grouping then grouped [g] (decimal_digits q) else decimal_digits q)
  ++ match fr with
     | Some f => d :: f
     | None => []
     end.

(** A number as such a table writes it: sign [mn], currency text [cs], the
    digits in the glyphs of the table, unit text [us]. *)
Definition table_text (z g d : char) (mn cs us : jsstring)
  (negative : bool) (q : N) (fr : option jsstring) (grouping : bool) : jsstring :=
  (if negative then mn else [])
  ++ cs
  ++ localized z (number_text g d q fr grouping)
  ++ us.

(** The symbols do not interfere: separators and affixes are no ASCII digits,
    the two separators differ and are no hyphen, the first code unit of the
    minus sign occurs in no separator and no affix, the affixes contain no
    hyphen, no digit and no separator, at most one of the currency and the
    unit text is there, and digit glyphs other than the ASCII digits lie
    beyond ASCII and occur in no symbol. *)
Record separated (z g d : char) (mn cs us : jsstring) : Prop := {
  sep_group : is_digit g = false;
  sep_decimal : is_digit d = false;
  sep_distinct : g <> d;
  sep_group_hyphen : g <> HYPHEN;
  sep_decimal_hyphen : d <> HYPHEN;
  sep_minus : exists m0 rest,
      mn = m0 :: rest /\ is_digit m0 = false /\ m0 <> g /\ m0 <> d
      /\ ~ In m0 cs /\ ~ In m0 us;
  sep_dollar : existsb (N.eqb DOLLAR) mn = false;
  sep_affix : forall c, In c (cs ++ us) ->
      is_digit c = false /\ c <> g /\ c <> d /\ c <> HYPHEN;
  sep_one : cs = [] \/ us = [];
  sep_glyphs : z = ZERO
               \/ ((128 <= z)%N
                   /\ forall c, In c (g :: d :: mn ++ cs ++ us) -> is_glyph z c = false)
}.

(** The profile the constructor derives from such a table, for a style other
    than percent: a currency without minor units has no fraction part in the
    probe. *)
Definition table_profile (z g d : char) (mn : jsstring) (o : NumberInputOptions) : NumberFormat :=
  let s := formatStyle o in
  let cs := host_prefix s (opt_currency o) in
  let us := host_suffix s (opt_unit o) in
  let fractionless :=
    match s with
    | NumberFormatStyle.Currency => Nat.eqb (Table.currency_digits (opt_currency o)) 0
    | _ => false
    end in
  let resolved :=
    match s with
    | NumberFormatStyle.Currency =>
        (Table.currency_digits (opt_currency o), Table.currency_digits (opt_currency o))
    | _ => (0, 3)
    end in
  let bounds :=
    if fractionless then (0, 0)
    else match precision o with
         | Some p => (p, p)
         | None => resolved
         end in
  {| locale := opt_locale o; style := s; currency := opt_currency o; unit := opt_unit o;
     digits := glyphs z;
     decimalSymbol := if fractionless then None else Some [d];
     groupingSymbol := Some [g];
     minusSymbol := Some mn;
     minimumFractionDigits := fst bounds;
     maximumFractionDigits := snd bounds;
     prefix := cs;
     negativePrefix := mn ++ cs;
     suffix := if fractionless
               then mn ++ cs ++ localized z (u "123") ++ [g] ++ localized z (u "457")
               else us |}.

(** Texts of ASCII digits and the two separators: they contain no other code
    unit. *)
Definition plain_text (g d : char) (b : jsstring) : Prop :=
  forall p, is_digit p = false -> p <> g -> p <> d ->
            forallb (fun c => negb (N.eqb p c)) b = true.

(** The pattern of the fraction group of [parse] when [escapeRegExp] escapes. *)
Definition fraction_pattern (this : NumberFormat) : option jsstring :=
  if truthy (decimalSymbol this) then decimalSymbol this else None.

(** ** What the finiteness of parsed numbers needs from the host *)



(** The digit glyphs are the ASCII digits, or every glyph has a code unit
    that is not an ASCII digit. *)
Definition glyphs_foreign (this : NumberFormat) : Prop :=
  ToString (nth_error (digits this) 0) = [ZERO]
  \/ Forall (fun glyph => exists c, In c glyph /\ is_digit c = false) (digits this).

(** The suffix as the specification words it: the parts after the last
    fraction part or, without a fraction part, after the last integer part
    ([None] when the decomposition has neither). *)
Fixpoint after_last (t : PartType.t) (parts : list Part) : option (list Part) :=
  match parts with
  | [] => None
  | part :: rest =>
      match after_last t rest with
      | Some r => Some r
      | None => if is_type t part then Some rest else None
      end
  end.

Definition suffix_spec (parts : list Part) : option jsstring :=
  match after_last PartType.fraction parts with
  | Some r => Some (join (map value r))
  | None => option_map (fun r => join (map value r)) (after_last PartType.integer parts)
  end.

(** The rewriting the specification words for [normalizeDecimalSeparator]:
    every separator at or after [from] becomes the decimal symbol. *)
Definition rewrite_every_separator (dec : jsstring) (text : jsstring) (from : nat) : jsstring :=
  firstn from text
  ++ flat_map (fun c => if existsb (jseqb [c]) DECIMAL_SEPARATORS then dec else [c])
       (skipn from text).


(** ** Texts and affixes *)

(** The first code unit of [affix] does not occur in [text]; an empty affix
    has none. *)
Definition head_absent (affix text : jsstring) : Prop :=
  match affix with
  | [] => True
  | c :: _ => ~ In c text
  end.

(** ** The percent style on a digit table *)

(** The profile the constructor derives from a digit table for the percent
    style: the probe is written as a percentage without fraction, so there is
    no decimal symbol and the suffix is the whole text of the probe. *)
Definition percent_profile (z g : char) (mn pc : jsstring) (o : NumberInputOptions)
  : NumberFormat :=
  {| locale := opt_locale o; style := NumberFormatStyle.Percent;
     currency := opt_currency o; unit := opt_unit o;
     digits := glyphs z;
     decimalSymbol := None;
     groupingSymbol := Some [g];
     minusSymbol := Some mn;
     minimumFractionDigits := 0;
     maximumFractionDigits := 0;
     prefix := [];
     negativePrefix := mn;
     suffix := mn ++ localized z (u "12") ++ [g] ++ localized z (u "345") ++ [g]
               ++ localized z (u "677") ++ pc |}.
(* ================================================================== *)
(** * Properties *)

(** ** String primitives *)

Lemma jseqb_eq (a b : jsstring) : jseqb a b = true <-> a = b.
Proof. unfold jseqb. destruct (list_eq_dec N.eq_dec a b); split; congruence. Qed.

Lemma jseqb_refl (a : jsstring) : jseqb a a = true.
Proof. now apply jseqb_eq. Qed.

Lemma existsb_jseqb (x : jsstring) (l : list jsstring) :
  existsb (jseqb x) l = true <-> In x l.
Proof.
  rewrite existsb_exists. split.
  - intros [y [Hy E]]. apply jseqb_eq in E. now subst.
  - intros Hx. exists x. split; [assumption | apply jseqb_refl].
Qed.

Lemma startsWith_prefix (str search : jsstring) :
  startsWith str search = true <-> exists rest, str = search ++ rest.
Proof.
  revert str; induction search as [|c search IH]; intros str; simpl.
  - split; [intros _; now exists str | intros _; reflexivity].
  - destruct str as [|d str].
    + split; [discriminate | intros [rest Hr]; discriminate].
    + rewrite andb_true_iff, N.eqb_eq, IH. split.
      * intros [-> [rest ->]]. now exists rest.
      * intros [rest Hr]. injection Hr as -> ->. split; [reflexivity | now exists rest].
Qed.

Lemma startsWith_app (search rest : jsstring) : startsWith (search ++ rest) search = true.
Proof. apply startsWith_prefix. now exists rest. Qed.

Lemma startsWith_nil (str : jsstring) : startsWith str [] = true.
Proof. reflexivity. Qed.

Lemma skipn_length_app {A} (a b : list A) : skipn (length a) (a ++ b) = b.
Proof. induction a; simpl; auto. Qed.

Lemma firstn_length_app {A} (a b : list A) : firstn (length a) (a ++ b) = a.
Proof. induction a; simpl; congruence. Qed.

(** [search] splits the text around an occurrence of the pattern. *)
Lemma search_Some (pat str before after : jsstring) :
  search pat str = Some (before, after) -> str = before ++ pat ++ after.
Proof.
  revert before; induction str as [|c str IH]; intros before; simpl.
  - destruct (startsWith [] pat) eqn:E; [|discriminate].
    intros [= <- <-]. apply startsWith_prefix in E as [rest E].
    destruct pat; [|discriminate]. reflexivity.
  - destruct (startsWith (c :: str) pat) eqn:E.
    + intros [= <- <-]. apply startsWith_prefix in E as [rest E].
      rewrite E at 1. simpl. f_equal. rewrite E. now rewrite skipn_length_app.
    + destruct (search pat str) as [[b a]|] eqn:S; [|discriminate].
      intros [= <- <-]. simpl. f_equal. now apply IH.
Qed.

(** No occurrence starts inside the text before the first one. *)
Lemma search_first (pat str before after : jsstring) :
  search pat str = Some (before, after) ->
  forall k, k < length before -> startsWith (skipn k str) pat = false.
Proof.
  revert before; induction str as [|c str IH]; intros before; simpl.
  - destruct (startsWith [] pat); [|discriminate]. intros [= <- <-] k Hk. inversion Hk.
  - destruct (startsWith (c :: str) pat) eqn:E.
    + intros [= <- <-] k Hk. inversion Hk.
    + destruct (search pat str) as [[b a]|] eqn:S; [|discriminate].
      intros [= <- <-] [|k] Hk; simpl in *; [exact E|].
      apply (IH b eq_refl). lia.
Qed.

Lemma search_nil (str : jsstring) : search [] str = Some ([], str).
Proof. destruct str; reflexivity. Qed.

Lemma GetSubstitution_nil (matched before after : jsstring) :
  GetSubstitution matched before after [] = [].
Proof. reflexivity. Qed.

(** A replacement without [$] is inserted as it is. *)
Lemma GetSubstitution_literal (matched before after rep : jsstring) :
  existsb (N.eqb DOLLAR) rep = false ->
  GetSubstitution matched before after rep = rep.
Proof.
  induction rep as [|c rep IH]; [reflexivity|].
  cbn [existsb]. rewrite orb_false_iff. intros [Hc Hr].
  cbn [GetSubstitution]. rewrite N.eqb_sym, Hc. now rewrite IH.
Qed.

Lemma replace_absent (str pat rep : jsstring) :
  search pat str = None -> replace str pat rep = str.
Proof. unfold replace. now intros ->. Qed.

Lemma replace_nil_nil (str : jsstring) : replace str [] [] = str.
Proof. unfold replace. now rewrite search_nil. Qed.

(** Removing a pattern that is empty or absent changes nothing. *)
Lemma replace_id (str pat : jsstring) :
  pat = [] \/ search pat str = None -> replace str pat [] = str.
Proof. intros [-> | Hs]; [apply replace_nil_nil | now apply replace_absent]. Qed.

(** [replace] rewrites the first occurrence and nothing else. *)
Lemma replace_first (str pat rep before after : jsstring) :
  search pat str = Some (before, after) ->
  existsb (N.eqb DOLLAR) rep = false ->
  str = before ++ pat ++ after /\ replace str pat rep = before ++ rep ++ after.
Proof.
  intros Hs Hd. split; [now apply search_Some|].
  unfold replace. rewrite Hs. now rewrite GetSubstitution_literal.
Qed.

Lemma search_none_nil (pat : jsstring) : pat <> [] -> search pat [] = None.
Proof. destruct pat; [congruence | reflexivity]. Qed.

Lemma replace_empty_text (pat rep : jsstring) : pat <> [] -> replace [] pat rep = [].
Proof. intros Hp. apply replace_absent. now apply search_none_nil. Qed.

Lemma substr_tail (str : jsstring) : substr str 1 None = tl str.
Proof.
  unfold substr. destruct str as [|c str]; [reflexivity|].
  cbn [length tl]. replace (1 <? 0)%Z with false by reflexivity.
  rewrite Z.min_l by lia. change (Z.to_nat 1) with 1. cbn [skipn].
  apply firstn_all2. lia.
Qed.

Lemma substr_head (str : jsstring) (n : nat) :
  substr str 0 (Some (Z.of_nat n)) = firstn n str.
Proof.
  unfold substr. replace (0 <? 0)%Z with false by reflexivity.
  assert (E : Z.min 0 (Z.of_nat (length str)) = 0%Z) by lia. rewrite E.
  change (Z.to_nat 0) with 0. cbn [skipn]. rewrite Z.sub_0_r.
  destruct (Nat.le_gt_cases n (length str)).
  - replace (Z.min (Z.max (Z.of_nat n) 0) (Z.of_nat (length str))) with (Z.of_nat n) by lia.
    now rewrite Nat2Z.id.
  - replace (Z.min (Z.max (Z.of_nat n) 0) (Z.of_nat (length str)))
      with (Z.of_nat (length str)) by lia.
    rewrite Nat2Z.id. rewrite !firstn_all2; (reflexivity || lia).
Qed.

Lemma substr_from (str : jsstring) (n : nat) :
  substr str (Z.of_nat n) None = skipn n str.
Proof.
  unfold substr. replace (Z.of_nat n <? 0)%Z with false by (symmetry; apply Z.ltb_ge; lia).
  destruct (Nat.le_gt_cases n (length str)).
  - replace (Z.min (Z.of_nat n) (Z.of_nat (length str))) with (Z.of_nat n) by lia.
    rewrite Nat2Z.id. apply firstn_all2. rewrite length_skipn. lia.
  - replace (Z.min (Z.of_nat n) (Z.of_nat (length str))) with (Z.of_nat (length str)) by lia.
    rewrite Nat2Z.id, Z.sub_diag. simpl. now rewrite skipn_all2 by lia.
Qed.

(** ** Arrays *)

Lemma findIndex_none {A} (f : A -> bool) (l : list A) :
  forallb (fun x => negb (f x)) l = true -> findIndex f l = (-1)%Z.
Proof.
  induction l as [|x l IH]; simpl; [reflexivity|].
  rewrite andb_true_iff, negb_true_iff. intros [-> Hl]. now rewrite IH.
Qed.

Lemma findIndex_first {A} (f : A -> bool) (pre post : list A) (x : A) :
  forallb (fun y => negb (f y)) pre = true -> f x = true ->
  findIndex f (pre ++ x :: post) = Z.of_nat (length pre).
Proof.
  intros Hpre Hx. induction pre as [|y pre IH]; simpl.
  - now rewrite Hx.
  - simpl in Hpre. apply andb_true_iff in Hpre as [Hy Hpre].
    apply negb_true_iff in Hy. rewrite Hy, (IH Hpre).
    replace (Z.of_nat (length pre) <? 0)%Z with false by (symmetry; apply Z.ltb_ge; lia).
    lia.
Qed.

Lemma slice_from {A} (l : list A) (n : nat) :
  slice l (Z.of_nat n) None = skipn n l.
Proof.
  unfold slice. replace (Z.of_nat n <? 0)%Z with false by (symmetry; apply Z.ltb_ge; lia).
  destruct (Nat.le_gt_cases n (length l)).
  - replace (Z.min (Z.of_nat n) (Z.of_nat (length l))) with (Z.of_nat n) by lia.
    rewrite Nat2Z.id. apply firstn_all2. rewrite length_skipn. lia.
  - replace (Z.min (Z.of_nat n) (Z.of_nat (length l))) with (Z.of_nat (length l)) by lia.
    rewrite Nat2Z.id, Z.sub_diag. simpl. now rewrite skipn_all2 by lia.
Qed.

(** ** The profiles of the scenarios are the constructor's *)

Example constructor_en_Decimal :
  constructor en_host (options_of "en" NumberFormatStyle.Decimal None None) = Normal en_Decimal.
Proof. vm_compute. reflexivity. Qed.

Example constructor_en_Percent :
  constructor en_host (options_of "en" NumberFormatStyle.Percent None None) = Normal en_Percent.
Proof. vm_compute. reflexivity. Qed.

Example constructor_en_EUR :
  constructor en_host (options_of "en" NumberFormatStyle.Currency (Some "EUR"%string) None)
  = Normal en_EUR.
Proof. vm_compute. reflexivity. Qed.

Example constructor_en_JPY :
  constructor en_host (options_of "en" NumberFormatStyle.Currency (Some "JPY"%string) None)
  = Normal en_JPY.
Proof. vm_compute. reflexivity. Qed.

Example constructor_ar_Decimal :
  constructor ar_host (options_of "ar-EG" NumberFormatStyle.Decimal None None) = Normal ar_Decimal.
Proof. vm_compute. reflexivity. Qed.

Example constructor_posix_Decimal :
  constructor posix_host (options_of "en-US-POSIX" NumberFormatStyle.Decimal None None)
  = Normal posix_Decimal.
Proof. vm_compute. reflexivity. Qed.

(** An unsupported combination fails at construction. *)
Example constructor_currency_without_code :
  constructor en_host (options_of "en" NumberFormatStyle.Currency None None) = Throw TypeError.
Proof. reflexivity. Qed.

(** ** Null propagation *)

(** C4. For every host, every [escapeRegExp] and every profile,
    [parse(null)] and [parse("")] return null. *)
Theorem parse_null_propagation (H : Host)
  (escapeRegExp : option jsstring -> completion jsstring) (this : NumberFormat) :
  parse H escapeRegExp this None = Normal None
  /\ parse H escapeRegExp this (Some []) = Normal None.
Proof. split; reflexivity. Qed.

(** ** The constructor *)

(** C9. A constructed profile without a decimal symbol has both fraction
    bounds 0, whatever precision was requested; with a decimal symbol and an
    explicit precision both bounds are that precision (and otherwise the
    host's resolved bounds). *)
Theorem constructor_fraction_bounds (H : Host) (options : NumberInputOptions)
  (this : NumberFormat) :
  constructor H options = Normal this ->
  match decimalSymbol this, precision options with
  | None, _ => minimumFractionDigits this = 0 /\ maximumFractionDigits this = 0
  | Some _, Some p => minimumFractionDigits this = p /\ maximumFractionDigits this = p
  | Some _, None =>
      exists numberFormat,
        Intl_NumberFormat H (opt_locale options)
          {| o_style := Some (formatStyle options); o_currency := opt_currency options;
             o_unit := opt_unit options; o_minimumFractionDigits := None;
             o_maximumFractionDigits := None; o_useGrouping := None |} = Normal numberFormat
        /\ minimumFractionDigits this = resolvedMinimumFractionDigits H numberFormat
        /\ maximumFractionDigits this = resolvedMaximumFractionDigits H numberFormat
  end.
Proof.
  unfold constructor.
  destruct (Intl_NumberFormat H _ _) as [nf|e] eqn:E; simpl; [|discriminate].
  intros [= <-]. simpl.
  destruct (find_value PartType.decimal _); simpl.
  - destruct (precision options); simpl; [split; reflexivity|].
    exists nf. repeat split; reflexivity.
  - split; reflexivity.
Qed.

(** A percent profile of [en] asked for precision 2: the probe has no decimal
    part and the bounds are 0. *)
Lemma constructor_fraction_bounds_witness :
  decimalSymbol en_Percent = None
  /\ minimumFractionDigits en_Percent = 0 /\ maximumFractionDigits en_Percent = 0.
Proof.
  split; [reflexivity|].
  exact (constructor_fraction_bounds en_host
           (options_of "en" NumberFormatStyle.Percent None (Some 2)) en_Percent
           ltac:(vm_compute; reflexivity)).
Defined.

Example constructor_precision_kept :
  exists this,
    constructor en_host (options_of "en" NumberFormatStyle.Decimal None (Some 5)) = Normal this
    /\ minimumFractionDigits this = 5 /\ maximumFractionDigits this = 5.
Proof. eexists. split; [vm_compute; reflexivity | split; reflexivity]. Qed.

(** The suffix the constructor computes when the probe has a fraction part:
    the parts after the first one. *)
Lemma constructor_suffix_after_fraction (H : Host) (options : NumberInputOptions)
  (this : NumberFormat) (nf : numberFormat H) (pre post : list Part) (f : Part) :
  Intl_NumberFormat H (opt_locale options)
    {| o_style := Some (formatStyle options); o_currency := opt_currency options;
       o_unit := opt_unit options; o_minimumFractionDigits := None;
       o_maximumFractionDigits := None; o_useGrouping := None |} = Normal nf ->
  formatToParts H nf (PROBE H) = pre ++ f :: post ->
  forallb (fun p => negb (is_type PartType.fraction p)) pre = true ->
  is_type PartType.fraction f = true ->
  constructor H options = Normal this ->
  suffix this = join (map value post).
Proof.
  intros E Hparts Hpre Hf. unfold constructor. rewrite E. simpl.
  intros [= <-]. simpl. rewrite Hparts.
  rewrite (findIndex_first _ pre post f Hpre Hf).
  replace (Z.of_nat (length pre) + 1)%Z with (Z.of_nat (S (length pre))) by lia.
  rewrite slice_from.
  replace (S (length pre)) with (length (pre ++ [f])) by (rewrite length_app; simpl; lia).
  replace (pre ++ f :: post) with ((pre ++ [f]) ++ post) by (now rewrite <- app_assoc).
  now rewrite skipn_length_app.
Qed.

(** Without a fraction part [findIndex] is -1 and the slice starts at 0: the
    suffix is the whole probe text. *)
Lemma constructor_suffix_without_fraction (H : Host) (options : NumberInputOptions)
  (this : NumberFormat) (nf : numberFormat H) :
  Intl_NumberFormat H (opt_locale options)
    {| o_style := Some (formatStyle options); o_currency := opt_currency options;
       o_unit := opt_unit options; o_minimumFractionDigits := None;
       o_maximumFractionDigits := None; o_useGrouping := None |} = Normal nf ->
  forallb (fun p => negb (is_type PartType.fraction p)) (formatToParts H nf (PROBE H)) = true ->
  constructor H options = Normal this ->
  suffix this = join (map value (formatToParts H nf (PROBE H))).
Proof.
  intros E Hnone. unfold constructor. rewrite E. simpl.
  intros [= <-]. simpl. rewrite (findIndex_none _ _ Hnone).
  change (-1 + 1)%Z with (Z.of_nat 0). now rewrite slice_from.
Qed.

(** C8, at the yen profile of [en]: the probe (minus sign, yen sign, 123,457) has no fraction
    part; the constructor's suffix is the whole probe text, where the
    specification has the (empty) text after the last integer part. *)
Theorem suffix_of_yen_is_the_probe :
  constructor en_host (options_of "en" NumberFormatStyle.Currency (Some "JPY"%string) None)
  = Normal en_JPY
  /\ suffix en_JPY = [HYPHEN; YEN] ++ u "123,457"
  /\ suffix_spec
       (Table.parts Table.en
          {| o_style := Some NumberFormatStyle.Currency; o_currency := Some (u "JPY");
             o_unit := None; o_minimumFractionDigits := None;
             o_maximumFractionDigits := None; o_useGrouping := None |}
          (PROBE en_host)) = Some [].
Proof. repeat split; vm_compute; reflexivity. Qed.

(** With a fraction part the two agree: the euro profile. *)
Example suffix_of_euro :
  suffix en_EUR = []
  /\ suffix_spec
       (Table.parts Table.en
          {| o_style := Some NumberFormatStyle.Currency; o_currency := Some (u "EUR");
             o_unit := None; o_minimumFractionDigits := None;
             o_maximumFractionDigits := None; o_useGrouping := None |}
          (PROBE en_host)) = Some [].
Proof. split; vm_compute; reflexivity. Qed.

(** ** Affix stripping *)

(** C5, as stated, fails on the euro profile of [en]: stripping removes one
    currency sign at a time. *)
Lemma stripPrefixOrSuffix_not_idempotent :
  stripPrefixOrSuffix en_EUR (stripPrefixOrSuffix en_EUR ([EURO; EURO] ++ u "1"))
  <> stripPrefixOrSuffix en_EUR ([EURO; EURO] ++ u "1").
Proof. vm_compute. discriminate. Qed.

(** C5, amended. Stripping is idempotent on every text whose stripped form no
    longer contains the negative prefix, the prefix or the suffix (an empty
    affix counts as absent). *)
Theorem stripPrefixOrSuffix_idempotent (this : NumberFormat) (s : jsstring) :
  (forall affix, In affix [negativePrefix this; prefix this; suffix this] ->
     affix = [] \/ search affix (stripPrefixOrSuffix this s) = None) ->
  stripPrefixOrSuffix this (stripPrefixOrSuffix this s) = stripPrefixOrSuffix this s.
Proof.
  intros Habs. set (t := stripPrefixOrSuffix this s) in *.
  unfold stripPrefixOrSuffix at 1.
  rewrite (replace_id t (negativePrefix this)) by (apply Habs; simpl; auto).
  rewrite (replace_id t (prefix this)) by (apply Habs; simpl; auto).
  apply replace_id. apply Habs. simpl; auto.
Qed.

Lemma stripPrefixOrSuffix_idempotent_witness :
  stripPrefixOrSuffix en_EUR (stripPrefixOrSuffix en_EUR ([EURO] ++ u "1,234.50"))
  = stripPrefixOrSuffix en_EUR ([EURO] ++ u "1,234.50")
  /\ stripPrefixOrSuffix en_EUR ([EURO] ++ u "1,234.50") = u "1,234.50".
Proof.
  split; [|reflexivity].
  apply (stripPrefixOrSuffix_idempotent en_EUR ([EURO] ++ u "1,234.50")).
  intros affix [<- | [<- | [<- | []]]];
    [right; reflexivity | right; reflexivity | left; reflexivity].
Defined.

(** ** Decimal separators *)

(** C6, as stated, fails on the decimal profile of [en]: of two commas only
    the first is rewritten. *)
Lemma normalizeDecimalSeparator_not_every_occurrence :
  normalizeDecimalSeparator en_Decimal (u "1,2,3") 0 = u "1.2,3"
  /\ normalizeDecimalSeparator en_Decimal (u "1,2,3") 0
     <> rewrite_every_separator [PERIOD] (u "1,2,3") 0.
Proof. split; [reflexivity | vm_compute; discriminate]. Qed.

Lemma normalizeDecimalSeparator_step (text str tail s dec : jsstring) (from : nat) :
  s <> [] ->
  str = firstn from text ++ (if from <=? length text then tail else []) ->
  substr str 0 (Some (Z.of_nat from)) ++ replace (substr str (Z.of_nat from) None) s dec
  = firstn from text ++ (if from <=? length text then replace tail s dec else []).
Proof.
  intros Hs ->. rewrite substr_head, substr_from.
  destruct (from <=? length text) eqn:E.
  - apply Nat.leb_le in E.
    assert (L : length (firstn from text) = from) by (rewrite length_firstn; lia).
    rewrite <- L at 1 3. now rewrite firstn_length_app, skipn_length_app.
  - apply Nat.leb_gt in E. rewrite app_nil_r.
    rewrite (@firstn_all2 _ from text) by lia.
    rewrite firstn_all2 by lia. rewrite skipn_all2 by lia.
    rewrite replace_empty_text by assumption. apply app_nil_r.
Qed.

(** C6, amended. For every profile, every text and every index [from >= 0],
    the text before [from] is kept and, in the text from [from] on, the first
    comma, then the first period, then the first Arabic decimal separator of
    the text so far is replaced by the decimal symbol ([replace] rewrites one
    occurrence: [replace_first]); later occurrences stay. *)
Theorem normalizeDecimalSeparator_first_occurrences (this : NumberFormat)
  (text : jsstring) (from : nat) :
  let dec := ToString (decimalSymbol this) in
  normalizeDecimalSeparator this text (Z.of_nat from)
  = firstn from text
    ++ replace (replace (replace (skipn from text) [COMMA] dec) [PERIOD] dec)
         [ARABIC_DECIMAL] dec
  /\ firstn from (normalizeDecimalSeparator this text (Z.of_nat from)) = firstn from text.
Proof.
  intros dec.
  assert (E : normalizeDecimalSeparator this text (Z.of_nat from)
              = firstn from text
                ++ (if from <=? length text
                    then replace (replace (replace (skipn from text) [COMMA] dec) [PERIOD] dec)
                           [ARABIC_DECIMAL] dec
                    else [])).
  { unfold normalizeDecimalSeparator, DECIMAL_SEPARATORS. cbn [fold_left]. fold dec.
    assert (T : text = firstn from text ++ (if from <=? length text then skipn from text else [])).
    { destruct (from <=? length text) eqn:L.
      - now rewrite firstn_skipn.
      - apply Nat.leb_gt in L. rewrite app_nil_r. symmetry. apply firstn_all2. lia. }
    apply (normalizeDecimalSeparator_step text); [congruence|].
    apply (normalizeDecimalSeparator_step text); [congruence|].
    apply (normalizeDecimalSeparator_step text); [congruence|exact T]. }
  rewrite E. destruct (from <=? length text) eqn:L.
  - split; [reflexivity|]. apply Nat.leb_le in L.
    assert (Len : length (firstn from text) = from) by (rewrite length_firstn; lia).
    rewrite <- Len at 1. apply firstn_length_app.
  - apply Nat.leb_gt in L. rewrite app_nil_r.
    rewrite (@skipn_all2 _ from text) by lia.
    rewrite !replace_empty_text by congruence. rewrite app_nil_r.
    split; [reflexivity|]. rewrite (@firstn_all2 _ from text) by lia.
    apply firstn_all2. lia.
Qed.

(** A single typed separator is rewritten into the decimal symbol. *)
Example normalizeDecimalSeparator_typed_comma :
  normalizeDecimalSeparator en_Decimal (u "1,234,5") 5 = u "1,234.5".
Proof. reflexivity. Qed.

(** ** Fractions typed from the decimal separator *)

(** C7, as stated, fails on the decimal profile of [ar-EG]: the result starts
    with the locale's glyph for zero, not with the ASCII digit. *)
Lemma toFraction_starts_with_locale_zero :
  toFraction ar_Decimal ([PERIOD] ++ [1633; 1634]%N) = [ARABIC_ZERO; ARABIC_DECIMAL; 1633; 1634]%N
  /\ toFraction ar_Decimal ([PERIOD] ++ [1633; 1634]%N)
     <> u "0" ++ [ARABIC_DECIMAL]
        ++ firstn (maximumFractionDigits ar_Decimal) (onlyLocaleDigits ar_Decimal [1633; 1634]%N).
Proof. split; [reflexivity | vm_compute; discriminate]. Qed.

(** C7, amended. For every profile with digit glyphs and a decimal symbol and
    every text, [toFraction] is the profile's glyph for zero, the decimal
    symbol, and the text after its first code unit filtered to the code units
    of the digit glyphs and cut to [maximumFractionDigits]. *)
Theorem toFraction_spec (this : NumberFormat) (text zero dec : jsstring)
  (glyphs : list jsstring) :
  digits this = zero :: glyphs ->
  decimalSymbol this = Some dec ->
  toFraction this text
  = zero ++ dec
    ++ firstn (maximumFractionDigits this)
         (filter (fun c => existsb (N.eqb c) (concat (digits this))) (tl text)).
Proof.
  intros Hd Hdec. unfold toFraction. rewrite Hd, Hdec. simpl ToString.
  rewrite substr_tail, substr_head. rewrite <- Hd. reflexivity.
Qed.

Lemma toFraction_spec_witness :
  toFraction en_Decimal (u ".12a345") = u "0.123".
Proof.
  rewrite (toFraction_spec en_Decimal (u ".12a345") (u "0") [PERIOD]
             (tl ascii_digits) eq_refl eq_refl).
  reflexivity.
Defined.

(** ** The structure of [parse] *)

Section ParseFacts.

Variable H : Host.
Variable escapeRegExp : option jsstring -> completion jsstring.
Variable this : NumberFormat.

Lemma isValidIntegerFormat_renderings (formattedNumber : jsstring) (x : number H) :
  isValidIntegerFormat H this formattedNumber x = true <-> In formattedNumber (renderings H this x).
Proof.
  change (isValidIntegerFormat H this formattedNumber x)
    with (existsb (jseqb formattedNumber) (renderings H this x)).
  apply existsb_jseqb.
Qed.

(** [parse] on a non-empty text, step by step. *)
Lemma parse_steps (c : char) (s : jsstring) :
  parse H escapeRegExp this (Some (c :: s)) =
  (fraction <- (if truthy (decimalSymbol this)
                then dec <- escapeRegExp (decimalSymbol this) ;; Normal (Some dec)
                else Normal None) ;;
   stripped <- stripGroupingSeparator escapeRegExp this (affix_stripped this (c :: s)) ;;
   match exec_number fraction stripped with
   | Some (m1, m2) =>
       if isValidIntegerFormat H this (integer_portion this (affix_stripped this (c :: s)))
            (Number H m1)
       then Normal (Some (Number H
              ((if isNegative this (c :: s) then [HYPHEN] else [])
               ++ onlyDigits this m1 ++ [PERIOD]
               ++ onlyDigits this (match m2 with Some f => f | None => [] end))))
       else Normal None
   | None => Normal None
   end).
Proof. reflexivity. Qed.

Lemma fraction_pattern_escaped :
  escapes escapeRegExp ->
  (if truthy (decimalSymbol this)
   then dec <- escapeRegExp (decimalSymbol this) ;; Normal (Some dec)
   else Normal None) = Normal (fraction_pattern this).
Proof.
  intros Hesc. unfold fraction_pattern.
  destruct (decimalSymbol this) as [[|d0 d]|]; cbn [truthy]; try reflexivity.
  now rewrite Hesc.
Qed.

(** Without a grouping symbol [stripGroupingSeparator] hands [undefined] to
    [escapeRegExp]: when that raises, [parse] raises on every non-empty text. *)
Lemma parse_throws_without_groupingSymbol (c : char) (s : jsstring) (e : exn) :
  groupingSymbol this = None ->
  escapeRegExp None = Throw e ->
  exists e', parse H escapeRegExp this (Some (c :: s)) = Throw e'.
Proof.
  intros Hg He. rewrite parse_steps. unfold stripGroupingSeparator. rewrite Hg, He.
  destruct (truthy (decimalSymbol this)); cbn [bind].
  - destruct (escapeRegExp (decimalSymbol this)); cbn [bind]; eauto.
  - eauto.
Qed.

(** With a grouping symbol and an [escapeRegExp] that escapes, [parse]
    returns: a number or null. *)
Lemma parse_returns (str : option jsstring) (g : jsstring) :
  groupingSymbol this = Some g ->
  escapes escapeRegExp ->
  returns (parse H escapeRegExp this str).
Proof.
  intros Hg Hesc. destruct str as [[|c s]|]; try (eexists; reflexivity).
  rewrite parse_steps. unfold stripGroupingSeparator. rewrite Hg, Hesc. cbn [bind].
  assert (F : exists fraction,
             (if truthy (decimalSymbol this)
              then dec <- escapeRegExp (decimalSymbol this) ;; Normal (Some dec)
              else Normal None) = Normal fraction).
  { destruct (decimalSymbol this) as [d|]; cbn [truthy].
    - destruct d; [eexists; reflexivity|]. rewrite Hesc. eexists; reflexivity.
    - eexists; reflexivity. }
  destruct F as [fraction ->]. cbn [bind].
  destruct (exec_number fraction _) as [[m1 m2]|]; [|eexists; reflexivity].
  destruct (isValidIntegerFormat _ _ _ _); eexists; reflexivity.
Qed.

End ParseFacts.

(** ** parse and exceptions *)

(** C3, at a profile without grouping symbol.  For every host and profile
    whose [groupingSymbol] is absent and every [escapeRegExp] that raises on
    [undefined], [parse] raises on every non-empty text: it does not return
    null. *)
Theorem parse_raises_without_grouping (H : Host)
  (escapeRegExp : option jsstring -> completion jsstring) (this : NumberFormat)
  (c : char) (s : jsstring) (e : exn) :
  groupingSymbol this = None ->
  escapeRegExp None = Throw e ->
  ~ returns (parse H escapeRegExp this (Some (c :: s))).
Proof.
  intros Hg He [r Hr].
  destruct (parse_throws_without_groupingSymbol H escapeRegExp this c s e Hg He) as [e' He'].
  congruence.
Qed.

(** The POSIX profile of American English (no grouping) on the text [1]. *)
Lemma parse_raises_without_grouping_witness :
  parse posix_host utils_escapeRegExp posix_Decimal (Some (u "1")) = Throw TypeError
  /\ ~ returns (parse posix_host utils_escapeRegExp posix_Decimal (Some (u "1"))).
Proof.
  split; [reflexivity|].
  exact (parse_raises_without_grouping posix_host utils_escapeRegExp posix_Decimal
           49%N [] TypeError eq_refl eq_refl).
Defined.

(** The same text in the [en] profile, which has a grouping symbol. *)
Example parse_en_returns :
  parse en_host utils_escapeRegExp en_Decimal (Some (u "1")) = Normal (Some (Table.Finite false 1 0)).
Proof. reflexivity. Qed.

(** ** The number pattern *)

Lemma digit_run_firstn (s : jsstring) (k : nat) :
  k <= digit_run s -> forallb is_digit (firstn k s) = true.
Proof.
  revert k; induction s as [|c s IH]; intros [|k] Hk; simpl in *; try reflexivity; try lia.
  destruct (is_digit c) eqn:E; [|lia]. simpl. apply IH. lia.
Qed.

Lemma exec_fraction_Some (dec : option jsstring) (rest : jsstring) (m2 : option jsstring) :
  exec_fraction dec rest = Some m2 ->
  match m2 with
  | Some f => exists d, dec = Some d /\ rest = d ++ f /\ forallb is_digit f = true
  | None => rest = []
  end.
Proof.
  unfold exec_fraction. destruct dec as [d|].
  - destruct (startsWith rest d && forallb is_digit (skipn (length d) rest)) eqn:E.
    + intros [= <-]. apply andb_true_iff in E as [Hs Hd].
      apply startsWith_prefix in Hs as [r ->]. rewrite skipn_length_app in *.
      exists d. auto.
    + destruct rest; [intros [= <-]; reflexivity | discriminate].
  - destruct rest; [intros [= <-]; reflexivity | discriminate].
Qed.

Lemma exec_runs_Some (dec : option jsstring) (c : char) (s' : jsstring) (k : nat)
  (m1 : jsstring) (m2 : option jsstring) :
  exec_runs dec c s' k = Some (m1, m2) ->
  exists j, j <= k /\ m1 = c :: firstn j s' /\ exec_fraction dec (skipn j s') = Some m2.
Proof.
  induction k as [|k IH]; cbn [exec_runs].
  - destruct (exec_fraction dec (skipn 0 s')) eqn:E; [|discriminate].
    intros [= <- <-]. exists 0. auto.
  - destruct (exec_fraction dec (skipn (S k) s')) eqn:E.
    + intros [= <- <-]. exists (S k). auto.
    + intros Hr. destruct (IH Hr) as [j [Hj Hrest]]. exists j. split; [lia | exact Hrest].
Qed.

(** A match of the number pattern: [match[1]] is a non-empty run of ASCII
    digits, [match[2]] a run of ASCII digits after the decimal symbol, and the
    text is made of them. *)
Lemma exec_number_Some (dec : option jsstring) (str m1 : jsstring) (m2 : option jsstring) :
  exec_number dec str = Some (m1, m2) ->
  m1 <> [] /\ forallb is_digit m1 = true
  /\ match m2 with
     | Some f => exists d, dec = Some d /\ str = m1 ++ d ++ f /\ forallb is_digit f = true
     | None => str = m1
     end.
Proof.
  unfold exec_number. destruct str as [|c s']; [discriminate|].
  destruct (N.eqb c ZERO) eqn:Ez.
  - destruct (exec_fraction dec s') as [m|] eqn:E; [|discriminate].
    intros [= <- <-]. apply N.eqb_eq in Ez. subst c.
    split; [discriminate|]. split; [reflexivity|].
    apply exec_fraction_Some in E. destruct m as [f|].
    + destruct E as [d [-> [-> Hf]]]. exists d. auto.
    + now subst.
  - destruct (is_digit c) eqn:Ed; [|discriminate].
    intros Hr. apply exec_runs_Some in Hr as [j [Hj [-> E]]].
    split; [discriminate|]. split.
    + simpl. rewrite Ed. now apply digit_run_firstn.
    + apply exec_fraction_Some in E. destruct m2 as [f|].
      * destruct E as [d [-> [E Hf]]]. exists d. repeat split; auto.
        simpl. f_equal. rewrite <- E. symmetry. apply firstn_skipn.
      * simpl. f_equal. rewrite <- (firstn_skipn j s') at 1. rewrite E. apply app_nil_r.
Qed.

(** ** Global replacement *)

Lemma In_firstn {A} (x : A) (k : nat) (l : list A) : In x (firstn k l) -> In x l.
Proof.
  revert l; induction k as [|k IH]; intros [|y l]; simpl; try tauto.
  intros [->|Hx]; auto.
Qed.



(** A pattern with a code unit that is not an ASCII digit does not occur in a
    run of ASCII digits. *)
Lemma startsWith_digits_foreign (str glyph : jsstring) :
  forallb is_digit str = true ->
  (exists c, In c glyph /\ is_digit c = false) ->
  startsWith str glyph = false.
Proof.
  intros Hd [c [Hc Hn]]. destruct (startsWith str glyph) eqn:E; [|reflexivity].
  apply startsWith_prefix in E as [rest ->]. rewrite forallb_app in Hd.
  apply andb_true_iff in Hd as [Hd _]. rewrite forallb_forall in Hd.
  specialize (Hd c Hc). congruence.
Qed.

Lemma replace_g_digits_foreign (str glyph rep : jsstring) :
  forallb is_digit str = true ->
  (exists c, In c glyph /\ is_digit c = false) ->
  replace_g str glyph rep = str.
Proof.
  intros Hd Hg. destruct glyph as [|g0 g']; [destruct Hg as [c [[] _]]|].
  cbn [replace_g]. induction str as [|c0 str IH]; [reflexivity|].
  cbn [replace_g_from]. rewrite (startsWith_digits_foreign _ _ Hd Hg).
  simpl in Hd. apply andb_true_iff in Hd as [_ Hd]. now rewrite IH.
Qed.

Lemma filter_digits_id (str : jsstring) :
  forallb is_digit str = true -> filter is_digit str = str.
Proof.
  induction str as [|c str IH]; simpl; [reflexivity|].
  intros Hd. apply andb_true_iff in Hd as [-> Hd]. now rewrite IH.
Qed.

Lemma filter_digits_all (str : jsstring) : forallb is_digit (filter is_digit str) = true.
Proof.
  induction str as [|c str IH]; simpl; [reflexivity|].
  destruct (is_digit c) eqn:E; simpl; [now rewrite E|assumption].
Qed.


Section Finiteness.

Variable this : NumberFormat.

Lemma normalizeDigits_digits (m : jsstring) :
  glyphs_foreign this -> forallb is_digit m = true -> normalizeDigits this m = m.
Proof.
  intros [Hz|Hf] Hm; unfold normalizeDigits.
  - rewrite Hz. now rewrite jseqb_refl.
  - destruct (jseqb _ _); [reflexivity|].
    generalize 0 as index. induction Hf as [|glyph ds Hg _ IH]; intros index; [reflexivity|].
    cbn [normalizeDigits_from]. rewrite (replace_g_digits_foreign _ _ _ Hm Hg). apply IH.
Qed.

Lemma onlyDigits_digits (m : jsstring) :
  glyphs_foreign this -> forallb is_digit m = true -> onlyDigits this m = m.
Proof.
  intros Hg Hm. unfold onlyDigits. rewrite (normalizeDigits_digits m Hg Hm).
  now apply filter_digits_id.
Qed.

Lemma onlyDigits_all (m : jsstring) : forallb is_digit (onlyDigits this m) = true.
Proof. apply filter_digits_all. Qed.



End Finiteness.

(** ** Parsed numbers are finite *)



(** *** The table hosts meet the two conditions *)

Lemma digits_value_from (s : jsstring) (acc : N) :
  fold_left (fun acc c => (acc * 10 + (c - ZERO))%N) s acc
  = (acc * 10 ^ N.of_nat (length s) + Table.digits_value s)%N.
Proof.
  unfold Table.digits_value. revert acc; induction s as [|c s IH]; intros acc.
  - simpl. lia.
  - cbn [fold_left length]. rewrite IH, (IH (0 * 10 + (c - ZERO))%N).
    rewrite Nat2N.inj_succ, N.pow_succ_r'. lia.
Qed.

Lemma digits_value_app (a b : jsstring) :
  Table.digits_value (a ++ b)
  = (Table.digits_value a * 10 ^ N.of_nat (length b) + Table.digits_value b)%N.
Proof.
  unfold Table.digits_value at 1. rewrite fold_left_app. fold (Table.digits_value a).
  apply digits_value_from.
Qed.

Lemma is_digit_range (c : char) : is_digit c = true <-> (48 <= c <= 57)%N.
Proof.
  unfold is_digit, ZERO, NINE. rewrite andb_true_iff, !N.leb_le. tauto.
Qed.

Lemma digits_value_bound (s : jsstring) :
  forallb is_digit s = true -> (Table.digits_value s < 10 ^ N.of_nat (length s))%N.
Proof.
  induction s as [|c s IH] using rev_ind; intros Hd.
  - reflexivity.
  - rewrite forallb_app in Hd. apply andb_true_iff in Hd as [Hs Hc].
    simpl in Hc. rewrite andb_true_r in Hc. apply is_digit_range in Hc.
    rewrite digits_value_app, length_app. cbn [length].
    replace (N.of_nat (length s + 1)) with (N.succ (N.of_nat (length s))) by lia.
    rewrite N.pow_succ_r'. specialize (IH Hs).
    assert (E : Table.digits_value [c] = (c - 48)%N) by reflexivity.
    rewrite E. change (N.of_nat 1) with 1%N. rewrite N.pow_1_r.
    set (X := (10 ^ N.of_nat (length s))%N) in *. lia.
Qed.

Lemma search_unit (p : char) (d f : jsstring) :
  forallb (fun c => negb (N.eqb p c)) d = true ->
  search [p] (d ++ p :: f) = Some (d, f).
Proof.
  induction d as [|c d IH]; intros Hd.
  - simpl. now rewrite N.eqb_refl.
  - simpl in Hd. apply andb_true_iff in Hd as [Hc Hd]. apply negb_true_iff in Hc.
    cbn [app search startsWith]. rewrite Hc. cbn [andb]. now rewrite (IH Hd).
Qed.

Lemma search_unit_absent (p : char) (d : jsstring) :
  forallb (fun c => negb (N.eqb p c)) d = true -> search [p] d = None.
Proof.
  induction d as [|c d IH]; intros Hd; [reflexivity|].
  simpl in Hd. apply andb_true_iff in Hd as [Hc Hd]. apply negb_true_iff in Hc.
  cbn [search startsWith]. rewrite Hc. cbn [andb]. now rewrite (IH Hd).
Qed.

Lemma digits_exclude (p : char) (d : jsstring) :
  is_digit p = false -> forallb is_digit d = true ->
  forallb (fun c => negb (N.eqb p c)) d = true.
Proof.
  intros Hp Hd. rewrite forallb_forall in *. intros c Hc. apply negb_true_iff.
  apply N.eqb_neq. intros ->. specialize (Hd c Hc). congruence.
Qed.

(** [Number] of the table hosts on the literals [parse] builds. *)
Lemma StringToNumber_literal (negative : bool) (d f : jsstring) :
  d <> [] -> forallb is_digit d = true -> forallb is_digit f = true ->
  Table.StringToNumber ((if negative then [HYPHEN] else []) ++ d ++ [PERIOD] ++ f)
  = if (Table.OVERFLOW * 10 ^ N.of_nat (length f) <=? Table.digits_value (d ++ f))%N
    then Table.Infinity negative
    else let '(m, k) := Table.trim (Table.digits_value (d ++ f)) (length f) 0 in
         Table.Finite negative m k.
Proof.
  intros Hne Hd Hf.
  assert (S : search [PERIOD] (d ++ [PERIOD] ++ f) = Some (d, f)).
  { apply search_unit. now apply digits_exclude. }
  unfold Table.StringToNumber. destruct negative; cbn [app].
  - rewrite N.eqb_refl. cbn [app] in S. rewrite S, Hd, Hf. cbn [andb].
    destruct d; [congruence|]. reflexivity.
  - destruct d as [|c d]; [congruence|]. cbn [app] in *.
    assert (Hc : N.eqb c HYPHEN = false).
    { simpl in Hd. apply andb_true_iff in Hd as [Hc _]. apply is_digit_range in Hc.
      apply N.eqb_neq. unfold HYPHEN. lia. }
    rewrite Hc, S, Hd, Hf. reflexivity.
Qed.

Lemma StringToNumber_digits (d : jsstring) :
  d <> [] -> forallb is_digit d = true ->
  Table.StringToNumber d
  = if (Table.OVERFLOW <=? Table.digits_value d)%N then Table.Infinity false
    else Table.Finite false (Table.digits_value d) 0.
Proof.
  intros Hne Hd. unfold Table.StringToNumber.
  destruct d as [|c d]; [congruence|].
  assert (Hc : N.eqb c HYPHEN = false).
  { simpl in Hd. apply andb_true_iff in Hd as [Hc _]. apply is_digit_range in Hc.
    apply N.eqb_neq. unfold HYPHEN. lia. }
  rewrite Hc. rewrite (search_unit_absent PERIOD (c :: d)) by now apply digits_exclude.
  rewrite Hd. cbn [forallb andb length]. rewrite app_nil_r.
  cbn [Nat.add Nat.eqb negb N.of_nat].
  change (10 ^ 0)%N with 1%N. rewrite N.mul_1_r. reflexivity.
Qed.




(** A run of digits beyond the range of doubles reads as an infinity, whose
    rendering is not the text: null. *)
Example parse_beyond_range :
  parse en_host utils_escapeRegExp en_Decimal (Some (u "1" ++ repeat ZERO 400)) = Normal None.
Proof. vm_compute. reflexivity. Qed.

(** ** Decimal digits *)

Lemma digits_value_cons (c : char) (s : jsstring) :
  Table.digits_value (c :: s)
  = ((c - ZERO) * 10 ^ N.of_nat (length s) + Table.digits_value s)%N.
Proof.
  change (c :: s) with ([c] ++ s). rewrite digits_value_app. reflexivity.
Qed.

(** Quotient and remainder by ten as unknowns, for [lia]. *)
Ltac div10 n :=
  let q := fresh "q" in
  let r := fresh "r" in
  pose proof (N.div_mod n 10 ltac:(discriminate));
  pose proof (N.mod_upper_bound n 10 ltac:(discriminate));
  set (q := (n / 10)%N) in *; set (r := (n mod 10)%N) in *;
  clearbody q r.

Lemma log2_div10 (n : N) :
  (n / 10 <> 0)%N -> (N.log2 (n / 10) < N.log2 n)%N.
Proof.
  intros Hq.
  assert (Hn : (0 < n)%N).
  { destruct (N.eq_dec n 0) as [->|]; [now rewrite N.Div0.div_0_l in Hq | lia]. }
  apply N.log2_lt_pow2; [now apply N.neq_0_lt_0|].
  pose proof (N.log2_spec n Hn) as [_ Hhi]. rewrite N.pow_succ_r' in Hhi.
  set (X := (2 ^ N.log2 n)%N) in *. clearbody X. div10 n. lia.
Qed.

Lemma digit_of_small (n : N) :
  (n < 10)%N ->
  forallb is_digit [(ZERO + n)%N] = true
  /\ Table.digits_value [(ZERO + n)%N] = n
  /\ ((n = 0%N /\ (ZERO + n)%N = ZERO /\ @nil char = []) \/ (n <> 0%N /\ (ZERO + n)%N <> ZERO)).
Proof.
  intros Hn. split; [|split].
  - cbn [forallb]. rewrite andb_true_r. apply is_digit_range. unfold ZERO. lia.
  - unfold Table.digits_value. cbn [fold_left]. unfold ZERO. lia.
  - destruct (N.eq_dec n 0) as [->|Hz];
      [left; repeat split; reflexivity | right; split; [assumption | unfold ZERO; lia]].
Qed.

Lemma div10_zero (n : N) : (n / 10 = 0)%N -> (n < 10)%N /\ (n mod 10 = n)%N.
Proof. intros E. div10 n. lia. Qed.

Lemma to_digits_S (f : nat) (n : N) (acc : jsstring) :
  to_digits (S f) n acc
  = if N.eqb (n / 10) 0 then (ZERO + n mod 10)%N :: acc
    else to_digits f (n / 10)%N ((ZERO + n mod 10)%N :: acc).
Proof. reflexivity. Qed.

(** The digits [to_digits] puts before its accumulator: ASCII digits whose
    value is [n], a single zero for 0 and no leading zero otherwise. *)
Lemma to_digits_spec (f : nat) :
  forall (n : N) (acc : jsstring),
    N.to_nat (N.log2 n) <= f ->
    exists c ds,
      to_digits (S f) n acc = (c :: ds) ++ acc
      /\ forallb is_digit (c :: ds) = true
      /\ Table.digits_value (c :: ds) = n
      /\ ((n = 0%N /\ c = ZERO /\ ds = []) \/ (n <> 0%N /\ c <> ZERO)).
Proof.
  induction f as [|f IH]; intros n acc Hlog; rewrite to_digits_S;
    destruct (N.eqb (n / 10) 0) eqn:E.
  - apply N.eqb_eq, div10_zero in E as [Hn ->].
    exists (ZERO + n)%N, []. split; [reflexivity | now apply digit_of_small].
  - apply N.eqb_neq in E. exfalso.
    assert (L : N.log2 n = 0%N) by lia. apply N.log2_null in L.
    apply E. apply N.div_small. lia.
  - apply N.eqb_eq, div10_zero in E as [Hn ->].
    exists (ZERO + n)%N, []. split; [reflexivity | now apply digit_of_small].
  - apply N.eqb_neq in E. pose proof (log2_div10 n E) as Hl.
    destruct (IH (n / 10)%N ((ZERO + n mod 10)%N :: acc)) as [c [ds [Eq [Hd [Hv Hh]]]]]; [lia|].
    pose proof (N.mod_upper_bound n 10 ltac:(discriminate)) as Hr.
    destruct (digit_of_small (n mod 10) Hr) as [Hrd [Hrv _]].
    exists c, (ds ++ [(ZERO + n mod 10)%N]). split; [|split; [|split]].
    + rewrite Eq. cbn [app]. now rewrite <- app_assoc.
    + change (c :: ds ++ [(ZERO + n mod 10)%N]) with ((c :: ds) ++ [(ZERO + n mod 10)%N]).
      now rewrite forallb_app, Hd, Hrd.
    + change (c :: ds ++ [(ZERO + n mod 10)%N]) with ((c :: ds) ++ [(ZERO + n mod 10)%N]).
      rewrite digits_value_app, Hv, Hrv. cbn [length].
      change (10 ^ N.of_nat 1)%N with 10%N. clear - n. div10 n. lia.
    + right. split.
      * intros ->. now rewrite N.Div0.div_0_l in E.
      * destruct Hh as [[Hz _]|[_ Hc]]; [contradiction | assumption].
Qed.

Lemma decimal_digits_spec (n : N) :
  exists c ds,
    decimal_digits n = c :: ds
    /\ forallb is_digit (c :: ds) = true
    /\ Table.digits_value (c :: ds) = n
    /\ ((n = 0%N /\ c = ZERO /\ ds = []) \/ (n <> 0%N /\ c <> ZERO)).
Proof.
  destruct (to_digits_spec (N.to_nat (N.log2 n)) n [] (Nat.le_refl _))
    as [c [ds [E Hrest]]].
  exists c, ds. split; [|exact Hrest]. unfold decimal_digits. rewrite E. apply app_nil_r.
Qed.

Lemma decimal_digits_digits (n : N) : forallb is_digit (decimal_digits n) = true.
Proof. destruct (decimal_digits_spec n) as [c [ds [-> [Hd _]]]]. exact Hd. Qed.

Lemma decimal_digits_value (n : N) : Table.digits_value (decimal_digits n) = n.
Proof. destruct (decimal_digits_spec n) as [c [ds [-> [_ [Hv _]]]]]. exact Hv. Qed.

Lemma decimal_digits_nonempty (n : N) : decimal_digits n <> [].
Proof. destruct (decimal_digits_spec n) as [c [ds [-> _]]]. discriminate. Qed.

(** A digit string without leading zero is at least a power of ten. *)
Lemma digits_value_lower (c : char) (ds : jsstring) :
  is_digit c = true -> c <> ZERO ->
  (10 ^ N.of_nat (length ds) <= Table.digits_value (c :: ds))%N.
Proof.
  intros Hc Hz. rewrite digits_value_cons. apply is_digit_range in Hc. unfold ZERO in *.
  assert (1 <= c - 48)%N by lia. nia.
Qed.

Lemma decimal_digits_length (n : N) (k : nat) :
  (n < 10 ^ N.of_nat k)%N -> 0 < k -> length (decimal_digits n) <= k.
Proof.
  intros Hn Hk. destruct (decimal_digits_spec n) as [c [ds [-> [Hd [Hv Hh]]]]].
  destruct Hh as [[_ [_ ->]]|[_ Hc]]; [simpl; lia|].
  simpl in Hd. apply andb_true_iff in Hd as [Hdc _].
  pose proof (digits_value_lower c ds Hdc Hc) as Hl. rewrite Hv in Hl.
  destruct (Nat.le_gt_cases (length (c :: ds)) k) as [|Hgt]; [assumption|exfalso].
  cbn [length] in Hgt.
  assert (P : (10 ^ N.of_nat k <= 10 ^ N.of_nat (length ds))%N)
    by (apply N.pow_le_mono_r; lia).
  lia.
Qed.

Lemma digits_value_zeros (j : nat) (s : jsstring) :
  Table.digits_value (repeat ZERO j ++ s) = Table.digits_value s.
Proof.
  induction j as [|j IH]; [reflexivity|].
  cbn [repeat app]. rewrite digits_value_cons, IH. unfold ZERO. lia.
Qed.

(** The fraction digits of the rendering: [k] digits whose value is [r]. *)
Lemma pad_left_spec (k : nat) (r : N) :
  (r < 10 ^ N.of_nat k)%N -> 0 < k ->
  length (Table.pad_left k (decimal_digits r)) = k
  /\ forallb is_digit (Table.pad_left k (decimal_digits r)) = true
  /\ Table.digits_value (Table.pad_left k (decimal_digits r)) = r.
Proof.
  intros Hr Hk. unfold Table.pad_left.
  pose proof (decimal_digits_length r k Hr Hk) as Hl. split; [|split].
  - rewrite length_app, repeat_length. lia.
  - rewrite forallb_app, decimal_digits_digits, andb_true_r.
    apply forallb_forall. intros c Hc. apply repeat_spec in Hc. now subst.
  - rewrite digits_value_zeros. apply decimal_digits_value.
Qed.

(** ** Texts of the table hosts *)

Lemma trim_canonical (m : N) (k : nat) :
  k = 0 \/ (m mod 10 <> 0)%N -> Table.trim m k 0 = (m, k).
Proof.
  intros [-> | Hm]; [reflexivity|]. destruct k as [|k]; [reflexivity|].
  cbn [Table.trim]. apply N.eqb_neq in Hm. rewrite Hm. now rewrite andb_false_r.
Qed.

Lemma int_parts_text (ld : Table.LocaleData) (d chunk : jsstring) :
  join (map value (Table.int_parts ld chunk d)) = chunk ++ grouped (Table.group ld) d.
Proof.
  unfold join. revert chunk; induction d as [|c d IH]; intros chunk.
  - simpl. reflexivity.
  - cbn [Table.int_parts grouped].
    destruct ((0 <? length d)%nat && (length d mod 3 =? 0)%nat).
    + cbn [map concat value]. rewrite IH. cbn [app].
      rewrite <- !app_assoc. reflexivity.
    + rewrite IH. now rewrite <- app_assoc.
Qed.


Lemma replace_g_single (str : jsstring) (g : char) :
  replace_g str [g] [] = filter (fun c => negb (N.eqb g c)) str.
Proof.
  cbn [replace_g]. induction str as [|c str IH]; [reflexivity|].
  cbn [replace_g_from startsWith filter length Nat.sub app]. rewrite andb_true_r.
  destruct (N.eqb g c); cbn [negb]; now rewrite IH.
Qed.

Lemma filter_keeps (str : jsstring) (g : char) :
  forallb (fun c => negb (N.eqb g c)) str = true ->
  filter (fun c => negb (N.eqb g c)) str = str.
Proof.
  induction str as [|c str IH]; [reflexivity|]. cbn [forallb filter].
  intros Hd. apply andb_true_iff in Hd as [-> Hd]. now rewrite IH.
Qed.

Lemma filter_grouped (g : char) (d : jsstring) :
  forallb (fun c => negb (N.eqb g c)) d = true ->
  filter (fun c => negb (N.eqb g c)) (grouped [g] d) = d.
Proof.
  induction d as [|c d IH]; [reflexivity|]. cbn [forallb grouped filter].
  intros Hd. apply andb_true_iff in Hd as [-> Hd]. f_equal.
  destruct ((0 <? length d)%nat && (length d mod 3 =? 0)%nat); [|now apply IH].
  cbn [app filter]. rewrite N.eqb_refl. cbn [negb]. now apply IH.
Qed.

Lemma grouped_excludes (p g : char) (d : jsstring) :
  N.eqb p g = false ->
  forallb (fun c => negb (N.eqb p c)) d = true ->
  forallb (fun c => negb (N.eqb p c)) (grouped [g] d) = true.
Proof.
  intros Hp. induction d as [|c d IH]; [reflexivity|]. cbn [forallb grouped].
  intros Hd. apply andb_true_iff in Hd as [-> Hd]. cbn [andb].
  destruct ((0 <? length d)%nat && (length d mod 3 =? 0)%nat); [|now apply IH].
  cbn [app forallb]. rewrite Hp. cbn [negb andb]. now apply IH.
Qed.

Lemma grouped_head (g : jsstring) (c : char) (d : jsstring) :
  exists rest, grouped g (c :: d) = c :: rest.
Proof. cbn [grouped]. eexists. reflexivity. Qed.


(** ** Acceptance by [parse], in general *)

Section Acceptance.

Variable H : Host.
Variable escapeRegExp : option jsstring -> completion jsstring.
Variable this : NumberFormat.

(** [parse] returns a number exactly when the text, its affixes and grouping
    symbols removed, matches the number pattern and its integer text is the
    grouped or the ungrouped rendering of the integer read; the number is the
    one read from the sign and the digits. *)
Lemma parse_accepts_iff (c : char) (s g : jsstring) (n : number H) :
  groupingSymbol this = Some g ->
  escapes escapeRegExp ->
  parse H escapeRegExp this (Some (c :: s)) = Normal (Some n)
  <-> exists m1 m2,
        exec_number (fraction_pattern this)
          (replace_g (affix_stripped this (c :: s)) g []) = Some (m1, m2)
        /\ In (integer_portion this (affix_stripped this (c :: s)))
              (renderings H this (Number H m1))
        /\ n = Number H
                 ((if isNegative this (c :: s) then [HYPHEN] else [])
                  ++ onlyDigits this m1 ++ [PERIOD]
                  ++ onlyDigits this (match m2 with Some f => f | None => [] end)).
Proof.
  intros Hg Hesc. rewrite parse_steps, (fraction_pattern_escaped escapeRegExp this Hesc).
  unfold stripGroupingSeparator. rewrite Hg, Hesc. cbn [bind].
  destruct (exec_number (fraction_pattern this) _) as [[m1 m2]|].
  - destruct (isValidIntegerFormat H this _ (Number H m1)) eqn:V.
    + apply isValidIntegerFormat_renderings in V. split.
      * intros [= <-]. exists m1, m2. auto.
      * intros [m1' [m2' [[= <- <-] [_ ->]]]]. reflexivity.
    + split; [discriminate|]. intros [m1' [m2' [[= <- <-] [Hin _]]]].
      apply isValidIntegerFormat_renderings in Hin. congruence.
  - split; [discriminate|]. intros [m1' [m2' [E _]]]. discriminate.
Qed.

(** Otherwise it returns null. *)
Lemma parse_rejects (c : char) (s g : jsstring) :
  groupingSymbol this = Some g ->
  escapes escapeRegExp ->
  (forall m1 m2,
     exec_number (fraction_pattern this)
       (replace_g (affix_stripped this (c :: s)) g []) = Some (m1, m2) ->
     ~ In (integer_portion this (affix_stripped this (c :: s)))
          (renderings H this (Number H m1))) ->
  parse H escapeRegExp this (Some (c :: s)) = Normal None.
Proof.
  intros Hg Hesc Hwrong.
  destruct (parse_returns H escapeRegExp this (Some (c :: s)) g Hg Hesc) as [[n|] Hr];
    [|exact Hr].
  exfalso. apply (parse_accepts_iff c s g n Hg Hesc) in Hr as [m1 [m2 [Em [Hin _]]]].
  exact (Hwrong m1 m2 Em Hin).
Qed.

End Acceptance.

(** ** The number pattern on canonical digits *)

Lemma utils_escapeRegExp_escapes : escapes utils_escapeRegExp.
Proof. intros s. reflexivity. Qed.

Lemma exec_runs_eq (dec : option jsstring) (c : char) (s' : jsstring) (k : nat) :
  exec_runs dec c s' k
  = match exec_fraction dec (skipn k s') with
    | Some m2 => Some (c :: firstn k s', m2)
    | None => match k with O => None | S k' => exec_runs dec c s' k' end
    end.
Proof. destruct k; reflexivity. Qed.

Lemma digit_run_app (ds rest : jsstring) :
  forallb is_digit ds = true ->
  match rest with [] => True | p :: _ => is_digit p = false end ->
  digit_run (ds ++ rest) = length ds.
Proof.
  intros Hd Hr. induction ds as [|c ds IH].
  - destruct rest as [|p rest]; [reflexivity|]. cbn [app digit_run]. now rewrite Hr.
  - cbn [forallb] in Hd. apply andb_true_iff in Hd as [Hc Hd].
    cbn [app digit_run length]. rewrite Hc. now rewrite IH.
Qed.


Lemma pow10_split (m : N) (k : nat) :
  (m / 10 ^ N.of_nat k * 10 ^ N.of_nat k + m mod 10 ^ N.of_nat k = m)%N
  /\ (m mod 10 ^ N.of_nat k < 10 ^ N.of_nat k)%N
  /\ (m / 10 ^ N.of_nat k <= m)%N.
Proof.
  assert (P : (10 ^ N.of_nat k <> 0)%N) by (apply N.pow_nonzero; discriminate).
  pose proof (N.div_mod m _ P) as D. pose proof (N.mod_upper_bound m _ P) as U.
  set (X := (10 ^ N.of_nat k)%N) in *. set (Q := (m / X)%N) in *. set (R := (m mod X)%N) in *.
  assert (0 < X)%N by lia. clearbody X Q R. split; [lia|]. split; [lia|]. nia.
Qed.


(** ** Digit tables: renderings *)

Lemma trim_canonical_min (m : N) (k min : nat) :
  k = 0 \/ (m mod 10 <> 0)%N -> Table.trim m k min = (m, k).
Proof.
  intros [-> | Hm]; [reflexivity|]. destruct k as [|k]; [reflexivity|].
  cbn [Table.trim]. apply N.eqb_neq in Hm. rewrite Hm. now rewrite andb_false_r.
Qed.

Lemma localized_app (z : char) (a b : jsstring) :
  localized z (a ++ b) = localized z a ++ localized z b.
Proof. apply map_app. Qed.

Lemma localized_length (z : char) (s : jsstring) : length (localized z s) = length s.
Proof. apply length_map. Qed.

Lemma localized_cons (z c : char) (s : jsstring) :
  is_digit c = false -> localized z (c :: s) = c :: localized z s.
Proof. intros E. unfold localized. cbn [map]. now rewrite E. Qed.

Lemma localized_grouped (z g : char) (s : jsstring) :
  is_digit g = false -> localized z (grouped [g] s) = grouped [g] (localized z s).
Proof.
  intros Hg. induction s as [|c s IH]; [reflexivity|].
  change (localized z (c :: s)) with
    ((if is_digit c then (z + (c - ZERO))%N else c) :: localized z s).
  cbn [grouped]. rewrite localized_length.
  destruct (((0 <? length s) && (length s mod 3 =? 0))%bool).
  - change (localized z (c :: [g] ++ grouped [g] s)) with
      ((if is_digit c then (z + (c - ZERO))%N else c) :: localized z (g :: grouped [g] s)).
    rewrite (localized_cons z g _ Hg), IH. reflexivity.
  - change (localized z (c :: grouped [g] s)) with
      ((if is_digit c then (z + (c - ZERO))%N else c) :: localized z (grouped [g] s)).
    now rewrite IH.
Qed.

Lemma localized_latin (s : jsstring) : localized ZERO s = s.
Proof.
  unfold localized. induction s as [|c s IH]; [reflexivity|].
  cbn [map]. rewrite IH. f_equal. destruct (is_digit c) eqn:E; [|reflexivity].
  apply is_digit_range in E. unfold ZERO. lia.
Qed.

Section TableRendering.

Variables (z g d : char) (mn pc : jsstring) (knows : NumberFormatStyle.t -> bool).
Hypothesis Hg : is_digit g = false.
Hypothesis Hd : is_digit d = false.
Let ld := digit_table z g d mn pc knows.

(** The rendering of a finite number under a style other than percent. *)
Lemma table_rendering (o : NumberFormatOptions) (negative : bool) (m : N) (k mn_ mx_ : nat) :
  Table.style_of o <> NumberFormatStyle.Percent ->
  Table.fraction_digits o = (mn_, mx_) ->
  k <= mx_ -> (k = 0 \/ (m mod 10 <> 0)%N) ->
  join (map value (Table.parts ld o (Table.Finite negative m k)))
  = let '(m', kk) := if k <? mn_ then ((m * 10 ^ N.of_nat (mn_ - k))%N, mn_) else (m, k) in
    table_text z g d mn
      (host_prefix (Table.style_of o) (o_currency o))
      (host_suffix (Table.style_of o) (o_unit o))
      negative (m' / 10 ^ N.of_nat kk)
      (match kk with
       | O => None
       | S _ => Some (Table.pad_left kk (decimal_digits (m' mod 10 ^ N.of_nat kk)))
       end)
      (match o_useGrouping o with Some false => false | _ => true end).
Proof.
  intros Hs Hf Hk Hc. unfold Table.parts, Table.number_parts. rewrite Hf.
  unfold Table.round. replace (k <=? mx_) with true by (symmetry; now apply Nat.leb_le).
  assert (M : match Table.style_of o with
              | NumberFormatStyle.Percent => (m * 100)%N
              | _ => m
              end = m) by (destruct (Table.style_of o); congruence).
  rewrite M, (trim_canonical_min m k mn_ Hc).
  destruct (if k <? mn_ then ((m * 10 ^ N.of_nat (mn_ - k))%N, mn_) else (m, k))
    as [m' kk] eqn:E.
  change (Table.localize ld) with (localized z).
  unfold table_text, number_text, join.
  rewrite !map_app, !concat_app.
  set (I := decimal_digits (m' / 10 ^ N.of_nat kk)).
  set (F := Table.pad_left kk (decimal_digits (m' mod 10 ^ N.of_nat kk))).
  assert (P : concat (map value
                (match o_useGrouping o, Table.group ld with
                 | Some false, _ | _, [] => [{| type := PartType.integer; value := localized z I |}]
                 | _, _ :: _ => Table.int_parts ld [] (localized z I)
                 end))
              = localized z (if match o_useGrouping o with Some false => false | _ => true end
                             then grouped [g] I else I)).
  { unfold ld. cbn [Table.group digit_table].
    destruct (o_useGrouping o) as [[|]|]; rewrite ?(localized_grouped z g I Hg);
      try (apply (int_parts_text (digit_table z g d mn pc knows) _ [])). cbn. apply app_nil_r. }
  rewrite P. clear P. rewrite localized_app.
  set (INT := localized z (if match o_useGrouping o with Some false => false | _ => true end
                           then grouped [g] I else I)).
  assert (Q : localized z (d :: F) = d :: localized z F) by now apply localized_cons.
  clearbody INT. unfold ld. cbn [Table.is_negative Table.minus Table.decimal digit_table].
  unfold host_prefix, host_suffix.
  destruct negative; destruct kk; destruct (Table.style_of o); try congruence;
    rewrite ?Q; cbn; rewrite ?app_nil_r; reflexivity.
Qed.

End TableRendering.

(** ** Digit tables: searching texts *)

Lemma startsWith_head_absent (str pat : jsstring) (p0 : char) :
  forallb (fun c => negb (N.eqb p0 c)) str = true ->
  startsWith str (p0 :: pat) = false.
Proof.
  destruct str as [|c str]; [reflexivity|]. cbn [forallb startsWith].
  intros Hs. apply andb_true_iff in Hs as [Hc _]. apply negb_true_iff in Hc.
  now rewrite Hc.
Qed.

Lemma search_head_absent (str pat : jsstring) (p0 : char) :
  forallb (fun c => negb (N.eqb p0 c)) str = true ->
  search (p0 :: pat) str = None.
Proof.
  induction str as [|c str IH]; [reflexivity|]. intros Hs.
  cbn [search]. rewrite (startsWith_head_absent _ pat p0 Hs).
  cbn [forallb] in Hs. apply andb_true_iff in Hs as [_ Hs]. now rewrite (IH Hs).
Qed.

Lemma search_at_start (pat rest : jsstring) : search pat (pat ++ rest) = Some ([], rest).
Proof.
  destruct (pat ++ rest) as [|c s] eqn:E; cbn [search]; rewrite <- E;
    now rewrite startsWith_app, skipn_length_app.
Qed.

Lemma search_at_end (body pat : jsstring) (p0 : char) :
  forallb (fun c => negb (N.eqb p0 c)) body = true ->
  search (p0 :: pat) (body ++ p0 :: pat) = Some (body, []).
Proof.
  induction body as [|c body IH]; intros Hb.
  - cbn [app]. pose proof (search_at_start (p0 :: pat) []) as E.
    now rewrite app_nil_r in E.
  - cbn [forallb] in Hb. apply andb_true_iff in Hb as [Hc Hb]. apply negb_true_iff in Hc.
    cbn [app search startsWith]. rewrite Hc. cbn [andb]. now rewrite (IH Hb).
Qed.

Lemma replace_at_start (pat rest : jsstring) : replace (pat ++ rest) pat [] = rest.
Proof. unfold replace. now rewrite search_at_start. Qed.

Lemma replace_at_end (body pat : jsstring) (p0 : char) :
  forallb (fun c => negb (N.eqb p0 c)) body = true ->
  replace (body ++ p0 :: pat) (p0 :: pat) [] = body.
Proof.
  intros Hb. unfold replace. rewrite (search_at_end body pat p0 Hb).
  cbn [GetSubstitution app]. apply app_nil_r.
Qed.

Lemma replace_head_absent (str pat rep : jsstring) (p0 : char) :
  forallb (fun c => negb (N.eqb p0 c)) str = true ->
  replace str (p0 :: pat) rep = str.
Proof. intros Hs. apply replace_absent. now apply search_head_absent. Qed.

Lemma forallb_excludes_In (p : char) (s : jsstring) :
  ~ In p s -> forallb (fun c => negb (N.eqb p c)) s = true.
Proof.
  intros Hn. apply forallb_forall. intros c Hc. apply negb_true_iff, N.eqb_neq.
  intros <-. contradiction.
Qed.

Lemma grouped_body_excludes (p g d : char) (i : jsstring) (fr : option jsstring) (grouping : bool) :
  is_digit p = false -> p <> g -> p <> d ->
  forallb is_digit i = true ->
  (forall f, fr = Some f -> forallb is_digit f = true) ->
  forallb (fun c => negb (N.eqb p c))
    ((if grouping then grouped [g] i else i) ++ match fr with Some f => d :: f | None => [] end)
  = true.
Proof.
  intros Hp Hg Hd Hi Hf. rewrite forallb_app. apply andb_true_iff. split.
  - pose proof (digits_exclude p i Hp Hi) as E.
    destruct grouping; [|exact E]. apply grouped_excludes; [|exact E]. now apply N.eqb_neq.
  - destruct fr as [f|]; [|reflexivity]. cbn [forallb].
    apply andb_true_iff. split; [now apply negb_true_iff, N.eqb_neq|].
    apply digits_exclude; auto.
Qed.

(** ** Digit tables: glyphs and their normalisation *)

Lemma replace_g_unit (str : jsstring) (p r : char) :
  replace_g str [p] [r] = map (fun c => if N.eqb p c then r else c) str.
Proof.
  cbn [replace_g]. induction str as [|c str IH]; [reflexivity|].
  cbn [replace_g_from startsWith map length Nat.sub app]. rewrite andb_true_r.
  destruct (N.eqb p c); now rewrite IH.
Qed.

Lemma String_of_index_digit (i : nat) :
  i < 10 -> String_of_index i = [(ZERO + N.of_nat i)%N].
Proof. intros Hi. do 10 (destruct i as [|i]; [reflexivity|]). lia. Qed.

Lemma normalizeDigits_from_glyphs (z : char) (n : nat) :
  (128 <= z)%N ->
  forall (i : nat) (s : jsstring),
    i + n <= 10 ->
    normalizeDigits_from (map (fun j => [(z + N.of_nat j)%N]) (seq i n)) i s
    = map (fun c => if ((z + N.of_nat i <=? c) && (c <? z + N.of_nat (i + n)))%N
                    then (ZERO + (c - z))%N else c) s.
Proof.
  intros Hz. induction n as [|n IH]; intros i s Hi.
  - cbn [seq map normalizeDigits_from]. rewrite <- (map_id s) at 1. apply map_ext.
    intros c. rewrite Nat.add_0_r.
    destruct (z + N.of_nat i <=? c)%N eqn:A; [|reflexivity].
    destruct (c <? z + N.of_nat i)%N eqn:B; [|reflexivity].
    apply N.leb_le in A. apply N.ltb_lt in B. lia.
  - cbn [seq map normalizeDigits_from].
    rewrite (String_of_index_digit i) by lia. rewrite replace_g_unit.
    rewrite (IH (S i)) by lia. rewrite map_map. apply map_ext. intros c.
    replace (S i + n) with (i + S n) by lia.
    unfold ZERO in *.
    destruct (N.eqb (z + N.of_nat i) c) eqn:E.
    + apply N.eqb_eq in E. subst c.
      replace (z + N.of_nat (S i) <=? 48 + N.of_nat i)%N with false
        by (symmetry; apply N.leb_gt; lia).
      replace (z + N.of_nat i <=? z + N.of_nat i)%N with true
        by (symmetry; apply N.leb_le; lia).
      replace (z + N.of_nat i <? z + N.of_nat (i + S n))%N with true
        by (symmetry; apply N.ltb_lt; lia).
      cbn [andb]. f_equal. lia.
    + apply N.eqb_neq in E.
      destruct (z + N.of_nat (S i) <=? c)%N eqn:A; destruct (z + N.of_nat i <=? c)%N eqn:B;
        try reflexivity; exfalso.
      * apply N.leb_le in A. apply N.leb_gt in B. lia.
      * apply N.leb_gt in A. apply N.leb_le in B. lia.
Qed.

Lemma is_glyph_latin (c : char) : is_glyph ZERO c = is_digit c.
Proof. reflexivity. Qed.

Lemma unglyph_latin (s : jsstring) : map (unglyph ZERO) s = s.
Proof.
  rewrite <- (map_id s) at 2. apply map_ext. intros c. unfold unglyph.
  rewrite is_glyph_latin. destruct (is_digit c) eqn:E; [|reflexivity].
  apply is_digit_range in E. unfold ZERO. lia.
Qed.

(** [normalizeDigits] maps every glyph of the table to its ASCII digit and
    keeps the other code units. *)
Lemma normalizeDigits_glyphs (this : NumberFormat) (z : char) (s : jsstring) :
  digits this = glyphs z -> z = ZERO \/ (128 <= z)%N ->
  normalizeDigits this s = map (unglyph z) s.
Proof.
  intros Hd [-> | Hz]; unfold normalizeDigits; rewrite Hd.
  - now rewrite unglyph_latin.
  - replace (jseqb (ToString (nth_error (glyphs z) 0)) [ZERO]) with false.
    + unfold glyphs. rewrite (normalizeDigits_from_glyphs z 10 Hz 0 s) by lia.
      apply map_ext. intros c. unfold unglyph, is_glyph.
      change (N.of_nat 0) with 0%N. change (N.of_nat (0 + 10)) with 10%N.
      rewrite N.add_0_r.
      replace (c <? z + 10)%N with (c <=? z + 9)%N; [reflexivity|].
      destruct (c <=? z + 9)%N eqn:A; symmetry.
      * apply N.leb_le in A. apply N.ltb_lt. lia.
      * apply N.leb_gt in A. apply N.ltb_ge. lia.
    + symmetry. destruct (jseqb (ToString (nth_error (glyphs z) 0)) [ZERO]) eqn:E;
        [|reflexivity].
      apply jseqb_eq in E. cbn in E. injection E as E. unfold ZERO in E. lia.
Qed.

Lemma unglyph_keeps (z : char) (s : jsstring) :
  (forall c, In c s -> is_glyph z c = false) -> map (unglyph z) s = s.
Proof.
  intros Hs. rewrite <- (map_id s) at 2. apply map_ext_in. intros c Hc.
  unfold unglyph. now rewrite (Hs c Hc).
Qed.

(** Normalising the glyphs of a localised text gives the text back, when its
    other code units are no glyphs. *)
Lemma unglyph_localized (z : char) (s : jsstring) :
  (128 <= z)%N ->
  (forall c, In c s -> is_digit c = true \/ is_glyph z c = false) ->
  map (unglyph z) (localized z s) = s.
Proof.
  intros Hz Hs. unfold localized. rewrite map_map. rewrite <- (map_id s) at 2.
  apply map_ext_in. intros c Hc. unfold unglyph.
  destruct (is_digit c) eqn:E.
  - apply is_digit_range in E. unfold is_glyph, ZERO.
    replace (z <=? z + (c - 48))%N with true by (symmetry; apply N.leb_le; lia).
    replace (z + (c - 48) <=? z + 9)%N with true by (symmetry; apply N.leb_le; lia).
    cbn [andb]. lia.
  - destruct (Hs c Hc) as [F | ->]; [congruence | reflexivity].
Qed.

(** A code unit that is neither a digit nor a glyph and is absent from a text
    is absent from its localised form. *)
Lemma localized_excludes (z p : char) (s : jsstring) :
  is_digit p = false -> is_glyph z p = false ->
  forallb (fun c => negb (N.eqb p c)) s = true ->
  forallb (fun c => negb (N.eqb p c)) (localized z s) = true.
Proof.
  intros Hp Hg Hs. unfold localized. rewrite forallb_forall in *.
  intros x Hx. apply in_map_iff in Hx as [c [<- Hc]]. specialize (Hs c Hc).
  destruct (is_digit c) eqn:E; [|exact Hs].
  apply negb_true_iff, N.eqb_neq. intros ->.
  apply is_digit_range in E. unfold is_glyph, ZERO in Hg.
  apply andb_false_iff in Hg as [Hg|Hg]; apply N.leb_gt in Hg; lia.
Qed.

Lemma plain_text_units (g d : char) (b : jsstring) (c : char) :
  plain_text g d b -> In c b -> is_digit c = true \/ c = g \/ c = d.
Proof.
  intros Hb Hc. destruct (is_digit c) eqn:E; [now left | right].
  destruct (N.eq_dec c g) as [|Ng]; [now left | right].
  destruct (N.eq_dec c d) as [|Nd]; [assumption | exfalso].
  pose proof (Hb c E Ng Nd) as F. rewrite forallb_forall in F. specialize (F c Hc).
  now rewrite N.eqb_refl in F.
Qed.

Lemma glyphs_are_foreign (this : NumberFormat) (z : char) :
  digits this = glyphs z -> z = ZERO \/ (128 <= z)%N -> glyphs_foreign this.
Proof.
  intros Hd [-> | Hz]; [left; now rewrite Hd|]. right. rewrite Hd. unfold glyphs.
  apply Forall_forall. intros glyph Hin. apply in_map_iff in Hin as [i [<- _]].
  exists (z + N.of_nat i)%N. split; [now left|].
  destruct (is_digit (z + N.of_nat i)) eqn:E; [|reflexivity].
  apply is_digit_range in E. lia.
Qed.

Lemma exec_fraction_digits (dec : option jsstring) (d : char) (fr : option jsstring) :
  dec = Some [d] \/ (dec = None /\ fr = None) ->
  (forall f, fr = Some f -> forallb is_digit f = true) ->
  exec_fraction dec (match fr with Some f => d :: f | None => [] end) = Some fr.
Proof.
  intros [-> | [-> ->]] Hf; [|reflexivity].
  destruct fr as [f|]; [|reflexivity].
  unfold exec_fraction. cbn [startsWith length skipn].
  rewrite N.eqb_refl, (Hf f eq_refl). reflexivity.
Qed.

(** The number pattern on a canonical integer followed by fraction digits,
    for a decimal symbol of one code unit. *)
Lemma exec_number_digits (dec : option jsstring) (d : char) (q : N) (fr : option jsstring) :
  is_digit d = false ->
  dec = Some [d] \/ (dec = None /\ fr = None) ->
  (forall f, fr = Some f -> forallb is_digit f = true) ->
  exec_number dec (decimal_digits q ++ match fr with Some f => d :: f | None => [] end)
  = Some (decimal_digits q, fr).
Proof.
  intros Hd Hdec Hf. destruct (decimal_digits_spec q) as [c [ds [E [Hds [_ Hh]]]]]. rewrite E.
  cbn [app exec_number]. destruct Hh as [[_ [-> ->]]|[_ Hc]].
  - rewrite N.eqb_refl. cbn [app]. now rewrite (exec_fraction_digits dec d fr Hdec Hf).
  - apply N.eqb_neq in Hc. rewrite Hc.
    cbn [forallb] in Hds. apply andb_true_iff in Hds as [Hdc Hds]. rewrite Hdc.
    assert (R : digit_run (ds ++ match fr with Some f => d :: f | None => [] end) = length ds).
    { apply digit_run_app; [assumption|]. destruct fr; [exact Hd | exact I]. }
    rewrite R, exec_runs_eq, skipn_length_app, firstn_length_app.
    now rewrite (exec_fraction_digits dec d fr Hdec Hf).
Qed.

Lemma list_case {A} (l : list A) : l = [] \/ exists x l', l = x :: l'.
Proof. destruct l; eauto. Qed.

(** ** Digit tables: [parse] on the texts of the host *)

Section TableParse.

Variables (z g d : char) (mn pc cs us : jsstring) (knows : NumberFormatStyle.t -> bool).
Variable this : NumberFormat.

Hypothesis Hsep : separated z g d mn cs us.
Hypothesis Hdigits : digits this = glyphs z.
Hypothesis Hgroup : groupingSymbol this = Some [g].
Hypothesis Hminus : minusSymbol this = Some mn.
Hypothesis Hprefix : prefix this = cs.
Hypothesis Hnegative : negativePrefix this = mn ++ cs.
Hypothesis Hsuffix : suffix this = us \/ (us = [] /\ exists rest, suffix this = mn ++ rest).

Let plain_text := plain_text g d.

Lemma table_zero : z = ZERO \/ (128 <= z)%N.
Proof. destruct (sep_glyphs _ _ _ _ _ _ Hsep) as [E | [E _]]; auto. Qed.

(** The symbols of the table and the hyphen are no glyphs. *)
Lemma table_no_glyph (c : char) :
  is_digit c = false -> In c (g :: d :: mn ++ cs ++ us) \/ c = HYPHEN ->
  is_glyph z c = false.
Proof.
  intros Hc Hin. destruct (sep_glyphs _ _ _ _ _ _ Hsep) as [E | [Hz Hn]].
  - rewrite E. exact Hc.
  - destruct Hin as [Hin | ->]; [now apply Hn|].
    unfold is_glyph. apply andb_false_iff. left. apply N.leb_gt. unfold HYPHEN. lia.
Qed.

(** [normalizeDigits] reads a text of the table back into ASCII digits. *)
Lemma table_normalizeDigits (negative : bool) (b : jsstring) :
  plain_text b ->
  normalizeDigits this ((if negative then mn else []) ++ cs ++ localized z b ++ us)
  = (if negative then mn else []) ++ cs ++ b ++ us.
Proof.
  intros Hb. rewrite (normalizeDigits_glyphs this z _ Hdigits table_zero).
  destruct (sep_glyphs _ _ _ _ _ _ Hsep) as [E | [Hz Hn]].
  - now rewrite E, unglyph_latin, localized_latin.
  - rewrite !map_app. rewrite (unglyph_localized z b Hz).
    + rewrite (unglyph_keeps z cs), (unglyph_keeps z us).
      * destruct negative; [|reflexivity]. now rewrite (unglyph_keeps z mn);
          [|intros c Hc; apply Hn; right; right; apply in_or_app; now left].
      * intros c Hc. apply Hn. right. right. apply in_or_app. right.
        apply in_or_app. now right.
      * intros c Hc. apply Hn. right. right. apply in_or_app. right.
        apply in_or_app. now left.
    + intros c Hc. destruct (plain_text_units g d b c Hb Hc) as [F | [-> | ->]];
        [now left | right; apply Hn; now left | right; apply Hn; right; now left].
Qed.

Lemma table_affix_excluded (c : char) (b : jsstring) :
  plain_text b -> In c (cs ++ us) -> forallb (fun x => negb (N.eqb c x)) b = true.
Proof.
  intros Hb Hc. destruct (sep_affix _ _ _ _ _ _ Hsep c Hc) as [Hd [Hg [Hdd _]]]. now apply Hb.
Qed.

Lemma table_affix_no_hyphen :
  forallb (fun c => negb (N.eqb HYPHEN c)) cs = true
  /\ forallb (fun c => negb (N.eqb HYPHEN c)) us = true.
Proof.
  split; apply forallb_forall; intros c Hc; apply negb_true_iff, N.eqb_neq; intros <-;
    destruct (sep_affix _ _ _ _ _ _ Hsep HYPHEN) as [_ [_ [_ E]]];
    try (apply in_or_app; (now left) || now right); congruence.
Qed.

Lemma table_plain_no_hyphen (b : jsstring) :
  plain_text b -> forallb (fun c => negb (N.eqb HYPHEN c)) b = true.
Proof.
  intros Hb. apply Hb; [reflexivity | |]; intros E; symmetry in E.
  - exact (sep_group_hyphen _ _ _ _ _ _ Hsep E).
  - exact (sep_decimal_hyphen _ _ _ _ _ _ Hsep E).
Qed.

Lemma table_stripPrefixOrSuffix (negative : bool) (b : jsstring) :
  plain_text b ->
  stripPrefixOrSuffix this ((if negative then mn else []) ++ cs ++ b ++ us) = b.
Proof.
  intros Hb. destruct (sep_minus _ _ _ _ _ _ Hsep) as [m0 [mrest [Emn [Hm0d [Hm0g [Hm0dd [Hm0cs Hm0us]]]]]]].
  pose proof (Hb m0 Hm0d Hm0g Hm0dd) as Hbm.
  unfold stripPrefixOrSuffix. rewrite Hnegative, Hprefix.
  assert (S1 : replace (replace ((if negative then mn else []) ++ cs ++ b ++ us) (mn ++ cs) []) cs []
               = b ++ us).
  { destruct negative.
    - rewrite app_assoc, replace_at_start.
      destruct (list_case cs) as [Ecs | [c0 [cs' Ecs]]];
        [rewrite Ecs; apply replace_nil_nil|].
      destruct (sep_one _ _ _ _ _ _ Hsep) as [E|E]; [congruence|]. rewrite E, app_nil_r.
      rewrite Ecs. apply replace_head_absent. apply (table_affix_excluded c0 b Hb).
      rewrite Ecs. now left.
    - cbn [app]. rewrite Emn. cbn [app].
      rewrite (replace_head_absent (cs ++ b ++ us)).
      + apply replace_at_start.
      + rewrite !forallb_app, Hbm, (forallb_excludes_In m0 cs Hm0cs),
          (forallb_excludes_In m0 us Hm0us). reflexivity. }
  rewrite S1. destruct Hsuffix as [-> | [Eus [rest ->]]].
  - destruct (list_case us) as [Eu | [u0 [us' Eu]]].
    + rewrite Eu, app_nil_r. apply replace_nil_nil.
    + rewrite Eu. apply replace_at_end. apply (table_affix_excluded u0 b Hb).
      apply in_or_app. right. rewrite Eu. now left.
  - rewrite Eus, app_nil_r, Emn. cbn [app]. now apply replace_head_absent.
Qed.

Lemma table_stripMinusSymbol (b : jsstring) : plain_text b -> stripMinusSymbol this b = b.
Proof.
  intros Hb. destruct (sep_minus _ _ _ _ _ _ Hsep) as [m0 [mrest [Emn [Hm0d [Hm0g [Hm0dd _]]]]]].
  unfold stripMinusSymbol. rewrite Hminus. cbn [ToString].
  rewrite (replace_head_absent b [] mn HYPHEN (table_plain_no_hyphen b Hb)).
  rewrite Emn. apply replace_head_absent. now apply Hb.
Qed.

Lemma table_affix_stripped (negative : bool) (b : jsstring) :
  plain_text b ->
  affix_stripped this ((if negative then mn else []) ++ cs ++ localized z b ++ us) = b.
Proof.
  intros Hb. unfold affix_stripped.
  now rewrite table_normalizeDigits, table_stripPrefixOrSuffix, table_stripMinusSymbol.
Qed.

Lemma table_isNegative (negative : bool) (b : jsstring) :
  plain_text b ->
  isNegative this ((if negative then mn else []) ++ cs ++ localized z b ++ us) = negative.
Proof.
  intros Hb. destruct (sep_minus _ _ _ _ _ _ Hsep) as [m0 [mrest [Emn [Hm0d [Hm0g [Hm0dd [Hm0cs Hm0us]]]]]]].
  unfold isNegative. rewrite Hnegative, Hminus. cbn [ToString].
  destruct negative.
  - now rewrite app_assoc, startsWith_app.
  - cbn [app].
    assert (Gm : is_glyph z m0 = false).
    { apply table_no_glyph; [assumption|]. left. right. right. rewrite Emn. now left. }
    assert (Gh : is_glyph z HYPHEN = false) by (apply table_no_glyph; [reflexivity | now right]).
    assert (A : forallb (fun c => negb (N.eqb m0 c)) (cs ++ localized z b ++ us) = true).
    { rewrite !forallb_app,
        (localized_excludes z m0 b Hm0d Gm (Hb m0 Hm0d Hm0g Hm0dd)),
        (forallb_excludes_In m0 cs Hm0cs), (forallb_excludes_In m0 us Hm0us). reflexivity. }
    assert (B : forallb (fun c => negb (N.eqb HYPHEN c)) (cs ++ localized z b ++ us) = true).
    { destruct table_affix_no_hyphen as [Hc Hu].
      now rewrite !forallb_app, Hc, Hu,
        (localized_excludes z HYPHEN b eq_refl Gh (table_plain_no_hyphen b Hb)). }
    rewrite (replace_head_absent _ [] mn HYPHEN B). rewrite Emn. cbn [app].
    now rewrite !(startsWith_head_absent _ _ m0 A).
Qed.

Hypothesis Hstyle : style this <> NumberFormatStyle.Percent.
Hypothesis Hcs : cs = host_prefix (style this) (currency this).
Hypothesis Hus : us = host_suffix (style this) (unit this).

Variables (q : N) (fr : option jsstring) (grouping : bool).
Hypothesis fr_digits : forall f, fr = Some f -> forallb is_digit f = true.
Hypothesis Hdecimal : decimalSymbol this = Some [d] \/ (decimalSymbol this = None /\ fr = None).

Let H := Table.host (digit_table z g d mn pc knows).
Let I := decimal_digits q.
Let INT (b : bool) := if b then grouped [g] I else I.
Let FRAC := match fr with Some f => d :: f | None => [] end.

Lemma table_int_plain (b : bool) : plain_text (number_text g d q None b).
Proof.
  intros p Hp Hg Hd.
  apply (grouped_body_excludes p g d I None b Hp Hg Hd (decimal_digits_digits q)).
  discriminate.
Qed.

Lemma table_body_plain : plain_text (number_text g d q fr grouping).
Proof.
  intros p Hp Hg Hd.
  exact (grouped_body_excludes p g d I fr grouping Hp Hg Hd (decimal_digits_digits q) fr_digits).
Qed.

Lemma table_body_head : exists c0 b', INT grouping ++ FRAC = c0 :: b'.
Proof.
  unfold INT, I. destruct (decimal_digits_spec q) as [c [ds [E _]]]. rewrite E.
  destruct grouping.
  - destruct (grouped_head [g] c ds) as [rest ->]. cbn [app]. eauto.
  - cbn [app]. eauto.
Qed.

Lemma fraction_digits_min0 (o : NumberFormatOptions) :
  o_minimumFractionDigits o = Some 0 -> o_maximumFractionDigits o = None ->
  exists mx, Table.fraction_digits o = (0, mx).
Proof.
  intros Hmin Hmax. unfold Table.fraction_digits. rewrite Hmin, Hmax.
  destruct (match Table.style_of o with
            | NumberFormatStyle.Currency =>
                (Table.currency_digits (o_currency o), Table.currency_digits (o_currency o))
            | NumberFormatStyle.Percent => (0, 0)
            | _ => (0, 3)
            end) as [a b]. eauto.
Qed.

(** The two texts [isValidIntegerFormat] compares with, for an integer. *)
Lemma table_renderings :
  renderings H this (Table.Finite false q 0) = [grouped [g] I; I].
Proof.
  assert (R : forall b,
    stripPrefixOrSuffix this (normalizeDigits this
      (toLocaleString H (Table.Finite false q 0) (locale this)
         {| o_style := Some (style this); o_currency := currency this;
            o_unit := unit this; o_minimumFractionDigits := Some 0;
            o_maximumFractionDigits := None; o_useGrouping := Some b |}))
    = INT b).
  { intros b. cbn [toLocaleString H Table.host].
    set (o := {| o_style := Some (style this); o_currency := currency this;
                 o_unit := unit this; o_minimumFractionDigits := Some 0;
                 o_maximumFractionDigits := None; o_useGrouping := Some b |}).
    destruct (fraction_digits_min0 o eq_refl eq_refl) as [mx Hfd].
    rewrite (table_rendering z g d mn pc knows (sep_group _ _ _ _ _ _ Hsep)
               (sep_decimal _ _ _ _ _ _ Hsep) o false q 0 0 mx Hstyle Hfd (Nat.le_0_l mx)
               (or_introl eq_refl)).
    cbn [Nat.ltb Nat.leb N.of_nat]. change (10 ^ 0)%N with 1%N. rewrite N.div_1_r.
    change (Table.style_of o) with (style this).
    change (o_currency o) with (currency this). change (o_unit o) with (unit this).
    rewrite <- Hcs, <- Hus.
    replace (match o_useGrouping o with Some false => false | _ => true end) with b
      by (destruct b; reflexivity).
    unfold table_text.
    rewrite (table_normalizeDigits false _ (table_int_plain b)).
    rewrite (table_stripPrefixOrSuffix false _ (table_int_plain b)).
    unfold number_text. fold I. fold (INT b). apply app_nil_r. }
  unfold renderings. cbn [map]. now rewrite !R.
Qed.

Lemma table_stripped : replace_g (INT grouping ++ FRAC) [g] [] = I ++ FRAC.
Proof.
  rewrite replace_g_single, filter_app. f_equal.
  - pose proof (digits_exclude g I (sep_group _ _ _ _ _ _ Hsep) (decimal_digits_digits q)) as Hi.
    unfold INT. destruct grouping; [now apply filter_grouped | now apply filter_keeps].
  - apply filter_keeps. unfold FRAC. destruct fr as [f|] eqn:E; [|reflexivity].
    cbn [forallb]. apply andb_true_iff. split.
    + apply negb_true_iff, N.eqb_neq. exact (sep_distinct _ _ _ _ _ _ Hsep).
    + apply digits_exclude; [exact (sep_group _ _ _ _ _ _ Hsep) | now apply fr_digits].
Qed.

Lemma table_fraction_pattern :
  fraction_pattern this = Some [d] \/ (fraction_pattern this = None /\ fr = None).
Proof.
  unfold fraction_pattern. destruct Hdecimal as [-> | [-> ->]]; [left | right]; auto.
Qed.

Lemma table_integer_portion : integer_portion this (INT grouping ++ FRAC) = INT grouping.
Proof.
  assert (Hi : forallb (fun c => negb (N.eqb d c)) (INT grouping) = true).
  { pose proof (digits_exclude d I (sep_decimal _ _ _ _ _ _ Hsep) (decimal_digits_digits q)) as E.
    unfold INT. destruct grouping; [|exact E]. apply grouped_excludes; [|exact E].
    apply N.eqb_neq. intros E'. symmetry in E'. exact (sep_distinct _ _ _ _ _ _ Hsep E'). }
  unfold integer_portion, split_head, FRAC.
  destruct Hdecimal as [-> | [-> ->]]; cbn [truthy ToString].
  - destruct fr as [f|].
    + now rewrite (search_unit d (INT grouping) f Hi).
    + rewrite app_nil_r. now rewrite (search_unit_absent d (INT grouping) Hi).
  - apply app_nil_r.
Qed.

Lemma table_glyphs : glyphs_foreign this.
Proof. exact (glyphs_are_foreign this z Hdigits table_zero). Qed.

(** [parse] accepts the texts the table host writes: sign, currency text,
    canonical integer grouped or not, fraction digits, unit text. *)
Lemma table_parse_text (negative : bool) :
  (q < Table.OVERFLOW)%N ->
  parse H utils_escapeRegExp this
    (Some (table_text z g d mn cs us negative q fr grouping))
  = Normal (Some (Table.StringToNumber
                    ((if negative then [HYPHEN] else [])
                     ++ I ++ [PERIOD] ++ match fr with Some f => f | None => [] end))).
Proof.
  intros Hq. unfold table_text.
  set (T := (if negative then mn else []) ++ cs
            ++ localized z (number_text g d q fr grouping) ++ us).
  destruct table_body_head as [c0 [b' Eb]].
  assert (Hne : exists c s, T = c :: s).
  { destruct T as [|c s] eqn:E; [|eauto]. exfalso. unfold T in E.
    apply app_eq_nil in E as [_ E]. apply app_eq_nil in E as [_ E].
    apply app_eq_nil in E as [E _]. apply map_eq_nil in E.
    unfold number_text in E. fold I in E. fold (INT grouping) in E. fold FRAC in E.
    congruence. }
  destruct Hne as [c [s E]]. rewrite E.
  apply (parse_accepts_iff H utils_escapeRegExp this c s [g]);
    [exact Hgroup | exact utils_escapeRegExp_escapes |].
  exists I, fr. rewrite <- E. unfold T.
  rewrite (table_affix_stripped negative _ table_body_plain).
  rewrite (table_isNegative negative _ table_body_plain).
  unfold number_text. fold I. fold (INT grouping). fold FRAC.
  rewrite table_stripped, table_integer_portion.
  split; [|split].
  - apply exec_number_digits;
      [exact (sep_decimal _ _ _ _ _ _ Hsep) | exact table_fraction_pattern | exact fr_digits].
  - change (Number H I) with (Table.StringToNumber I). unfold I.
    rewrite StringToNumber_digits
      by (apply decimal_digits_nonempty || apply decimal_digits_digits).
    rewrite decimal_digits_value. apply N.leb_gt in Hq. rewrite Hq.
    rewrite table_renderings. unfold INT, I. destruct grouping; cbn [In]; auto.
  - change (Number H ?t) with (Table.StringToNumber t).
    rewrite (onlyDigits_digits this I table_glyphs (decimal_digits_digits q)).
    rewrite (onlyDigits_digits this (match fr with Some f => f | None => [] end) table_glyphs).
    + reflexivity.
    + destruct fr as [f|]; [now apply fr_digits | reflexivity].
Qed.

Lemma table_digits_and_separators_plain (s : jsstring) :
  forallb (fun c => is_digit c || N.eqb c g) s = true -> plain_text s.
Proof.
  intros Hs p Hp Hg Hd. rewrite forallb_forall in Hs. apply forallb_forall.
  intros c Hc. specialize (Hs c Hc). apply negb_true_iff, N.eqb_neq. intros <-.
  apply orb_true_iff in Hs as [Hs|Hs]; [congruence|]. apply N.eqb_eq in Hs. congruence.
Qed.

(** A text of digits and grouping symbols whose digits are those of [q], with
    the affixes of the style around it, is rejected unless it is the grouped
    or the ungrouped rendering. *)
Lemma table_parse_wrong_grouping (s : jsstring) :
  (q < Table.OVERFLOW)%N ->
  forallb (fun c => is_digit c || N.eqb c g) s = true ->
  filter (fun c => negb (N.eqb g c)) s = I ->
  s <> grouped [g] I ->
  s <> I ->
  parse H utils_escapeRegExp this (Some (cs ++ localized z s ++ us)) = Normal None.
Proof.
  intros Hq Hs Hd Hg Hu.
  pose proof (table_digits_and_separators_plain s Hs) as Hplain.
  assert (Hne : exists c t, cs ++ localized z s ++ us = c :: t).
  { destruct (cs ++ localized z s ++ us) as [|c t] eqn:E; [|eauto]. exfalso.
    apply app_eq_nil in E as [_ E]. apply app_eq_nil in E as [E _].
    apply map_eq_nil in E. subst s.
    cbn [filter] in Hd. symmetry in Hd. exact (decimal_digits_nonempty q Hd). }
  destruct Hne as [c [t E]]. rewrite E.
  apply (parse_rejects H utils_escapeRegExp this c t [g]);
    [exact Hgroup | exact utils_escapeRegExp_escapes |].
  intros m1 m2. rewrite <- E.
  pose proof (table_affix_stripped false s Hplain) as A. cbn [app] in A. rewrite A.
  rewrite replace_g_single, Hd.
  assert (Hnod : forallb (fun c => negb (N.eqb d c)) s = true).
  { rewrite forallb_forall in Hs. apply forallb_forall. intros x Hx.
    specialize (Hs x Hx). apply negb_true_iff, N.eqb_neq. intros <-.
    apply orb_true_iff in Hs as [Hs|Hs].
    - pose proof (sep_decimal _ _ _ _ _ _ Hsep). congruence.
    - apply N.eqb_eq in Hs. symmetry in Hs. exact (sep_distinct _ _ _ _ _ _ Hsep Hs). }
  assert (Hip : integer_portion this s = s).
  { unfold integer_portion, split_head.
    destruct (truthy (decimalSymbol this)) eqn:T; [|reflexivity].
    destruct Hdecimal as [Ed | [Ed _]]; rewrite Ed in *; [|discriminate].
    cbn [ToString]. now rewrite (search_unit_absent d s Hnod). }
  rewrite Hip.
  assert (Hpat : fraction_pattern this = Some [d]
                 \/ (fraction_pattern this = None /\ @None jsstring = None)).
  { destruct table_fraction_pattern as [Ep | [Ep _]]; auto. }
  pose proof (exec_number_digits (fraction_pattern this) d q None
                (sep_decimal _ _ _ _ _ _ Hsep) Hpat ltac:(discriminate)) as Em.
  rewrite app_nil_r in Em. fold I in Em. rewrite Em. intros [= <- <-].
  change (Number H I) with (Table.StringToNumber I). unfold I.
  rewrite StringToNumber_digits
    by (apply decimal_digits_nonempty || apply decimal_digits_digits).
  rewrite decimal_digits_value. apply N.leb_gt in Hq. rewrite Hq.
  rewrite table_renderings. fold I. intros [E1|[E2|[]]]; congruence.
Qed.

End TableParse.

(** ** Digit tables: the constructed profile *)

Lemma probe_value (ld : Table.LocaleData) :
  PROBE (Table.host ld) = Table.Finite true 123456768 3.
Proof. vm_compute. reflexivity. Qed.

Ltac profile_fields :=
  vm_compute; f_equal;
  try reflexivity; try exact (app_nil_r _); try exact (f_equal (app _) (app_nil_r _));
  try exact (f_equal (cons _) (app_nil_r _)).

(** The constructor on a digit table, for a style other than percent. *)
Lemma constructor_table (z g d : char) (mn pc : jsstring) (knows : NumberFormatStyle.t -> bool)
  (o : NumberInputOptions) (this : NumberFormat) :
  formatStyle o <> NumberFormatStyle.Percent ->
  constructor (Table.host (digit_table z g d mn pc knows)) o = Normal this ->
  this = table_profile z g d mn o.
Proof.
  destruct o as [s cur un loc p]. cbn [formatStyle]. intros Hs.
  unfold constructor.
  cbn [Intl_NumberFormat Table.host formatStyle opt_currency opt_unit opt_locale precision].
  unfold Table.construct.
  cbn [Table.style_of o_style o_currency o_unit Table.knows digit_table
       Table.digits_in_range o_minimumFractionDigits o_maximumFractionDigits andb].
  assert (Get : forall (c : completion NumberFormat) (x : NumberFormat),
             c = Normal this -> (forall y, c = Normal y -> y = x) -> this = x).
  { intros c x E Hx. now apply Hx. }
  destruct s.
  - destruct (knows NumberFormatStyle.Decimal); cbn [bind]; [|discriminate].
    intros E. apply (Get _ _ E). clear E. intros y E.
    apply (f_equal (fun c => match c with Normal x => x | Throw _ => y end)) in E.
    rewrite <- E. clear E. rewrite probe_value.
    destruct p; profile_fields.
  - destruct cur as [c|]; cbn [bind]; [|discriminate].
    destruct (knows NumberFormatStyle.Currency); cbn [bind]; [|discriminate].
    intros E. apply (Get _ _ E). clear E. intros y E.
    apply (f_equal (fun c => match c with Normal x => x | Throw _ => y end)) in E.
    rewrite <- E. clear E. rewrite probe_value.
    unfold table_profile, host_prefix, host_suffix.
    cbn [formatStyle opt_currency opt_unit opt_locale precision formatToParts Table.host
         resolvedMinimumFractionDigits resolvedMaximumFractionDigits].
    unfold Table.parts, Table.number_parts, Table.fraction_digits.
    cbn [Table.style_of o_style o_currency o_unit o_minimumFractionDigits
         o_maximumFractionDigits o_useGrouping Table.is_negative].
    set (cs := Table.currency_symbol (Some c)). clearbody cs.
    unfold Table.currency_digits.
    destruct (jseqb c (u "JPY")); destruct p; profile_fields.
  - exfalso. now apply Hs.
  - destruct un as [x|]; cbn [bind]; [|discriminate].
    destruct (knows NumberFormatStyle.Unit); cbn [bind]; [|discriminate].
    intros E. apply (Get _ _ E). clear E. intros y E.
    apply (f_equal (fun c => match c with Normal x => x | Throw _ => y end)) in E.
    rewrite <- E. clear E. rewrite probe_value.
    unfold table_profile, host_prefix, host_suffix.
    cbn [formatStyle opt_currency opt_unit opt_locale precision formatToParts Table.host
         resolvedMinimumFractionDigits resolvedMaximumFractionDigits].
    unfold Table.parts, Table.number_parts, Table.fraction_digits.
    cbn [Table.style_of o_style o_currency o_unit o_minimumFractionDigits
         o_maximumFractionDigits o_useGrouping Table.is_negative].
    set (us := Table.unit_symbol (Some x)). clearbody us.
    destruct p; profile_fields.
Qed.
(** ** Formatting on a table host *)

(** A table that has built a profile accepts the style, the currency and the
    unit of that profile again, with any fraction digits in range. *)
Lemma construct_after_constructor (ld : Table.LocaleData) (o : NumberInputOptions)
  (this : NumberFormat) (mnfd mxfd : option nat) (grouping : option bool) :
  constructor (Table.host ld) o = Normal this ->
  let o' := {| o_style := Some (formatStyle o); o_currency := opt_currency o;
               o_unit := opt_unit o; o_minimumFractionDigits := mnfd;
               o_maximumFractionDigits := mxfd; o_useGrouping := grouping |} in
  Table.construct ld (opt_locale o) o'
  = if Table.digits_in_range o' then Normal o' else Throw RangeError.
Proof.
  intros Hc o'. unfold constructor in Hc.
  cbn [Intl_NumberFormat Table.host] in Hc. unfold Table.construct in *.
  unfold o'. cbn [Table.style_of o_style o_currency o_unit] in *.
  destruct (formatStyle o); destruct (opt_currency o); destruct (opt_unit o);
    cbn [bind] in Hc; try discriminate;
    match goal with
    | |- context [Table.knows ld ?s] => destruct (Table.knows ld s)
    end; cbn [bind] in Hc; try discriminate; reflexivity.
Qed.

(** Fraction digits in range: the bounds of a profile. *)
Lemma digits_in_range_bounds (s : option NumberFormatStyle.t) (cur un : option jsstring)
  (mnfd mxfd : nat) (grouping : option bool) :
  mnfd <= mxfd ->
  Table.digits_in_range
    {| o_style := s; o_currency := cur; o_unit := un;
       o_minimumFractionDigits := Some mnfd; o_maximumFractionDigits := Some mxfd;
       o_useGrouping := grouping |}
  = (mxfd <=? Table.MAX_FRACTION_DIGITS).
Proof.
  intros Hle. unfold Table.digits_in_range.
  cbn [o_minimumFractionDigits o_maximumFractionDigits].
  destruct (mxfd <=? Table.MAX_FRACTION_DIGITS) eqn:E.
  - apply Nat.leb_le in E.
    replace (mnfd <=? Table.MAX_FRACTION_DIGITS) with true
      by (symmetry; apply Nat.leb_le; lia).
    replace (mnfd <=? mxfd) with true by (symmetry; apply Nat.leb_le; lia).
    reflexivity.
  - now rewrite andb_false_r.
Qed.

(** [format] on a profile a table has built: a RangeError beyond 100 fraction
    digits, and the text of the host otherwise. *)
Lemma format_constructed (ld : Table.LocaleData) (o : NumberInputOptions)
  (this : NumberFormat) (x : Table.num) :
  constructor (Table.host ld) o = Normal this ->
  minimumFractionDigits this <= maximumFractionDigits this ->
  format (Table.host ld) this (Some x) None
  = if maximumFractionDigits this <=? Table.MAX_FRACTION_DIGITS
    then Normal (toLocaleString (Table.host ld) x (locale this)
                   {| o_style := Some (style this); o_currency := currency this;
                      o_unit := unit this;
                      o_minimumFractionDigits := Some (minimumFractionDigits this);
                      o_maximumFractionDigits := Some (maximumFractionDigits this);
                      o_useGrouping := None |})
    else Throw RangeError.
Proof.
  intros Hc Hle.
  assert (Hf : locale this = opt_locale o /\ style this = formatStyle o
               /\ currency this = opt_currency o /\ unit this = opt_unit o).
  { unfold constructor in Hc.
    destruct (Intl_NumberFormat _ _ _) as [nf|e]; cbn [bind] in Hc; [|discriminate].
    injection Hc as <-. repeat split. }
  destruct Hf as [El [Es [Ec Eu]]].
  unfold format, Number_toLocaleString, spread.
  cbn [o_style o_currency o_unit o_minimumFractionDigits o_maximumFractionDigits o_useGrouping
       Intl_NumberFormat Table.host].
  rewrite El, Es, Ec, Eu.
  rewrite (construct_after_constructor ld o this (Some (minimumFractionDigits this))
             (Some (maximumFractionDigits this)) None Hc).
  rewrite (digits_in_range_bounds _ _ _ _ _ _ Hle).
  destruct (maximumFractionDigits this <=? Table.MAX_FRACTION_DIGITS); reflexivity.
Qed.

Lemma trim_padded (m : N) (k j : nat) :
  k = 0 \/ (m mod 10 <> 0)%N ->
  Table.trim (m * 10 ^ N.of_nat j) (k + j) 0 = (m, k).
Proof.
  intros Hc. induction j as [|j IH].
  - rewrite Nat.add_0_r. change (10 ^ N.of_nat 0)%N with 1%N. rewrite N.mul_1_r.
    now apply trim_canonical.
  - rewrite Nat.add_succ_r. cbn [Table.trim Nat.leb andb].
    rewrite Nat2N.inj_succ, N.pow_succ_r'.
    replace (m * (10 * 10 ^ N.of_nat j))%N with ((m * 10 ^ N.of_nat j) * 10)%N by lia.
    rewrite N.Div0.mod_mul, N.div_mul by discriminate. cbn [N.eqb]. exact IH.
Qed.

(** Reading back the digits the table host writes for [m / 10^k], padded to
    [k + j] fraction digits. *)
Lemma rendered_value (negative : bool) (m : N) (k j : nat) :
  k = 0 \/ (m mod 10 <> 0)%N -> (m < 10 ^ 15)%N ->
  let m' := (m * 10 ^ N.of_nat j)%N in
  let kk := k + j in
  let fr := match kk with
            | O => None
            | S _ => Some (Table.pad_left kk (decimal_digits (m' mod 10 ^ N.of_nat kk)))
            end in
  (m' / 10 ^ N.of_nat kk < Table.OVERFLOW)%N
  /\ (forall f, fr = Some f -> forallb is_digit f = true)
  /\ Table.StringToNumber
       ((if negative then [HYPHEN] else [])
        ++ decimal_digits (m' / 10 ^ N.of_nat kk) ++ [PERIOD]
        ++ match fr with Some f => f | None => [] end)
     = Table.Finite negative m k.
Proof.
  intros Hc Hm m' kk fr.
  destruct (pow10_split m' kk) as [Hsplit [Hr Hq]].
  assert (Hov : (10 ^ 15 < Table.OVERFLOW)%N) by reflexivity.
  assert (Hj : (0 < 10 ^ N.of_nat j)%N) by (apply N.neq_0_lt_0, N.pow_nonzero; discriminate).
  assert (Hk : (0 < 10 ^ N.of_nat k)%N) by (apply N.neq_0_lt_0, N.pow_nonzero; discriminate).
  assert (Hkk : (10 ^ N.of_nat kk = 10 ^ N.of_nat k * 10 ^ N.of_nat j)%N).
  { unfold kk. now rewrite Nat2N.inj_add, N.pow_add_r. }
  set (q := (m' / 10 ^ N.of_nat kk)%N) in *. set (r := (m' mod 10 ^ N.of_nat kk)%N) in *.
  assert (Hqm : (q <= m)%N).
  { rewrite Hkk in Hsplit. unfold m' in Hsplit.
    set (X := (10 ^ N.of_nat j)%N) in *. set (Y := (10 ^ N.of_nat k)%N) in *.
    clearbody X Y q r. nia. }
  assert (Hfr : forall f, fr = Some f ->
                  length f = kk /\ forallb is_digit f = true /\ Table.digits_value f = r).
  { intros f. unfold fr. destruct kk as [|kk'] eqn:Ek; [discriminate|]. intros [= <-].
    apply pad_left_spec; [assumption | lia]. }
  split; [lia|]. split; [intros f Ef; now apply Hfr|].
  rewrite StringToNumber_literal;
    [| apply decimal_digits_nonempty | apply decimal_digits_digits
     | destruct fr as [f|]; [now apply Hfr | reflexivity] ].
  assert (V : Table.digits_value (decimal_digits q ++ match fr with Some f => f | None => [] end) = m'
              /\ length (match fr with Some f => f | None => [] end) = kk).
  { rewrite digits_value_app, decimal_digits_value. destruct fr as [f|] eqn:Ef.
    - destruct (Hfr f eq_refl) as [Hl [_ Hv]]. rewrite Hl, Hv. auto.
    - unfold fr in Ef. destruct kk; [|discriminate]. split; [|reflexivity].
      cbn [length N.of_nat] in *. change (10 ^ 0)%N with 1%N in *.
      unfold Table.digits_value. cbn [fold_left]. lia. }
  destruct V as [-> ->].
  assert (B : (m' < Table.OVERFLOW * 10 ^ N.of_nat kk)%N).
  { rewrite Hkk. unfold m'.
    set (X := (10 ^ N.of_nat j)%N) in *. set (Y := (10 ^ N.of_nat k)%N) in *.
    clearbody X Y. nia. }
  apply N.leb_gt in B. rewrite B. unfold m', kk. now rewrite (trim_padded m k j Hc).
Qed.

(** The fraction bounds, the decimal symbol and the suffix of the profile the
    constructor builds from a digit table. *)
Lemma table_profile_shape (z g d : char) (mn : jsstring) (o : NumberInputOptions) :
  formatStyle o <> NumberFormatStyle.Percent ->
  let P := table_profile z g d mn o in
  let us := host_suffix (formatStyle o) (opt_unit o) in
  minimumFractionDigits P <= maximumFractionDigits P
  /\ (decimalSymbol P = Some [d]
      \/ (decimalSymbol P = None /\ maximumFractionDigits P = 0))
  /\ (suffix P = us \/ (us = [] /\ exists rest, suffix P = mn ++ rest)).
Proof.
  intros Hs P us. unfold P, us, table_profile.
  cbn [minimumFractionDigits maximumFractionDigits decimalSymbol suffix].
  destruct (formatStyle o) eqn:Es; try congruence; cbn [host_suffix];
    try (destruct (precision o); cbn [fst snd]; repeat split; auto; lia).
  unfold Table.currency_digits.
  destruct (opt_currency o) as [c|]; [destruct (jseqb c (u "JPY"))|];
    cbn [Nat.eqb]; destruct (precision o); cbn [fst snd]; repeat split; eauto.
Qed.

(** ** Round trip on digit tables *)

(** X23. On every locale table with ten consecutive digit glyphs (the ASCII
    digits or glyphs beyond ASCII), separators of one code unit and symbols
    that do not interfere, for every style other than percent and every
    profile the constructor builds with at most 100 fraction digits, [format]
    returns a text for every finite value with at most
    [maximumFractionDigits] fraction digits and fewer than sixteen significant
    digits, negative zero included, and [parse] reads the value back from that
    text. *)
Theorem round_trip_digit_tables (z g d : char) (mn pc : jsstring)
  (knows : NumberFormatStyle.t -> bool) (o : NumberInputOptions) (this : NumberFormat)
  (negative : bool) (m : N) (k : nat) :
  formatStyle o <> NumberFormatStyle.Percent ->
  separated z g d mn (host_prefix (formatStyle o) (opt_currency o))
    (host_suffix (formatStyle o) (opt_unit o)) ->
  constructor (Table.host (digit_table z g d mn pc knows)) o = Normal this ->
  maximumFractionDigits this <= Table.MAX_FRACTION_DIGITS ->
  k <= maximumFractionDigits this ->
  (k = 0 \/ (m mod 10 <> 0)%N) ->
  (m < 10 ^ 15)%N ->
  let H := Table.host (digit_table z g d mn pc knows) in
  (text <- format H this (Some (Table.Finite negative m k)) None ;;
   parse H utils_escapeRegExp this (Some text))
  = Normal (Some (Table.Finite negative m k)).
Proof.
  intros Hs Hsep Hctor Hmax Hk Hc Hm H.
  pose proof Hctor as Hacc.
  apply (constructor_table z g d mn pc knows o this Hs) in Hctor. subst this.
  set (cs := host_prefix (formatStyle o) (opt_currency o)) in *.
  set (us := host_suffix (formatStyle o) (opt_unit o)) in *.
  set (P := table_profile z g d mn o) in *.
  set (mn_ := minimumFractionDigits P). set (mx_ := maximumFractionDigits P) in *.
  pose proof (table_profile_shape z g d mn o Hs) as Hb. cbn zeta in Hb.
  fold P us mn_ mx_ in Hb.
  destruct Hb as [Hle [Hdec Hsuf]].
  (* the formatted text *)
  unfold H. rewrite (format_constructed _ o P _ Hacc Hle). fold mx_ mn_.
  replace (mx_ <=? Table.MAX_FRACTION_DIGITS) with true by (symmetry; now apply Nat.leb_le).
  cbn [bind].
  cbn [toLocaleString Table.host].
  set (o' := {| o_style := Some (style P); o_currency := currency P; o_unit := unit P;
                o_minimumFractionDigits := Some mn_; o_maximumFractionDigits := Some mx_;
                o_useGrouping := None |}).
  assert (Hfd : Table.fraction_digits o' = (mn_, mx_)).
  { unfold Table.fraction_digits, o'.
    cbn [o_minimumFractionDigits o_maximumFractionDigits].
    destruct (match Table.style_of _ with
              | NumberFormatStyle.Currency => _
              | NumberFormatStyle.Percent => _
              | _ => _
              end) as [a b].
    f_equal. lia. }
  assert (Hs' : Table.style_of o' <> NumberFormatStyle.Percent) by exact Hs.
  rewrite (table_rendering z g d mn pc knows (sep_group _ _ _ _ _ _ Hsep)
             (sep_decimal _ _ _ _ _ _ Hsep) o' negative m k mn_ mx_ Hs' Hfd Hk Hc).
  change (host_prefix (Table.style_of o') (o_currency o')) with cs.
  change (host_suffix (Table.style_of o') (o_unit o')) with us.
  replace (match o_useGrouping o' with Some false => false | _ => true end) with true
    by reflexivity.
  (* the padding of the fraction *)
  set (j := if k <? mn_ then mn_ - k else 0).
  assert (Ej : (if k <? mn_ then ((m * 10 ^ N.of_nat (mn_ - k))%N, mn_) else (m, k))
               = ((m * 10 ^ N.of_nat j)%N, k + j)).
  { unfold j. destruct (k <? mn_) eqn:E.
    - apply Nat.ltb_lt in E. f_equal. lia.
    - change (10 ^ N.of_nat 0)%N with 1%N. now rewrite N.mul_1_r, Nat.add_0_r. }
  rewrite Ej.
  destruct (rendered_value negative m k j Hc Hm) as [Hq [Hfr Hval]].
  set (m' := (m * 10 ^ N.of_nat j)%N) in *. set (kk := k + j) in *.
  set (fr := match kk with
             | O => None
             | S _ => Some (Table.pad_left kk (decimal_digits (m' mod 10 ^ N.of_nat kk)))
             end) in *.
  assert (Hdec' : decimalSymbol P = Some [d] \/ (decimalSymbol P = None /\ fr = None)).
  { destruct Hdec as [E | [E Hz]]; [now left | right]. split; [exact E|].
    unfold fr, kk, j. replace k with 0 by lia.
    replace (0 <? mn_) with false by (symmetry; apply Nat.ltb_ge; lia). reflexivity. }
  rewrite (table_parse_text z g d mn pc cs us knows P Hsep eq_refl eq_refl eq_refl eq_refl
             eq_refl Hsuf Hs eq_refl eq_refl (m' / 10 ^ N.of_nat kk) fr true Hfr Hdec'
             negative Hq).
  now rewrite Hval.
Qed.
(** C1. The round trip fails on the percent profile of [en]: the constructor
    builds the profile, [format] writes the value 1 as [100%] and the value
    0.5 as [50%], and [parse] returns null on both texts, where the round trip
    asks for 1 and 0.5. *)
Theorem round_trip_fails_for_percent :
  constructor en_host (options_of "en" NumberFormatStyle.Percent None None)
  = Normal en_Percent
  /\ format en_host en_Percent (Some (Table.Finite false 1 0)) None = Normal (u "100%")
  /\ (text <- format en_host en_Percent (Some (Table.Finite false 1 0)) None ;;
      parse en_host utils_escapeRegExp en_Percent (Some text)) = Normal None
  /\ format en_host en_Percent (Some (Table.Finite false 5 1)) None = Normal (u "50%")
  /\ (text <- format en_host en_Percent (Some (Table.Finite false 5 1)) None ;;
      parse en_host utils_escapeRegExp en_Percent (Some text)) = Normal None.
Proof. repeat split; vm_compute; reflexivity. Qed.

Lemma separated_en_EUR :
  separated ZERO COMMA PERIOD [HYPHEN] [EURO] [].
Proof.
  constructor; try reflexivity; try discriminate.
  - exists HYPHEN, []. repeat split; try reflexivity; try discriminate.
    + intros [E|[]]; discriminate.
    + intros [].
  - intros c [<-|[]]. repeat split; try reflexivity; discriminate.
  - now right.
  - now left.
Qed.

Lemma separated_ar_Decimal :
  separated ARABIC_ZERO ARABIC_THOUSANDS ARABIC_DECIMAL [ARABIC_LETTER_MARK; HYPHEN] [] [].
Proof.
  constructor; try reflexivity; try discriminate.
  - exists ARABIC_LETTER_MARK, [HYPHEN].
    repeat split; try reflexivity; try discriminate; intros [].
  - intros c [].
  - now left.
  - right. split; [discriminate|].
    intros c [<-|[<-|[<-|[<-|[]]]]]; reflexivity.
Qed.

Lemma round_trip_digit_tables_witness :
  constructor ar_host (options_of "ar-EG" NumberFormatStyle.Decimal None None)
  = Normal ar_Decimal
  /\ format ar_host ar_Decimal (Some (Table.Finite true 123456725 2)) None
     = Normal ([ARABIC_LETTER_MARK; HYPHEN] ++ localized ARABIC_ZERO (u "1")
               ++ [ARABIC_THOUSANDS] ++ localized ARABIC_ZERO (u "234")
               ++ [ARABIC_THOUSANDS] ++ localized ARABIC_ZERO (u "567")
               ++ [ARABIC_DECIMAL] ++ localized ARABIC_ZERO (u "25"))
  /\ (text <- format ar_host ar_Decimal (Some (Table.Finite true 123456725 2)) None ;;
      parse ar_host utils_escapeRegExp ar_Decimal (Some text))
     = Normal (Some (Table.Finite true 123456725 2)).
Proof.
  assert (Hc : constructor ar_host (options_of "ar-EG" NumberFormatStyle.Decimal None None)
               = Normal ar_Decimal) by (vm_compute; reflexivity).
  assert (Hs : formatStyle (options_of "ar-EG" NumberFormatStyle.Decimal None None)
               <> NumberFormatStyle.Percent) by discriminate.
  assert (Hmax : maximumFractionDigits ar_Decimal <= Table.MAX_FRACTION_DIGITS)
    by (cbn; unfold Table.MAX_FRACTION_DIGITS; lia).
  assert (Hk : 2 <= maximumFractionDigits ar_Decimal) by (cbn; lia).
  assert (Hm : (2 = 0 \/ (123456725 mod 10 <> 0)%N)) by (right; discriminate).
  assert (Hb : (123456725 < 10 ^ 15)%N) by reflexivity.
  pose proof (round_trip_digit_tables ARABIC_ZERO ARABIC_THOUSANDS ARABIC_DECIMAL
                [ARABIC_LETTER_MARK; HYPHEN] [1642%N; ARABIC_LETTER_MARK]
                (fun s => match s with NumberFormatStyle.Decimal => true | _ => false end)
                (options_of "ar-EG" NumberFormatStyle.Decimal None None) ar_Decimal
                true 123456725 2 Hs separated_ar_Decimal Hc Hmax Hk Hm Hb) as P.
  split; [exact Hc|]. split; [vm_compute; reflexivity|]. exact P.
Defined.

(** ** Grouping validation *)

(** C2. Acceptance fails on the percent profile of [en]: the digits [1234],
    grouped as the locale groups them ([1,234]) or not grouped at all, with or
    without the percent sign, are all read as null, and so are [12] and
    [12%], the text the host writes for 0.12.  The renderings the digits [12]
    are compared with are those of 12 as a percentage, [1,200%] and
    [1200%]. *)
Theorem ungrouped_digits_rejected_by_percent :
  constructor en_host (options_of "en" NumberFormatStyle.Percent None None)
  = Normal en_Percent
  /\ parse en_host utils_escapeRegExp en_Percent (Some (u "1,234")) = Normal None
  /\ parse en_host utils_escapeRegExp en_Percent (Some (u "1234")) = Normal None
  /\ parse en_host utils_escapeRegExp en_Percent (Some (u "1,234%")) = Normal None
  /\ parse en_host utils_escapeRegExp en_Percent (Some (u "1234%")) = Normal None
  /\ format en_host en_Percent (Some (Table.Finite false 12 2)) None = Normal (u "12%")
  /\ parse en_host utils_escapeRegExp en_Percent (Some (u "12%")) = Normal None
  /\ parse en_host utils_escapeRegExp en_Percent (Some (u "12")) = Normal None
  /\ renderings en_host en_Percent (Table.Finite false 12 0) = [u "1,200%"; u "1200%"].
Proof. repeat split; vm_compute; reflexivity. Qed.

(** X24.  For every host and every profile with a grouping symbol,
    [parse] returns null on a text whose integer part is neither the grouped
    nor the ungrouped rendering the host gives for the integer read from it.
    On every locale table with ten consecutive digit glyphs (the ASCII digits
    or glyphs beyond ASCII), separators of one code unit and symbols that do
    not interfere, for every style other than percent and every integer below
    2^53, [parse] accepts the grouped and the ungrouped rendering and returns
    null on every other placement of grouping symbols among the same digits;
    in the decimal profile of [en], [1,234] reads as 1234 and [1,23,4] as
    null. *)
Theorem grouping_validation :
  (forall (H : Host) (this : NumberFormat) (c : char) (s g : jsstring),
      groupingSymbol this = Some g ->
      (forall m1 m2,
          exec_number (fraction_pattern this)
            (replace_g (affix_stripped this (c :: s)) g []) = Some (m1, m2) ->
          ~ In (integer_portion this (affix_stripped this (c :: s)))
               (renderings H this (Number H m1))) ->
      parse H utils_escapeRegExp this (Some (c :: s)) = Normal None)
  /\ (forall (z g d : char) (mn pc : jsstring) (knows : NumberFormatStyle.t -> bool)
        (o : NumberInputOptions) (this : NumberFormat) (q : N),
        formatStyle o <> NumberFormatStyle.Percent ->
        separated z g d mn (host_prefix (formatStyle o) (opt_currency o))
          (host_suffix (formatStyle o) (opt_unit o)) ->
        constructor (Table.host (digit_table z g d mn pc knows)) o = Normal this ->
        (q < 2 ^ 53)%N ->
        let H := Table.host (digit_table z g d mn pc knows) in
        let cs := host_prefix (formatStyle o) (opt_currency o) in
        let us := host_suffix (formatStyle o) (opt_unit o) in
        (forall grouping : bool,
            parse H utils_escapeRegExp this
              (Some (table_text z g d mn cs us false q None grouping))
            = Normal (Some (Table.Finite false q 0)))
        /\ (forall s : jsstring,
              forallb (fun c => is_digit c || N.eqb c g) s = true ->
              filter (fun c => negb (N.eqb g c)) s = decimal_digits q ->
              s <> grouped [g] (decimal_digits q) ->
              s <> decimal_digits q ->
              parse H utils_escapeRegExp this (Some (cs ++ localized z s ++ us))
              = Normal None))
  /\ parse en_host utils_escapeRegExp en_Decimal (Some (u "1,234"))
     = Normal (Some (Table.Finite false 1234 0))
  /\ parse en_host utils_escapeRegExp en_Decimal (Some (u "1,23,4")) = Normal None.
Proof.
  split; [|split; [|split; vm_compute; reflexivity]].
  - intros H this c s g Hg Hno.
    exact (parse_rejects H utils_escapeRegExp this c s g Hg utils_escapeRegExp_escapes Hno).
  - intros z g d mn pc knows o this q Hs Hsep Hctor Hq H cs us.
    apply (constructor_table z g d mn pc knows o this Hs) in Hctor. subst this.
    set (P := table_profile z g d mn o).
    pose proof (table_profile_shape z g d mn o Hs) as Hb. cbn zeta in Hb.
    fold P us in Hb. destruct Hb as [_ [Hdec Hsuf]].
    assert (O : (q < Table.OVERFLOW)%N)
      by (apply (N.lt_trans _ (2 ^ 53)); [assumption | reflexivity]).
    assert (Hfr : forall f : jsstring, @None jsstring = Some f -> forallb is_digit f = true)
      by discriminate.
    assert (Hdec' : decimalSymbol P = Some [d]
                    \/ (decimalSymbol P = None /\ @None jsstring = None)).
    { destruct Hdec as [E | [E _]]; [now left | now right]. }
    split.
    + intros grouping. unfold H.
      rewrite (table_parse_text z g d mn pc cs us knows P Hsep eq_refl eq_refl eq_refl eq_refl
                 eq_refl Hsuf Hs eq_refl eq_refl q None grouping Hfr Hdec' false O).
      do 2 f_equal.
      rewrite (StringToNumber_literal false (decimal_digits q) []);
        [| apply decimal_digits_nonempty | apply decimal_digits_digits | reflexivity].
      rewrite app_nil_r, decimal_digits_value. cbn [length N.of_nat].
      change (10 ^ 0)%N with 1%N. rewrite N.mul_1_r.
      apply N.leb_gt in O. rewrite O. reflexivity.
    + intros s Hd Hf Hg Hu. unfold H.
      exact (table_parse_wrong_grouping z g d mn pc cs us knows P Hsep eq_refl eq_refl eq_refl
               eq_refl eq_refl Hsuf Hs eq_refl eq_refl q None Hfr Hdec' s O Hd Hf Hg Hu).
Qed.

Lemma grouping_validation_witness :
  table_text ZERO COMMA PERIOD [HYPHEN] [EURO] [] false 1234567 None true
  = EURO :: u "1,234,567"
  /\ parse en_host utils_escapeRegExp en_EUR (Some (EURO :: u "1,234,567"))
     = Normal (Some (Table.Finite false 1234567 0))
  /\ parse en_host utils_escapeRegExp en_EUR (Some (EURO :: u "1234567"))
     = Normal (Some (Table.Finite false 1234567 0))
  /\ parse en_host utils_escapeRegExp en_EUR (Some (EURO :: u "12,34,567")) = Normal None.
Proof.
  split; [vm_compute; reflexivity|].
  destruct (proj1 (proj2 grouping_validation) ZERO COMMA PERIOD [HYPHEN] [PERCENT_SIGN]
              (fun _ => true)
              (options_of "en" NumberFormatStyle.Currency (Some "EUR"%string) None) en_EUR
              1234567%N ltac:(discriminate) separated_en_EUR ltac:(vm_compute; reflexivity)
              ltac:(reflexivity)) as [A R].
  split; [exact (A true)|]. split; [exact (A false)|].
  exact (R (u "12,34,567") ltac:(reflexivity) ltac:(vm_compute; reflexivity)
           ltac:(vm_compute; discriminate) ltac:(vm_compute; discriminate)).
Defined.

(* ================================================================== *)
(** * Further properties of the helpers *)

(** ** Inserting and stripping affixes *)

Lemma search_skips (a pat rest : jsstring) (p0 : char) :
  ~ In p0 a ->
  search (p0 :: pat) (a ++ p0 :: pat ++ rest) = Some (a, rest).
Proof.
  induction a as [|c a IH]; intros Ha.
  - cbn [app]. apply (search_at_start (p0 :: pat) rest).
  - assert (Hc : N.eqb p0 c = false) by (apply N.eqb_neq; intros ->; apply Ha; now left).
    cbn [app search startsWith]. rewrite Hc. cbn [andb].
    rewrite IH; [reflexivity|]. intros Hin. apply Ha. now right.
Qed.

Lemma replace_head_absent_text (text affix rep : jsstring) :
  affix <> [] -> head_absent affix text -> replace text affix rep = text.
Proof.
  destruct affix as [|c affix]; [congruence|]. intros _ Ha.
  apply replace_head_absent. now apply forallb_excludes_In.
Qed.

Lemma remove_head_absent (text affix : jsstring) :
  head_absent affix text -> replace text affix [] = text.
Proof.
  destruct affix as [|c affix]; [intros _; apply replace_nil_nil|].
  intros Ha. now apply replace_head_absent_text.
Qed.

Lemma remove_at_end (body affix : jsstring) :
  head_absent affix body -> replace (body ++ affix) affix [] = body.
Proof.
  destruct affix as [|c affix]; intros Ha.
  - rewrite app_nil_r. apply replace_nil_nil.
  - apply replace_at_end. now apply forallb_excludes_In.
Qed.

(** X1. [stripPrefixOrSuffix] undoes [insertPrefixOrSuffix] on every text that
    is free of the first code units of the affixes still to be searched: of
    the negative prefix (for a text inserted as non-negative), of the prefix
    (for one inserted as negative) and of the suffix. *)
Theorem stripPrefixOrSuffix_insertPrefixOrSuffix (this : NumberFormat) (s : jsstring)
  (negative : bool) :
  (negative = false ->
   negativePrefix this <> []
   /\ head_absent (negativePrefix this) (prefix this ++ s ++ suffix this)) ->
  (negative = true -> head_absent (prefix this) (s ++ suffix this)) ->
  head_absent (suffix this) s ->
  stripPrefixOrSuffix this (insertPrefixOrSuffix this s negative) = s.
Proof.
  intros Hn Hp Hs. unfold stripPrefixOrSuffix, insertPrefixOrSuffix.
  destruct negative.
  - rewrite replace_at_start. rewrite (remove_head_absent _ _ (Hp eq_refl)).
    now apply remove_at_end.
  - destruct (Hn eq_refl) as [Hne Ha].
    rewrite (replace_head_absent_text _ _ [] Hne Ha).
    rewrite replace_at_start. now apply remove_at_end.
Qed.

Lemma stripPrefixOrSuffix_insertPrefixOrSuffix_witness :
  insertPrefixOrSuffix en_EUR (u "1,234.50") true = [HYPHEN; EURO] ++ u "1,234.50"
  /\ stripPrefixOrSuffix en_EUR (insertPrefixOrSuffix en_EUR (u "1,234.50") true)
     = u "1,234.50"
  /\ stripPrefixOrSuffix en_EUR (insertPrefixOrSuffix en_EUR (u "1,234.50") false)
     = u "1,234.50".
Proof.
  split; [reflexivity|]. split.
  - apply (stripPrefixOrSuffix_insertPrefixOrSuffix en_EUR (u "1,234.50") true).
    + discriminate.
    + intros _. vm_compute. intuition discriminate.
    + exact I.
  - apply (stripPrefixOrSuffix_insertPrefixOrSuffix en_EUR (u "1,234.50") false).
    + intros _. split; [discriminate|]. vm_compute. intuition discriminate.
    + discriminate.
    + exact I.
Defined.

(** X2. The sign survives the insertion of the affixes: a text inserted as
    negative is recognised as negative, whatever the text; one inserted as
    non-negative is not, when it has no ASCII hyphen and is free of the first
    code units of the negative prefix and of the minus symbol. *)
Theorem isNegative_insertPrefixOrSuffix (this : NumberFormat) (s : jsstring)
  (negative : bool) :
  (negative = false ->
   let text := prefix this ++ s ++ suffix this in
   negativePrefix this <> [] /\ head_absent (negativePrefix this) text
   /\ ToString (minusSymbol this) <> [] /\ head_absent (ToString (minusSymbol this)) text
   /\ ~ In HYPHEN text) ->
  isNegative this (insertPrefixOrSuffix this s negative) = negative.
Proof.
  intros Hn. unfold isNegative, insertPrefixOrSuffix. destruct negative.
  - now rewrite startsWith_app.
  - destruct (Hn eq_refl) as [Hne [Ha [Hme [Hm Hh]]]]. cbn zeta in *.
    set (text := prefix this ++ s ++ suffix this) in *.
    rewrite (replace_head_absent text [] _ HYPHEN (forallb_excludes_In _ _ Hh)).
    destruct (negativePrefix this) as [|n0 np]; [congruence|].
    destruct (ToString (minusSymbol this)) as [|m0 ms]; [congruence|].
    rewrite (startsWith_head_absent text np n0 (forallb_excludes_In _ _ Ha)).
    now rewrite (startsWith_head_absent text ms m0 (forallb_excludes_In _ _ Hm)).
Qed.

Lemma isNegative_insertPrefixOrSuffix_witness :
  isNegative en_EUR (insertPrefixOrSuffix en_EUR (u "1,234.50") true) = true
  /\ isNegative en_EUR (insertPrefixOrSuffix en_EUR (u "1,234.50") false) = false.
Proof.
  split.
  - apply (isNegative_insertPrefixOrSuffix en_EUR (u "1,234.50") true). discriminate.
  - apply (isNegative_insertPrefixOrSuffix en_EUR (u "1,234.50") false).
    intros _. cbn zeta. repeat split; try discriminate; vm_compute; intuition discriminate.
Defined.

(** ** The ASCII hyphen as minus sign *)

Lemma replace_hyphen (a b ms : jsstring) :
  ~ In HYPHEN a -> existsb (N.eqb DOLLAR) ms = false ->
  replace (a ++ HYPHEN :: b) [HYPHEN] ms = a ++ ms ++ b.
Proof.
  intros Ha Hd.
  pose proof (search_skips a [] b HYPHEN Ha) as S. cbn [app] in S.
  now destruct (replace_first _ _ ms a b S Hd) as [_ ->].
Qed.

(** X3. A text that starts with the ASCII hyphen is negative in every profile
    whose minus symbol has no dollar sign, also when the locale writes another
    minus sign or the profile has none. *)
Theorem isNegative_leading_hyphen (this : NumberFormat) (s : jsstring) :
  existsb (N.eqb DOLLAR) (ToString (minusSymbol this)) = false ->
  isNegative this (HYPHEN :: s) = true.
Proof.
  intros Hd. unfold isNegative.
  pose proof (replace_hyphen [] s _ (fun F : In HYPHEN [] => F) Hd) as R. cbn [app] in R.
  rewrite R, startsWith_app. apply orb_true_r.
Qed.

Lemma isNegative_leading_hyphen_witness :
  isNegative ar_Decimal (HYPHEN :: localized ARABIC_ZERO (u "12")) = true.
Proof.
  apply (isNegative_leading_hyphen ar_Decimal (localized ARABIC_ZERO (u "12"))).
  reflexivity.
Defined.

(** X4. [stripMinusSymbol] removes the first ASCII hyphen of a text, wherever
    it stands, when the text before it is free of the first code unit of the
    minus symbol; a text without hyphen and without that code unit is kept. *)
Theorem stripMinusSymbol_first_hyphen (this : NumberFormat) (a b : jsstring) :
  existsb (N.eqb DOLLAR) (ToString (minusSymbol this)) = false ->
  ~ In HYPHEN a ->
  head_absent (ToString (minusSymbol this)) a ->
  stripMinusSymbol this (a ++ HYPHEN :: b) = a ++ b
  /\ (ToString (minusSymbol this) <> [] -> stripMinusSymbol this a = a).
Proof.
  intros Hd Hh Hm. unfold stripMinusSymbol. split.
  - rewrite (replace_hyphen a b _ Hh Hd).
    destruct (ToString (minusSymbol this)) as [|m0 ms].
    + cbn [app]. apply replace_nil_nil.
    + change ((m0 :: ms) ++ b) with (m0 :: ms ++ b).
      unfold replace. rewrite (search_skips a ms b m0 Hm). cbn [GetSubstitution app].
      reflexivity.
  - intros Hne.
    rewrite (replace_head_absent a [] _ HYPHEN (forallb_excludes_In _ _ Hh)).
    now apply replace_head_absent_text.
Qed.

Lemma stripMinusSymbol_first_hyphen_witness :
  stripMinusSymbol ar_Decimal (HYPHEN :: u "12") = u "12"
  /\ stripMinusSymbol en_Decimal (u "1-2") = u "12"
  /\ stripMinusSymbol en_Decimal (u "12") = u "12".
Proof.
  split; [|split].
  - apply (stripMinusSymbol_first_hyphen ar_Decimal [] (u "12")); 
      [reflexivity | intros [] | intros []].
  - apply (stripMinusSymbol_first_hyphen en_Decimal (u "1") (u "2"));
      [reflexivity | vm_compute; intuition discriminate | vm_compute; intuition discriminate].
  - apply (stripMinusSymbol_first_hyphen en_Decimal (u "12") []);
      [reflexivity | vm_compute; intuition discriminate | vm_compute; intuition discriminate
      | discriminate].
Defined.

(** ** Digit glyphs *)

Lemma unglyph_idempotent (z c : char) :
  z = ZERO \/ (128 <= z)%N -> unglyph z (unglyph z c) = unglyph z c.
Proof.
  intros Hz. destruct (is_glyph z c) eqn:E.
  - assert (U : unglyph z c = (ZERO + (c - z))%N) by (unfold unglyph; now rewrite E).
    rewrite U. unfold is_glyph in E. apply andb_true_iff in E as [A B].
    apply N.leb_le in A, B. unfold unglyph, is_glyph, ZERO. destruct Hz as [-> | Hz].
    + unfold ZERO in *. replace (48 + (c - 48))%N with c by lia.
      replace (48 <=? c)%N with true by (symmetry; apply N.leb_le; lia).
      replace (c <=? 48 + 9)%N with true by (symmetry; apply N.leb_le; lia).
      cbn [andb]. lia.
    + replace (z <=? 48 + (c - z))%N with false by (symmetry; apply N.leb_gt; lia).
      reflexivity.
  - assert (U : unglyph z c = c) by (unfold unglyph; now rewrite E).
    now rewrite !U.
Qed.

(** X5. In a profile whose digits are ten consecutive glyphs (the ASCII digits,
    or glyphs beyond ASCII), [normalizeDigits] writes every glyph as the ASCII
    digit it stands for and keeps every other code unit; it is idempotent and
    reads an ASCII digit string back from its glyphs. *)
Theorem normalizeDigits_reads_glyphs (this : NumberFormat) (z : char) (s : jsstring) :
  digits this = glyphs z -> z = ZERO \/ (128 <= z)%N ->
  normalizeDigits this s = map (unglyph z) s
  /\ normalizeDigits this (normalizeDigits this s) = normalizeDigits this s
  /\ (forallb is_digit s = true -> normalizeDigits this (localized z s) = s).
Proof.
  intros Hd Hz. rewrite !(normalizeDigits_glyphs this z _ Hd Hz). split; [reflexivity|]. split.
  - rewrite map_map. apply map_ext. intros c. now apply unglyph_idempotent.
  - intros Hs. destruct Hz as [-> | Hz].
    + now rewrite unglyph_latin, localized_latin.
    + apply unglyph_localized; [assumption|]. intros c Hc. left.
      rewrite forallb_forall in Hs. now apply Hs.
Qed.

Lemma normalizeDigits_reads_glyphs_witness :
  normalizeDigits ar_Decimal ([1633; ARABIC_THOUSANDS; 1634; 1635; 1636] ++ u " 7")%N
  = map (unglyph ARABIC_ZERO) ([1633; ARABIC_THOUSANDS; 1634; 1635; 1636] ++ u " 7")%N
  /\ map (unglyph ARABIC_ZERO) ([1633; ARABIC_THOUSANDS; 1634; 1635; 1636] ++ u " 7")%N
     = (u "1" ++ [ARABIC_THOUSANDS] ++ u "234 7")%N.
Proof.
  split; [|reflexivity].
  assert (Hd : digits ar_Decimal = glyphs ARABIC_ZERO) by reflexivity.
  assert (Hz : (128 <= ARABIC_ZERO)%N) by discriminate.
  pose proof (normalizeDigits_reads_glyphs ar_Decimal ARABIC_ZERO
                ([1633; ARABIC_THOUSANDS; 1634; 1635; 1636] ++ u " 7")%N Hd
                (or_intror Hz)) as P.
  destruct P as [P _]. exact P.
Defined.

Lemma glyph_class (z c : char) :
  existsb (N.eqb c) (join (glyphs z)) = is_glyph z c.
Proof.
  apply eq_true_iff_eq. unfold is_glyph. rewrite existsb_exists, andb_true_iff, !N.leb_le.
  unfold glyphs, join. split.
  - intros [x [Hx E]]. apply N.eqb_eq in E. subst x.
    apply in_concat in Hx as [l [Hl Hc]]. apply in_map_iff in Hl as [i [<- Hi]].
    apply in_seq in Hi. destruct Hc as [<-|[]]. lia.
  - intros [A B]. exists c. split; [|apply N.eqb_refl].
    apply in_concat. exists [c]. split; [|now left].
    apply in_map_iff. exists (N.to_nat (c - z)). split.
    + f_equal. lia.
    + apply in_seq. lia.
Qed.

(** X6. In a profile whose digits are ten consecutive glyphs (the ASCII digits,
    or glyphs beyond ASCII), [onlyLocaleDigits] keeps the glyphs of the text
    and nothing else; when the glyphs lie beyond ASCII, a text of ASCII digits
    is emptied. *)
Theorem onlyLocaleDigits_keeps_glyphs (this : NumberFormat) (z : char) (s : jsstring) :
  digits this = glyphs z -> z = ZERO \/ (128 <= z)%N ->
  onlyLocaleDigits this s = filter (is_glyph z) s
  /\ ((128 <= z)%N -> forallb is_digit s = true -> onlyLocaleDigits this s = []).
Proof.
  intros Hd _.
  assert (E : onlyLocaleDigits this s = filter (is_glyph z) s).
  { unfold onlyLocaleDigits. rewrite Hd. apply filter_ext. intros c. apply glyph_class. }
  split; [exact E|]. intros Hz Hs. rewrite E. clear E.
  induction s as [|c s IH]; [reflexivity|].
  cbn [forallb] in Hs. apply andb_true_iff in Hs as [Hc Hs]. cbn [filter].
  replace (is_glyph z c) with false; [now apply IH|].
  symmetry. apply is_digit_range in Hc. unfold is_glyph.
  apply andb_false_iff. left. apply N.leb_gt. lia.
Qed.

Lemma onlyLocaleDigits_keeps_glyphs_witness :
  onlyLocaleDigits ar_Decimal (u "12") = []
  /\ onlyLocaleDigits ar_Decimal ([1633; ARABIC_THOUSANDS; 1634] ++ u "7")%N = [1633; 1634]%N.
Proof.
  assert (Hd : digits ar_Decimal = glyphs ARABIC_ZERO) by reflexivity.
  assert (Hz : (128 <= ARABIC_ZERO)%N) by discriminate.
  split.
  - pose proof (onlyLocaleDigits_keeps_glyphs ar_Decimal ARABIC_ZERO (u "12") Hd
                  (or_intror Hz)) as P.
    destruct P as [_ P]. exact (P Hz eq_refl).
  - pose proof (onlyLocaleDigits_keeps_glyphs ar_Decimal ARABIC_ZERO
                  ([1633; ARABIC_THOUSANDS; 1634] ++ u "7")%N Hd (or_intror Hz)) as P.
    destruct P as [P _]. rewrite P. reflexivity.
Defined.

(** X7. The result of [onlyDigits] is made of ASCII digits, whatever the
    profile.  In a profile whose digits are ten consecutive glyphs (the ASCII
    digits, or glyphs beyond ASCII), it is the text with its glyphs read as
    digits and every code unit that is no digit removed; [onlyDigits] keeps a
    text of ASCII digits and is idempotent. *)
Theorem onlyDigits_ascii (this : NumberFormat) (z : char) (s : jsstring) :
  forallb is_digit (onlyDigits this s) = true
  /\ (digits this = glyphs z -> z = ZERO \/ (128 <= z)%N ->
      onlyDigits this s = filter is_digit (map (unglyph z) s)
      /\ (forallb is_digit s = true -> onlyDigits this s = s)
      /\ onlyDigits this (onlyDigits this s) = onlyDigits this s).
Proof.
  split; [apply onlyDigits_all|]. intros Hd Hz.
  pose proof (glyphs_are_foreign this z Hd Hz) as Hg. split; [|split].
  - unfold onlyDigits. now rewrite (normalizeDigits_glyphs this z s Hd Hz).
  - now apply onlyDigits_digits.
  - apply onlyDigits_digits; [assumption | apply onlyDigits_all].
Qed.

Lemma onlyDigits_ascii_witness :
  onlyDigits ar_Decimal ([1633; ARABIC_THOUSANDS; 1634] ++ u "7")%N = u "127"
  /\ onlyDigits ar_Decimal (onlyDigits ar_Decimal ([1633; ARABIC_THOUSANDS; 1634] ++ u "7")%N)
     = onlyDigits ar_Decimal ([1633; ARABIC_THOUSANDS; 1634] ++ u "7")%N.
Proof.
  split; [reflexivity|].
  assert (Hd : digits ar_Decimal = glyphs ARABIC_ZERO) by reflexivity.
  assert (Hz : (128 <= ARABIC_ZERO)%N) by discriminate.
  pose proof (onlyDigits_ascii ar_Decimal ARABIC_ZERO
                ([1633; ARABIC_THOUSANDS; 1634] ++ u "7")%N) as P.
  destruct P as [_ P]. destruct (P Hd (or_intror Hz)) as [_ [_ Q]]. exact Q.
Defined.

(** ** The affixes of a constructed profile *)

Lemma slice_before {A} (pre post : list A) :
  slice (pre ++ post) 0 (Some (Z.of_nat (length pre))) = pre.
Proof.
  unfold slice. rewrite length_app.
  replace (0 <? 0)%Z with false by reflexivity.
  replace (Z.of_nat (length pre) <? 0)%Z with false by (symmetry; apply Z.ltb_ge; lia).
  replace (Z.min 0 (Z.of_nat (length pre + length post))) with 0%Z by lia.
  replace (Z.min (Z.of_nat (length pre)) (Z.of_nat (length pre + length post)))
    with (Z.of_nat (length pre)) by lia.
  change (Z.to_nat 0) with 0. cbn [skipn].
  replace (Z.to_nat (Z.max (Z.of_nat (length pre) - 0) 0)) with (length pre) by lia.
  apply firstn_length_app.
Qed.

Lemma slice_before_tail {A} (pre post : list A) (x : A) :
  slice (pre ++ x :: post) 1 (Some (Z.of_nat (length pre))) = tl pre.
Proof.
  unfold slice. rewrite length_app. cbn [length].
  replace (1 <? 0)%Z with false by reflexivity.
  replace (Z.of_nat (length pre) <? 0)%Z with false by (symmetry; apply Z.ltb_ge; lia).
  replace (Z.min 1 (Z.of_nat (length pre + S (length post)))) with 1%Z by lia.
  replace (Z.min (Z.of_nat (length pre)) (Z.of_nat (length pre + S (length post))))
    with (Z.of_nat (length pre)) by lia.
  change (Z.to_nat 1) with 1.
  destruct pre as [|y pre]; [reflexivity|]. cbn [length app skipn tl].
  replace (Z.to_nat (Z.max (Z.of_nat (S (length pre)) - 1) 0)) with (length pre) by lia.
  apply firstn_length_app.
Qed.

(** X8. Whatever the host, the negative prefix of a constructed profile is the
    text of the parts of the probe before its first integer part, and the
    prefix is that text without its first part, whatever the type of that part
    (the minus sign, in the probes of the usual locales). *)
Theorem constructor_prefixes (H : Host) (options : NumberInputOptions)
  (this : NumberFormat) (numberFormat : numberFormat H) (before after : list Part)
  (int : Part) :
  Intl_NumberFormat H (opt_locale options)
    {| o_style := Some (formatStyle options); o_currency := opt_currency options;
       o_unit := opt_unit options; o_minimumFractionDigits := None;
       o_maximumFractionDigits := None; o_useGrouping := None |} = Normal numberFormat ->
  formatToParts H numberFormat (PROBE H) = before ++ int :: after ->
  forallb (fun part => negb (is_type PartType.integer part)) before = true ->
  is_type PartType.integer int = true ->
  constructor H options = Normal this ->
  negativePrefix this = join (map value before)
  /\ prefix this = join (map value (tl before)).
Proof.
  intros Hnf Hparts Hbefore Hint. unfold constructor. rewrite Hnf. cbn [bind].
  intros [= <-]. cbn [negativePrefix prefix]. rewrite Hparts.
  rewrite (findIndex_first _ before after int Hbefore Hint).
  now rewrite slice_before, slice_before_tail.
Qed.

Lemma constructor_prefixes_witness :
  negativePrefix en_EUR = [HYPHEN; EURO] /\ prefix en_EUR = [EURO].
Proof.
  exact (constructor_prefixes en_host
           (options_of "en" NumberFormatStyle.Currency (Some "EUR"%string) None) en_EUR
           {| o_style := Some NumberFormatStyle.Currency; o_currency := Some (u "EUR");
              o_unit := None; o_minimumFractionDigits := None;
              o_maximumFractionDigits := None; o_useGrouping := None |}
           [ {| type := PartType.minusSign; value := [HYPHEN] |};
             {| type := PartType.currency; value := [EURO] |} ]
           [ {| type := PartType.group; value := [COMMA] |};
             {| type := PartType.integer; value := u "456" |};
             {| type := PartType.decimal; value := [PERIOD] |};
             {| type := PartType.fraction; value := u "77" |} ]
           {| type := PartType.integer; value := u "123" |}
           ltac:(vm_compute; reflexivity) ltac:(vm_compute; reflexivity)
           eq_refl eq_refl ltac:(vm_compute; reflexivity)).
Defined.

(** ** Canonical digit strings *)

(** The integer group of the number pattern is [0] or starts with another
    digit. *)
Lemma exec_number_head (dec : option jsstring) (str m1 : jsstring) (m2 : option jsstring) :
  exec_number dec str = Some (m1, m2) ->
  m1 = [ZERO] \/ exists c r, m1 = c :: r /\ c <> ZERO.
Proof.
  unfold exec_number. destruct str as [|c s']; [discriminate|].
  destruct (N.eqb c ZERO) eqn:Ez.
  - destruct (exec_fraction dec s'); [|discriminate]. intros [= <- _].
    apply N.eqb_eq in Ez. left. now subst.
  - destruct (is_digit c); [|discriminate]. intros Hr.
    apply exec_runs_Some in Hr as [j [_ [-> _]]]. right.
    exists c, (firstn j s'). split; [reflexivity|]. now apply N.eqb_neq.
Qed.

Lemma digits_same (a : jsstring) :
  forall b : jsstring,
    length a = length b ->
    forallb is_digit a = true -> forallb is_digit b = true ->
    Table.digits_value a = Table.digits_value b -> a = b.
Proof.
  induction a as [|x a IH]; intros [|y b] Hl Ha Hb Hv; try discriminate; [reflexivity|].
  cbn [length] in Hl. injection Hl as Hl.
  cbn [forallb] in Ha, Hb. apply andb_true_iff in Ha as [Hx Ha], Hb as [Hy Hb].
  rewrite !digits_value_cons, <- Hl in Hv.
  pose proof (digits_value_bound a Ha) as Ba. pose proof (digits_value_bound b Hb) as Bb.
  rewrite <- Hl in Bb. apply is_digit_range in Hx, Hy. unfold ZERO in Hv.
  set (P := (10 ^ N.of_nat (length a))%N) in *.
  set (va := Table.digits_value a) in *. set (vb := Table.digits_value b) in *.
  assert (E : x = y /\ va = vb).
  { clearbody P va vb. destruct (N.lt_total x y) as [L|[E|L]].
    - exfalso. assert ((x - 48) + 1 <= y - 48)%N by lia. nia.
    - split; [assumption|]. subst. lia.
    - exfalso. assert ((y - 48) + 1 <= x - 48)%N by lia. nia. }
  destruct E as [-> E]. f_equal. now apply IH.
Qed.

(** A digit string without leading zero is the decimal writing of its value. *)
Lemma canonical_digits (m : jsstring) :
  forallb is_digit m = true ->
  m = [ZERO] \/ (exists c r, m = c :: r /\ c <> ZERO) ->
  decimal_digits (Table.digits_value m) = m.
Proof.
  intros Hm [-> | [c [r [-> Hc]]]]; [reflexivity|].
  set (n := Table.digits_value (c :: r)).
  destruct (decimal_digits_spec n) as [c' [ds [E [Hd [Hv Hh]]]]]. rewrite E.
  pose proof Hm as Hm'. cbn [forallb] in Hm'. apply andb_true_iff in Hm' as [Hcd Hr].
  pose proof (digits_value_lower c r Hcd Hc) as Lo. fold n in Lo.
  pose proof (digits_value_bound (c :: r) Hm) as Up. fold n in Up.
  destruct Hh as [[Hn _] | [Hn Hc']].
  - exfalso. assert (0 < 10 ^ N.of_nat (length r))%N
      by (apply N.neq_0_lt_0, N.pow_nonzero; discriminate). lia.
  - pose proof Hd as Hd'. cbn [forallb] in Hd'. apply andb_true_iff in Hd' as [Hcd' Hds].
    pose proof (digits_value_lower c' ds Hcd' Hc') as Lo'. rewrite Hv in Lo'.
    pose proof (digits_value_bound (c' :: ds) Hd) as Up'. rewrite Hv in Up'.
    assert (L : length ds = length r).
    { cbn [length] in Up, Up'.
      destruct (Nat.lt_trichotomy (length ds) (length r)) as [Lt|[Eq|Gt]]; [exfalso|assumption|exfalso].
      - assert (10 ^ N.of_nat (S (length ds)) <= 10 ^ N.of_nat (length r))%N
          by (apply N.pow_le_mono_r; lia). lia.
      - assert (10 ^ N.of_nat (S (length r)) <= 10 ^ N.of_nat (length ds))%N
          by (apply N.pow_le_mono_r; lia). lia. }
    apply digits_same; [cbn [length]; lia | assumption | assumption | exact Hv].
Qed.

(** ** Texts around the decimal symbol *)

Lemma split_head_cases (b : jsstring) (d : char) :
  (forallb (fun c => negb (N.eqb d c)) b = true /\ split_head b [d] = b)
  \/ (exists pre rest, b = pre ++ d :: rest
        /\ forallb (fun c => negb (N.eqb d c)) pre = true
        /\ split_head b [d] = pre).
Proof.
  induction b as [|c b IH].
  - left. split; reflexivity.
  - destruct (N.eqb d c) eqn:E.
    + apply N.eqb_eq in E. subst c. right. exists [], b. repeat split.
      unfold split_head. cbn [search startsWith]. now rewrite N.eqb_refl.
    + destruct IH as [[Hb Hs] | [pre [rest [Eb [Hpre Hs]]]]].
      * left. split; [cbn [forallb]; now rewrite E, Hb|].
        unfold split_head. rewrite (search_unit_absent d (c :: b)); [reflexivity|].
        cbn [forallb]. now rewrite E, Hb.
      * right. exists (c :: pre), rest. subst b. repeat split.
        -- cbn [forallb]. now rewrite E, Hpre.
        -- unfold split_head.
           pose proof (search_unit d (c :: pre) rest) as S. cbn [app] in S.
           rewrite S; [reflexivity|].
           cbn [forallb]. now rewrite E, Hpre.
Qed.

Lemma body_plain (g d : char) (b : jsstring) :
  forallb (fun c => is_digit c || N.eqb c g || N.eqb c d) b = true -> plain_text g d b.
Proof.
  intros Hb p Hp Hg Hd. rewrite forallb_forall in Hb. apply forallb_forall.
  intros c Hc. specialize (Hb c Hc). apply negb_true_iff, N.eqb_neq. intros <-.
  rewrite Hp in Hb. cbn [orb] in Hb. apply orb_true_iff in Hb as [E|E];
    apply N.eqb_eq in E; congruence.
Qed.

(** Among digits and grouping symbols, the digits are what is left without the
    grouping symbols. *)
Lemma filter_digits_grouping (g : char) (r : jsstring) :
  is_digit g = false ->
  forallb (fun c => is_digit c || N.eqb c g) r = true ->
  filter is_digit r = filter (fun c => negb (N.eqb g c)) r
  /\ forallb is_digit (filter (fun c => negb (N.eqb g c)) r) = true.
Proof.
  intros Hg. induction r as [|c r IH]; [split; reflexivity|].
  cbn [forallb]. intros Hr. apply andb_true_iff in Hr as [Hc Hr].
  destruct (IH Hr) as [E F]. cbn [filter].
  destruct (N.eqb g c) eqn:Egc.
  - apply N.eqb_eq in Egc. subst c. rewrite Hg. cbn [negb]. now split.
  - destruct (is_digit c) eqn:Ed.
    + cbn [negb forallb]. rewrite Ed, E. now split.
    + cbn [orb] in Hc. apply N.eqb_eq in Hc. subst c. now rewrite N.eqb_refl in Egc.
Qed.

(** A text of digits and separators whose units other than the grouping
    symbol are digits has no decimal symbol. *)
Lemma digits_after_filter (g d : char) (r : jsstring) :
  is_digit d = false -> g <> d ->
  forallb (fun c => is_digit c || N.eqb c g || N.eqb c d) r = true ->
  forallb is_digit (filter (fun c => negb (N.eqb g c)) r) = true ->
  forallb (fun c => is_digit c || N.eqb c g) r = true.
Proof.
  intros Hd Hgd. induction r as [|c r IH]; [reflexivity|].
  cbn [forallb filter]. intros Hr Hf. apply andb_true_iff in Hr as [Hc Hr].
  destruct (N.eqb g c) eqn:Egc.
  - apply N.eqb_eq in Egc. subst c. rewrite N.eqb_refl, orb_true_r. cbn [andb negb] in *.
    now apply IH.
  - cbn [negb forallb] in Hf. apply andb_true_iff in Hf as [Hcd Hf].
    rewrite Hcd. cbn [orb andb]. now apply IH.
Qed.

(** Filtering twice keeps no more than filtering once. *)
Lemma filter_filter_length {A} (p q : A -> bool) (l : list A) :
  length (filter p (filter q l)) <= length (filter p l).
Proof.
  induction l as [|x l IH]; [reflexivity|]. cbn [filter].
  destruct (q x); cbn [filter]; destruct (p x); cbn [length]; lia.
Qed.

Lemma filter_all {A} (p : A -> bool) (l : list A) :
  forallb p l = true -> filter p l = l.
Proof.
  induction l as [|x l IH]; [reflexivity|]. cbn [forallb filter].
  intros Hp. apply andb_true_iff in Hp as [-> Hp]. now rewrite IH.
Qed.

(** ** Digit tables: the texts [parse] accepts *)

Lemma overflow_beyond_308 (m : jsstring) :
  forallb is_digit m = true -> length m <= 308 ->
  (Table.digits_value m < Table.OVERFLOW)%N.
Proof.
  intros Hm Hl. pose proof (digits_value_bound m Hm) as B.
  assert (P : (10 ^ N.of_nat (length m) <= 10 ^ 308)%N) by (apply N.pow_le_mono_r; lia).
  assert (O : (10 ^ 308 < Table.OVERFLOW)%N) by reflexivity.
  lia.
Qed.

Section TableAccept.

Variables (z g d : char) (mn pc cs us : jsstring) (knows : NumberFormatStyle.t -> bool).
Variable this : NumberFormat.

Hypothesis Hsep : separated z g d mn cs us.
Hypothesis Hdigits : digits this = glyphs z.
Hypothesis Hgroup : groupingSymbol this = Some [g].
Hypothesis Hminus : minusSymbol this = Some mn.
Hypothesis Hprefix : prefix this = cs.
Hypothesis Hnegative : negativePrefix this = mn ++ cs.
Hypothesis Hsuffix : suffix this = us \/ (us = [] /\ exists rest, suffix this = mn ++ rest).
Hypothesis Hstyle : style this <> NumberFormatStyle.Percent.
Hypothesis Hcs : cs = host_prefix (style this) (currency this).
Hypothesis Hus : us = host_suffix (style this) (unit this).
Hypothesis Hdec : decimalSymbol this = Some [d] \/ decimalSymbol this = None.

Let H := Table.host (digit_table z g d mn pc knows).
Let INT (q : N) (grouping : bool) :=
  if grouping then grouped [g] (decimal_digits q) else decimal_digits q.
Let text (negative : bool) (b : jsstring) :=
  (if negative then mn else []) ++ cs ++ localized z b ++ us.

Lemma accept_integer_filter (q : N) (grouping : bool) :
  filter (fun c => negb (N.eqb g c)) (INT q grouping) = decimal_digits q.
Proof.
  pose proof (digits_exclude g _ (sep_group _ _ _ _ _ _ Hsep) (decimal_digits_digits q)) as Hi.
  unfold INT. destruct grouping; [now apply filter_grouped | now apply filter_keeps].
Qed.

Lemma accept_integer_no_decimal (q : N) (grouping : bool) :
  forallb (fun c => negb (N.eqb d c)) (INT q grouping) = true.
Proof.
  pose proof (digits_exclude d _ (sep_decimal _ _ _ _ _ _ Hsep) (decimal_digits_digits q)) as E.
  unfold INT. destruct grouping; [|exact E]. apply grouped_excludes; [|exact E].
  apply N.eqb_neq. intros E'. symmetry in E'. exact (sep_distinct _ _ _ _ _ _ Hsep E').
Qed.

Lemma accept_integer_length (q : N) (grouping : bool) :
  length (decimal_digits q) <= length (INT q grouping).
Proof. rewrite <- (accept_integer_filter q grouping). apply filter_length_le. Qed.

(** The renderings [isValidIntegerFormat] compares with, for the integer read
    from a canonical digit string of at most 15 digits. *)
Lemma accept_renderings (q : N) :
  length (decimal_digits q) <= 15 ->
  renderings H this (Number H (decimal_digits q))
  = [grouped [g] (decimal_digits q); decimal_digits q].
Proof.
  intros Hl. change (Number H (decimal_digits q)) with (Table.StringToNumber (decimal_digits q)).
  rewrite StringToNumber_digits
    by (apply decimal_digits_nonempty || apply decimal_digits_digits).
  assert (Hl' : length (decimal_digits q) <= 308) by lia.
  pose proof (overflow_beyond_308 _ (decimal_digits_digits q) Hl') as O.
  apply N.leb_gt in O. rewrite O, decimal_digits_value.
  exact (table_renderings z g d mn pc cs us knows this Hsep Hdigits Hprefix Hnegative
           Hsuffix Hstyle Hcs Hus q).
Qed.

Lemma accept_fraction_pattern :
  fraction_pattern this = decimalSymbol this.
Proof. unfold fraction_pattern. destruct Hdec as [-> | ->]; reflexivity. Qed.

Lemma accept_text_cons (negative : bool) (b : jsstring) :
  b <> [] -> exists c s, text negative b = c :: s.
Proof.
  intros Hb. destruct (text negative b) as [|c s] eqn:E; [|eauto]. exfalso. unfold text in E.
  apply app_eq_nil in E as [_ E]. apply app_eq_nil in E as [_ E].
  apply app_eq_nil in E as [E _]. apply map_eq_nil in E. contradiction.
Qed.

(** From an accepted text of at most 15 digits to its form. *)
Lemma accept_form (negative : bool) (b : jsstring) (v : Table.num) :
  forallb (fun c => is_digit c || N.eqb c g || N.eqb c d) b = true ->
  length (filter is_digit b) <= 15 ->
  parse H utils_escapeRegExp this (Some (text negative b)) = Normal (Some v) ->
  exists q grouping tail,
    b = INT q grouping ++ tail
    /\ (tail = []
        \/ (decimalSymbol this = Some [d]
            /\ exists r, tail = d :: r
                 /\ forallb (fun c => is_digit c || N.eqb c g) r = true))
    /\ v = Table.StringToNumber
             ((if negative then [HYPHEN] else [])
              ++ decimal_digits q ++ [PERIOD] ++ filter is_digit tail).
Proof.
  intros Hb Hl Hp. pose proof (body_plain g d b Hb) as Hplain.
  destruct (text negative b) as [|c s] eqn:ET; [discriminate|].
  apply (parse_accepts_iff H utils_escapeRegExp this c s [g] v Hgroup
           utils_escapeRegExp_escapes) in Hp as [m1 [m2 [Em [Hin Hv]]]].
  rewrite <- ET in Em, Hin, Hv. unfold text in Em, Hin, Hv.
  rewrite (table_affix_stripped z g d mn cs us this Hsep Hdigits Hminus Hprefix Hnegative
             Hsuffix negative b Hplain) in Em, Hin.
  rewrite (table_isNegative z g d mn cs us this Hsep Hminus Hnegative negative b Hplain) in Hv.
  rewrite replace_g_single, accept_fraction_pattern in Em.
  destruct (exec_number_Some _ _ _ _ Em) as [Hne [Hm1 Hm2]].
  pose proof (exec_number_head _ _ _ _ Em) as Hhead.
  set (q := Table.digits_value m1).
  assert (Eq : decimal_digits q = m1) by now apply canonical_digits.
  assert (Lf : length (filter is_digit (filter (fun c => negb (N.eqb g c)) b)) <= 15)
    by (pose proof (filter_filter_length is_digit (fun c => negb (N.eqb g c)) b); lia).
  assert (Lm : length m1 <= 15).
  { rewrite <- (filter_all is_digit m1 Hm1). destruct m2 as [f|].
    - destruct Hm2 as [d' [_ [E _]]]. rewrite E, filter_app, length_app in Lf. lia.
    - now rewrite Hm2 in Lf. }
  rewrite <- Eq in Hin, Hv, Hm2, Lm. rewrite (accept_renderings q Lm) in Hin.
  pose proof (table_glyphs z g d mn cs us this Hsep Hdigits) as Hgl.
  rewrite (onlyDigits_digits this _ Hgl (decimal_digits_digits q)) in Hv.
  assert (Hint : exists grouping, integer_portion this b = INT q grouping).
  { destruct Hin as [E|[E|[]]]; [exists true | exists false]; now rewrite <- E. }
  destruct Hint as [grouping Hint]. exists q, grouping.
  unfold integer_portion in Hint.
  destruct Hdec as [Ed | Ed]; rewrite Ed in Hint, Hm2; cbn [truthy ToString] in Hint.
  - destruct (split_head_cases b d) as [[Hnod Hs] | [pre [rest [Eb [Hpre Hs]]]]];
      rewrite Hs in Hint.
    + (* no decimal symbol in the text *)
      exists []. rewrite app_nil_r. split; [exact Hint|]. split; [now left|].
      rewrite Hint, accept_integer_filter in Hm2. destruct m2 as [f|].
      * exfalso. destruct Hm2 as [d' [Ed' [E _]]]. injection Ed' as <-.
        apply (f_equal (@length _)) in E. rewrite length_app, length_app in E.
        cbn [length] in E. lia.
      * rewrite Hv. cbn [filter]. rewrite (onlyDigits_digits this [] Hgl eq_refl).
        reflexivity.
    + (* the text before the first decimal symbol is the integer *)
      subst pre. exists (d :: rest). split; [exact Eb|].
      assert (Ef : filter (fun c => negb (N.eqb g c)) b
                   = decimal_digits q ++ d :: filter (fun c => negb (N.eqb g c)) rest).
      { rewrite Eb, filter_app, accept_integer_filter. cbn [filter].
        replace (N.eqb g d) with false; [reflexivity|].
        symmetry. apply N.eqb_neq. exact (sep_distinct _ _ _ _ _ _ Hsep). }
      rewrite Ef in Hm2. destruct m2 as [f|].
      * destruct Hm2 as [d' [Ed' [E Hf]]]. injection Ed' as <-.
        apply app_inv_head in E. cbn [app] in E. injection E as E. subst f.
        assert (Hrest : forallb (fun c => is_digit c || N.eqb c g || N.eqb c d) rest = true).
        { rewrite Eb, forallb_app in Hb. apply andb_true_iff in Hb as [_ Hb].
          cbn [forallb] in Hb. now apply andb_true_iff in Hb as [_ Hb]. }
        pose proof (digits_after_filter g d rest (sep_decimal _ _ _ _ _ _ Hsep)
                      (sep_distinct _ _ _ _ _ _ Hsep) Hrest Hf) as Hr.
        destruct (filter_digits_grouping g rest (sep_group _ _ _ _ _ _ Hsep) Hr) as [Fd _].
        split; [right; split; [exact Ed|]; exists rest; auto|].
        rewrite Hv. cbn [filter]. rewrite (sep_decimal _ _ _ _ _ _ Hsep), Fd.
        now rewrite (onlyDigits_digits this _ Hgl Hf).
      * exfalso. apply (f_equal (@length _)) in Hm2. rewrite length_app in Hm2.
        cbn [length] in Hm2. lia.
  - (* no decimal symbol in the profile *)
    exists []. rewrite app_nil_r. split; [exact Hint|]. split; [now left|].
    destruct m2 as [f|]; [destruct Hm2 as [d' [E _]]; discriminate|].
    rewrite Hv. cbn [filter]. rewrite (onlyDigits_digits this [] Hgl eq_refl). reflexivity.
Qed.

(** From the form of a text of at most 15 digits to its acceptance. *)
Lemma accept_parse (negative : bool) (q : N) (grouping : bool) (tail : jsstring) :
  length (filter is_digit (INT q grouping ++ tail)) <= 15 ->
  tail = []
  \/ (decimalSymbol this = Some [d]
      /\ exists r, tail = d :: r /\ forallb (fun c => is_digit c || N.eqb c g) r = true) ->
  parse H utils_escapeRegExp this (Some (text negative (INT q grouping ++ tail)))
  = Normal (Some (Table.StringToNumber
                    ((if negative then [HYPHEN] else [])
                     ++ decimal_digits q ++ [PERIOD] ++ filter is_digit tail))).
Proof.
  intros Hl Htail.
  set (fr := match tail with
             | [] => None
             | _ :: r => Some (filter (fun c => negb (N.eqb g c)) r)
             end).
  assert (Hfr : forall f, fr = Some f -> forallb is_digit f = true).
  { intros f. unfold fr. destruct Htail as [-> | [_ [r [-> Hr]]]]; [discriminate|].
    intros [= <-]. now apply (filter_digits_grouping g r (sep_group _ _ _ _ _ _ Hsep) Hr). }
  assert (Hfd : filter is_digit tail = match fr with Some f => f | None => [] end).
  { unfold fr. destruct Htail as [-> | [_ [r [-> Hr]]]]; [reflexivity|].
    cbn [filter]. rewrite (sep_decimal _ _ _ _ _ _ Hsep).
    now apply (filter_digits_grouping g r (sep_group _ _ _ _ _ _ Hsep) Hr). }
  assert (Hb : forallb (fun c => is_digit c || N.eqb c g || N.eqb c d) (INT q grouping ++ tail)
               = true).
  { rewrite forallb_app. apply andb_true_iff. split.
    - apply forallb_forall. intros c Hc.
      destruct (is_digit c) eqn:Ec; [reflexivity|]. cbn [orb].
      destruct (N.eqb c g) eqn:Eg; [reflexivity|]. exfalso.
      assert (In c (filter (fun c => negb (N.eqb g c)) (INT q grouping))).
      { apply filter_In. split; [assumption|]. now rewrite N.eqb_sym, Eg. }
      rewrite accept_integer_filter in H0.
      pose proof (decimal_digits_digits q) as D. rewrite forallb_forall in D.
      specialize (D c H0). congruence.
    - destruct Htail as [-> | [_ [r [-> Hr]]]]; [reflexivity|].
      cbn [forallb]. rewrite N.eqb_refl, orb_true_r. cbn [andb].
      apply forallb_forall. intros c Hc. rewrite forallb_forall in Hr.
      rewrite (Hr c Hc). reflexivity. }
  pose proof (body_plain g d _ Hb) as Hplain.
  assert (Hne : INT q grouping ++ tail <> []).
  { intros E. apply app_eq_nil in E as [E _].
    apply (f_equal (filter (fun c => negb (N.eqb g c)))) in E.
    rewrite accept_integer_filter in E. exact (decimal_digits_nonempty q E). }
  destruct (accept_text_cons negative _ Hne) as [c [s ET]]. rewrite ET.
  apply (parse_accepts_iff H utils_escapeRegExp this c s [g]);
    [exact Hgroup | exact utils_escapeRegExp_escapes |].
  exists (decimal_digits q), fr. rewrite <- ET. unfold text.
  rewrite (table_affix_stripped z g d mn cs us this Hsep Hdigits Hminus Hprefix Hnegative
             Hsuffix negative _ Hplain).
  rewrite (table_isNegative z g d mn cs us this Hsep Hminus Hnegative negative _ Hplain).
  pose proof (table_glyphs z g d mn cs us this Hsep Hdigits) as Hgl.
  assert (Ll : length (decimal_digits q) <= 15).
  { rewrite <- (filter_all is_digit _ (decimal_digits_digits q)).
    rewrite <- (accept_integer_filter q grouping) at 1.
    pose proof (filter_filter_length is_digit (fun c => negb (N.eqb g c)) (INT q grouping)).
    rewrite filter_app, length_app in Hl. lia. }
  split; [|split].
  - rewrite replace_g_single, filter_app, accept_integer_filter, accept_fraction_pattern.
    assert (Et : filter (fun c => negb (N.eqb g c)) tail
                 = match fr with Some f => d :: f | None => [] end).
    { unfold fr. destruct Htail as [-> | [_ [r [-> Hr]]]]; [reflexivity|].
      cbn [filter]. replace (N.eqb g d) with false; [reflexivity|].
      symmetry. apply N.eqb_neq. exact (sep_distinct _ _ _ _ _ _ Hsep). }
    rewrite Et. apply exec_number_digits;
      [exact (sep_decimal _ _ _ _ _ _ Hsep) | | exact Hfr].
    unfold fr. destruct Htail as [-> | [Ed [r [-> Hr]]]]; [|now left].
    destruct Hdec as [Ed | Ed]; [now left | now right].
  - rewrite (accept_renderings q Ll).
    assert (Ei : integer_portion this (INT q grouping ++ tail) = INT q grouping).
    { unfold integer_portion, split_head.
      destruct Htail as [-> | [Ed [r [-> Hr]]]].
      - rewrite app_nil_r. destruct Hdec as [Ed | Ed]; rewrite Ed; cbn [truthy ToString];
          [|reflexivity].
        now rewrite (search_unit_absent d _ (accept_integer_no_decimal q grouping)).
      - rewrite Ed. cbn [truthy ToString].
        now rewrite (search_unit d _ r (accept_integer_no_decimal q grouping)). }
    rewrite Ei. unfold INT. destruct grouping; cbn [In]; auto.
  - change (Number H ?t) with (Table.StringToNumber t).
    rewrite (onlyDigits_digits this _ Hgl (decimal_digits_digits q)).
    rewrite Hfd. rewrite (onlyDigits_digits this (match fr with Some f => f | None => [] end) Hgl).
    + reflexivity.
    + destruct fr as [f|]; [now apply Hfr | reflexivity].
Qed.

End TableAccept.

(** ** Digit tables: the ASCII hyphen and ASCII digits *)

Lemma separated_latin (z g d : char) (mn cs us : jsstring) :
  separated z g d mn cs us -> separated ZERO g d mn cs us.
Proof.
  intros [H1 H2 H3 H4 H5 H6 H7 H8 H9 _]. constructor; try assumption. now left.
Qed.

Section TableSigns.

Variables (z g d : char) (mn pc cs us : jsstring) (knows : NumberFormatStyle.t -> bool).
Variable this : NumberFormat.

Hypothesis Hsep : separated z g d mn cs us.
Hypothesis Hdigits : digits this = glyphs z.
Hypothesis Hminus : minusSymbol this = Some mn.
Hypothesis Hprefix : prefix this = cs.
Hypothesis Hnegative : negativePrefix this = mn ++ cs.
Hypothesis Hsuffix : suffix this = us \/ (us = [] /\ exists rest, suffix this = mn ++ rest).

Let H := Table.host (digit_table z g d mn pc knows).


(** A text of the table in ASCII digits is kept by [normalizeDigits]. *)
Lemma signs_normalizeDigits_ascii (negative : bool) (b : jsstring) :
  plain_text g d b ->
  normalizeDigits this ((if negative then mn else []) ++ cs ++ b ++ us)
  = (if negative then mn else []) ++ cs ++ b ++ us.
Proof.
  intros Hb. pose proof (table_zero z g d mn cs us Hsep) as Hz.
  rewrite (normalizeDigits_glyphs this z _ Hdigits Hz).
  destruct (sep_glyphs _ _ _ _ _ _ Hsep) as [E | [Hz' Hn]].
  - rewrite E. apply unglyph_latin.
  - apply unglyph_keeps. intros c Hc.
    apply in_app_or in Hc as [Hc | Hc].
    + destruct negative; [|destruct Hc]. apply Hn. right. right. apply in_or_app. now left.
    + apply in_app_or in Hc as [Hc | Hc];
        [apply Hn; right; right; apply in_or_app; right; apply in_or_app; now left|].
      apply in_app_or in Hc as [Hc | Hc];
        [|apply Hn; right; right; apply in_or_app; right; apply in_or_app; now right].
      destruct (plain_text_units g d b c Hb Hc) as [F | [-> | ->]].
      * apply is_digit_range in F. unfold is_glyph. apply andb_false_iff. left.
        apply N.leb_gt. lia.
      * apply Hn. now left.
      * apply Hn. right. now left.
Qed.

Lemma signs_affix_stripped_ascii (negative : bool) (b : jsstring) :
  plain_text g d b ->
  affix_stripped this ((if negative then mn else []) ++ cs ++ b ++ us) = b.
Proof.
  intros Hb. unfold affix_stripped. rewrite (signs_normalizeDigits_ascii negative b Hb).
  rewrite (table_stripPrefixOrSuffix z g d mn cs us this Hsep Hprefix Hnegative Hsuffix
             negative b Hb).
  exact (table_stripMinusSymbol z g d mn cs us this Hsep Hminus b Hb).
Qed.

Lemma signs_isNegative_ascii (negative : bool) (b : jsstring) :
  plain_text g d b ->
  isNegative this ((if negative then mn else []) ++ cs ++ b ++ us) = negative.
Proof.
  intros Hb.
  pose proof (table_isNegative ZERO g d mn cs us this (separated_latin _ _ _ _ _ _ Hsep)
                Hminus Hnegative negative b Hb) as E.
  now rewrite localized_latin in E.
Qed.




(** [parse] reads a text in ASCII digits like the text in the glyphs of the
    table. *)
Lemma signs_parse_ascii (negative : bool) (b : jsstring) :
  plain_text g d b ->
  parse H utils_escapeRegExp this (Some ((if negative then mn else []) ++ cs ++ b ++ us))
  = parse H utils_escapeRegExp this
      (Some ((if negative then mn else []) ++ cs ++ localized z b ++ us)).
Proof.
  intros Hb.
  pose proof (signs_affix_stripped_ascii negative b Hb) as A1.
  pose proof (signs_isNegative_ascii negative b Hb) as I1.
  pose proof (table_affix_stripped z g d mn cs us this Hsep Hdigits Hminus Hprefix Hnegative
                Hsuffix negative b Hb) as A2.
  pose proof (table_isNegative z g d mn cs us this Hsep Hminus Hnegative negative b Hb) as I2.
  assert (L : length ((if negative then mn else []) ++ cs ++ b ++ us)
              = length ((if negative then mn else []) ++ cs ++ localized z b ++ us)).
  { rewrite !length_app, localized_length. reflexivity. }
  destruct ((if negative then mn else []) ++ cs ++ b ++ us) as [|c1 s1];
    destruct ((if negative then mn else []) ++ cs ++ localized z b ++ us) as [|c2 s2];
    try discriminate; [reflexivity|].
  now rewrite !parse_steps, A1, I1, A2, I2.
Qed.

End TableSigns.

(** ** What [parse] accepts on a digit table *)

(** The hypotheses of the table lemmas, for the profile the constructor builds
    from a digit table under a style other than percent. *)
Lemma table_profile_facts (z g d : char) (mn : jsstring) (o : NumberInputOptions) :
  formatStyle o <> NumberFormatStyle.Percent ->
  let P := table_profile z g d mn o in
  let cs := host_prefix (formatStyle o) (opt_currency o) in
  let us := host_suffix (formatStyle o) (opt_unit o) in
  (suffix P = us \/ (us = [] /\ exists rest, suffix P = mn ++ rest))
  /\ (decimalSymbol P = Some [d] \/ decimalSymbol P = None).
Proof.
  intros Hs P cs us. pose proof (table_profile_shape z g d mn o Hs) as Hb. cbn zeta in Hb.
  destruct Hb as [_ [Hdec Hsuf]]. split; [exact Hsuf|].
  destruct Hdec as [E | [E _]]; auto.
Qed.

(** X9. On a digit table and under a style other than percent, [parse]
    returns on every text made of the affixes around digits, grouping and
    decimal symbols with at most 15 digits among them (the decimals a double
    holds exactly), and it returns a number exactly when
    the text is a canonical integer, grouped as the host groups it or not
    grouped at all, followed by nothing or, when the profile has a decimal
    symbol, by that symbol and any run of digits and grouping symbols: leading
    zeros, misplaced grouping symbols in the integer and a second decimal
    symbol give null, while the fraction may be empty, longer than
    [maximumFractionDigits] or interspersed with grouping symbols.  The number
    is the one the host reads from the sign, the integer digits and the
    fraction digits. *)
Theorem parse_accepts_exactly (z g d : char) (mn pc : jsstring)
  (knows : NumberFormatStyle.t -> bool) (o : NumberInputOptions) (this : NumberFormat)
  (negative : bool) (b : jsstring) :
  formatStyle o <> NumberFormatStyle.Percent ->
  separated z g d mn (host_prefix (formatStyle o) (opt_currency o))
    (host_suffix (formatStyle o) (opt_unit o)) ->
  constructor (Table.host (digit_table z g d mn pc knows)) o = Normal this ->
  forallb (fun c => is_digit c || N.eqb c g || N.eqb c d) b = true ->
  length (filter is_digit b) <= 15 ->
  let H := Table.host (digit_table z g d mn pc knows) in
  let text := (if negative then mn else [])
              ++ host_prefix (formatStyle o) (opt_currency o)
              ++ localized z b
              ++ host_suffix (formatStyle o) (opt_unit o) in
  returns (parse H utils_escapeRegExp this (Some text))
  /\ forall v : Table.num,
       parse H utils_escapeRegExp this (Some text) = Normal (Some v)
       <-> exists (q : N) (grouping : bool) (tail : jsstring),
             b = (if grouping then grouped [g] (decimal_digits q) else decimal_digits q)
                 ++ tail
             /\ (tail = []
                 \/ (decimalSymbol this = Some [d]
                     /\ exists r, tail = d :: r
                          /\ forallb (fun c => is_digit c || N.eqb c g) r = true))
             /\ v = Table.StringToNumber
                      ((if negative then [HYPHEN] else [])
                       ++ decimal_digits q ++ [PERIOD] ++ filter is_digit tail).
Proof.
  intros Hs Hsep Hctor Hb Hl H text.
  apply (constructor_table z g d mn pc knows o this Hs) in Hctor. subst this.
  set (P := table_profile z g d mn o).
  destruct (table_profile_facts z g d mn o Hs) as [Hsuf Hdec]. fold P in Hsuf, Hdec.
  split.
  - apply (parse_returns H utils_escapeRegExp P (Some text) [g] eq_refl
             utils_escapeRegExp_escapes).
  - intros v. split.
    + exact (accept_form z g d mn pc _ _ knows P Hsep eq_refl eq_refl eq_refl eq_refl eq_refl
               Hsuf Hs eq_refl eq_refl Hdec negative b v Hb Hl).
    + intros [q [grouping [tail [Eb [Htail ->]]]]]. unfold text. rewrite Eb. rewrite Eb in Hl.
      exact (accept_parse z g d mn pc _ _ knows P Hsep eq_refl eq_refl eq_refl eq_refl eq_refl
               Hsuf Hs eq_refl eq_refl Hdec negative q grouping tail Hl Htail).
Qed.

Lemma parse_accepts_exactly_witness :
  parse en_host utils_escapeRegExp en_EUR (Some ([HYPHEN; EURO] ++ u "1,234.5,6789"))
  = Normal (Some (Table.Finite true 123456789 5))
  /\ parse en_host utils_escapeRegExp en_EUR (Some ([EURO] ++ u "1234."))
     = Normal (Some (Table.Finite false 1234 0))
  /\ parse en_host utils_escapeRegExp en_EUR (Some ([EURO] ++ u "01")) = Normal None
  /\ parse en_host utils_escapeRegExp en_EUR (Some ([EURO] ++ u "1.2.3")) = Normal None.
Proof.
  assert (Hc : constructor en_host
                 (options_of "en" NumberFormatStyle.Currency (Some "EUR"%string) None)
               = Normal en_EUR) by (vm_compute; reflexivity).
  assert (Hs : formatStyle (options_of "en" NumberFormatStyle.Currency (Some "EUR"%string) None)
               <> NumberFormatStyle.Percent) by discriminate.
  pose proof (fun negative b Hb Hl =>
                parse_accepts_exactly ZERO COMMA PERIOD [HYPHEN] [PERCENT_SIGN] (fun _ => true)
                  (options_of "en" NumberFormatStyle.Currency (Some "EUR"%string) None) en_EUR
                  negative b Hs separated_en_EUR Hc Hb Hl) as P.
  cbn zeta in P.
  split; [|split; [|split]].
  - destruct (P true (u "1,234.5,6789") eq_refl ltac:(cbn; lia)) as [_ A].
    apply (A (Table.Finite true 123456789 5)).
    exists 1234%N, true, (u ".5,6789"). split; [reflexivity|]. split; [|reflexivity].
    right. split; [reflexivity|]. exists (u "5,6789"). split; reflexivity.
  - destruct (P false (u "1234.") eq_refl ltac:(cbn; lia)) as [_ A].
    apply (A (Table.Finite false 1234 0)).
    exists 1234%N, false, (u "."). split; [reflexivity|]. split; [|reflexivity].
    right. split; [reflexivity|]. exists []. split; reflexivity.
  - reflexivity.
  - reflexivity.
Defined.



(** X11. On a digit table and under a style other than percent, [parse] reads
    a text written in ASCII digits like the same text written in the glyphs of
    the table. *)
Theorem parse_ascii_digits (z g d : char) (mn pc : jsstring)
  (knows : NumberFormatStyle.t -> bool) (o : NumberInputOptions) (this : NumberFormat)
  (negative : bool) (b : jsstring) :
  formatStyle o <> NumberFormatStyle.Percent ->
  separated z g d mn (host_prefix (formatStyle o) (opt_currency o))
    (host_suffix (formatStyle o) (opt_unit o)) ->
  constructor (Table.host (digit_table z g d mn pc knows)) o = Normal this ->
  forallb (fun c => is_digit c || N.eqb c g || N.eqb c d) b = true ->
  let H := Table.host (digit_table z g d mn pc knows) in
  let cs := host_prefix (formatStyle o) (opt_currency o) in
  let us := host_suffix (formatStyle o) (opt_unit o) in
  parse H utils_escapeRegExp this (Some ((if negative then mn else []) ++ cs ++ b ++ us))
  = parse H utils_escapeRegExp this
      (Some ((if negative then mn else []) ++ cs ++ localized z b ++ us)).
Proof.
  intros Hs Hsep Hctor Hb H cs us.
  apply (constructor_table z g d mn pc knows o this Hs) in Hctor. subst this.
  destruct (table_profile_facts z g d mn o Hs) as [Hsuf _].
  exact (signs_parse_ascii z g d mn pc _ _ knows (table_profile z g d mn o) Hsep eq_refl
           eq_refl eq_refl eq_refl Hsuf negative b (body_plain g d b Hb)).
Qed.

Lemma parse_ascii_digits_witness :
  parse ar_host utils_escapeRegExp ar_Decimal
    (Some ([ARABIC_LETTER_MARK; HYPHEN] ++ u "1234" ++ [ARABIC_DECIMAL] ++ u "5"))
  = parse ar_host utils_escapeRegExp ar_Decimal
      (Some ([ARABIC_LETTER_MARK; HYPHEN] ++ localized ARABIC_ZERO (u "1234")
             ++ [ARABIC_DECIMAL] ++ localized ARABIC_ZERO (u "5")))
  /\ parse ar_host utils_escapeRegExp ar_Decimal
       (Some ([ARABIC_LETTER_MARK; HYPHEN] ++ u "1234" ++ [ARABIC_DECIMAL] ++ u "5"))
     = Normal (Some (Table.Finite true 12345 1)).
Proof.
  split; [|reflexivity].
  assert (Hc : constructor ar_host (options_of "ar-EG" NumberFormatStyle.Decimal None None)
               = Normal ar_Decimal) by (vm_compute; reflexivity).
  assert (Hs : formatStyle (options_of "ar-EG" NumberFormatStyle.Decimal None None)
               <> NumberFormatStyle.Percent) by discriminate.
  assert (Hb : forallb (fun c => is_digit c || N.eqb c ARABIC_THOUSANDS || N.eqb c ARABIC_DECIMAL)
                 (u "1234" ++ [ARABIC_DECIMAL] ++ u "5") = true) by reflexivity.
  pose proof (parse_ascii_digits ARABIC_ZERO ARABIC_THOUSANDS ARABIC_DECIMAL
                [ARABIC_LETTER_MARK; HYPHEN] [1642%N; ARABIC_LETTER_MARK]
                (fun s => match s with NumberFormatStyle.Decimal => true | _ => false end)
                (options_of "ar-EG" NumberFormatStyle.Decimal None None) ar_Decimal
                true (u "1234" ++ [ARABIC_DECIMAL] ++ u "5") Hs separated_ar_Decimal Hc Hb) as P.
  exact P.
Defined.

(** ** Formatting what was parsed *)

Lemma pad_left_zero (n : nat) : 0 < n -> Table.pad_left n (decimal_digits 0) = repeat ZERO n.
Proof.
  intros Hn. unfold Table.pad_left. change (decimal_digits 0) with [ZERO]. cbn [length].
  destruct n as [|n]; [lia|]. replace (S n - 1) with n by lia.
  symmetry. change [ZERO] with (repeat ZERO 1). rewrite <- repeat_app. f_equal. lia.
Qed.

(** X12. On a digit table and under a style other than percent, [parse] reads
    an integer text, grouped or not, as that integer, and formatting the
    integer gives the canonical text: the integer grouped, followed by
    [minimumFractionDigits] zeros after the decimal symbol.  [format] raises a
    RangeError instead when the profile has more than 100 fraction digits. *)
Theorem format_parse_canonical (z g d : char) (mn pc : jsstring)
  (knows : NumberFormatStyle.t -> bool) (o : NumberInputOptions) (this : NumberFormat)
  (negative grouping : bool) (q : N) :
  formatStyle o <> NumberFormatStyle.Percent ->
  separated z g d mn (host_prefix (formatStyle o) (opt_currency o))
    (host_suffix (formatStyle o) (opt_unit o)) ->
  constructor (Table.host (digit_table z g d mn pc knows)) o = Normal this ->
  (q < 2 ^ 53)%N ->
  let H := Table.host (digit_table z g d mn pc knows) in
  let cs := host_prefix (formatStyle o) (opt_currency o) in
  let us := host_suffix (formatStyle o) (opt_unit o) in
  parse H utils_escapeRegExp this
    (Some (table_text z g d mn cs us negative q None grouping))
  = Normal (Some (Table.Finite negative q 0))
  /\ format H this (Some (Table.Finite negative q 0)) None
     = if maximumFractionDigits this <=? Table.MAX_FRACTION_DIGITS
       then Normal (table_text z g d mn cs us negative q
                      (match minimumFractionDigits this with
                       | O => None
                       | S n => Some (repeat ZERO (S n))
                       end) true)
       else Throw RangeError.
Proof.
  intros Hs Hsep Hctor Hq H cs us.
  pose proof Hctor as Hacc.
  apply (constructor_table z g d mn pc knows o this Hs) in Hctor. subst this.
  set (P := table_profile z g d mn o).
  pose proof (table_profile_shape z g d mn o Hs) as Hb. cbn zeta in Hb.
  fold P us in Hb. destruct Hb as [Hle [Hdec Hsuf]].
  assert (O : (q < Table.OVERFLOW)%N)
    by (apply (N.lt_trans _ (2 ^ 53)); [assumption | reflexivity]).
  split.
  - assert (Hfr : forall f : jsstring, @None jsstring = Some f -> forallb is_digit f = true)
      by discriminate.
    assert (Hdec' : decimalSymbol P = Some [d]
                    \/ (decimalSymbol P = None /\ @None jsstring = None)).
    { destruct Hdec as [E | [E _]]; [now left | now right]. }
    unfold H.
    rewrite (table_parse_text z g d mn pc cs us knows P Hsep eq_refl eq_refl eq_refl eq_refl
               eq_refl Hsuf Hs eq_refl eq_refl q None grouping Hfr Hdec' negative O).
    do 2 f_equal.
    rewrite (StringToNumber_literal negative (decimal_digits q) []);
      [| apply decimal_digits_nonempty | apply decimal_digits_digits | reflexivity].
    rewrite app_nil_r, decimal_digits_value. cbn [length N.of_nat].
    change (10 ^ 0)%N with 1%N. rewrite N.mul_1_r.
    apply N.leb_gt in O. rewrite O. reflexivity.
  - set (mn_ := minimumFractionDigits P). set (mx_ := maximumFractionDigits P) in *.
    unfold H. rewrite (format_constructed _ o P _ Hacc Hle). fold mn_ mx_.
    destruct (mx_ <=? Table.MAX_FRACTION_DIGITS); [f_equal | reflexivity].
    cbn [toLocaleString Table.host].
    set (o' := {| o_style := Some (style P); o_currency := currency P; o_unit := unit P;
                  o_minimumFractionDigits := Some mn_; o_maximumFractionDigits := Some mx_;
                  o_useGrouping := None |}).
    assert (Hfd : Table.fraction_digits o' = (mn_, mx_)).
    { unfold Table.fraction_digits, o'.
      cbn [o_minimumFractionDigits o_maximumFractionDigits].
      destruct (match Table.style_of _ with
                | NumberFormatStyle.Currency => _
                | NumberFormatStyle.Percent => _
                | _ => _
                end) as [a b].
      f_equal. lia. }
    assert (Hs' : Table.style_of o' <> NumberFormatStyle.Percent) by exact Hs.
    rewrite (table_rendering z g d mn pc knows (sep_group _ _ _ _ _ _ Hsep)
               (sep_decimal _ _ _ _ _ _ Hsep) o' negative q 0 mn_ mx_ Hs' Hfd (Nat.le_0_l _)
               (or_introl eq_refl)).
    change (host_prefix (Table.style_of o') (o_currency o')) with cs.
    change (host_suffix (Table.style_of o') (o_unit o')) with us.
    replace (match o_useGrouping o' with Some false => false | _ => true end) with true
      by reflexivity.
    destruct mn_ as [|n] eqn:En.
    + cbn [Nat.ltb Nat.leb N.of_nat]. change (10 ^ 0)%N with 1%N. now rewrite N.div_1_r.
    + replace (0 <? S n) with true by reflexivity. rewrite Nat.sub_0_r.
      assert (Pz : (10 ^ N.of_nat (S n) <> 0)%N) by (apply N.pow_nonzero; discriminate).
      rewrite N.div_mul by exact Pz. rewrite N.Div0.mod_mul.
      rewrite pad_left_zero by lia. reflexivity.
Qed.

Lemma format_parse_canonical_witness :
  parse en_host utils_escapeRegExp en_EUR (Some ([HYPHEN; EURO] ++ u "1234567"))
  = Normal (Some (Table.Finite true 1234567 0))
  /\ format en_host en_EUR (Some (Table.Finite true 1234567 0)) None
     = Normal ([HYPHEN; EURO] ++ u "1,234,567.00").
Proof.
  assert (Hc : constructor en_host
                 (options_of "en" NumberFormatStyle.Currency (Some "EUR"%string) None)
               = Normal en_EUR) by (vm_compute; reflexivity).
  assert (Hs : formatStyle (options_of "en" NumberFormatStyle.Currency (Some "EUR"%string) None)
               <> NumberFormatStyle.Percent) by discriminate.
  assert (Hq : (1234567 < 2 ^ 53)%N) by reflexivity.
  pose proof (format_parse_canonical ZERO COMMA PERIOD [HYPHEN] [PERCENT_SIGN] (fun _ => true)
                (options_of "en" NumberFormatStyle.Currency (Some "EUR"%string) None) en_EUR
                true false 1234567%N Hs separated_en_EUR Hc Hq) as P.
  exact P.
Defined.

(** A precision of 101: the constructor builds the profile, and [format]
    raises. *)
Example format_beyond_range :
  exists this,
    constructor en_host (options_of "en" NumberFormatStyle.Decimal None (Some 101))
    = Normal this
    /\ maximumFractionDigits this = 101
    /\ format en_host this (Some (Table.Finite false 1 0)) None = Throw RangeError.
Proof. eexists. split; [vm_compute; reflexivity|]. split; vm_compute; reflexivity. Qed.

(** ** Incomplete fractions *)

Lemma filter_localized (z g : char) (s : jsstring) :
  is_digit g = false -> is_glyph z g = false \/ z = ZERO ->
  filter (fun c => negb (N.eqb g c)) (localized z s)
  = localized z (filter (fun c => negb (N.eqb g c)) s).
Proof.
  intros Hg Hz. induction s as [|c s IH]; [reflexivity|].
  unfold localized in *. cbn [map filter].
  destruct (is_digit c) eqn:Ec.
  - assert (E1 : N.eqb g c = false) by (apply N.eqb_neq; intros <-; congruence).
    assert (E2 : N.eqb g (z + (c - ZERO)) = false).
    { apply N.eqb_neq. intros E. apply is_digit_range in Ec. destruct Hz as [Hz | ->].
      - unfold is_glyph, ZERO in *. apply andb_false_iff in Hz as [Hz|Hz];
          apply N.leb_gt in Hz; lia.
      - unfold ZERO in *. assert (g = c) by lia. subst g.
        unfold is_digit, ZERO, NINE in Hg. apply andb_false_iff in Hg as [Hg|Hg];
          apply N.leb_gt in Hg; lia. }
    rewrite E1, E2. cbn [negb map]. rewrite Ec. now rewrite IH.
  - destruct (N.eqb g c); cbn [negb map]; [exact IH|]. rewrite Ec. now rewrite IH.
Qed.

(** The pattern of [isFractionIncomplete] on a canonical integer followed by
    the decimal symbol and digits. *)
Lemma test_integer_then_canonical (d : char) (q : N) (f : jsstring) :
  is_digit d = false -> forallb is_digit f = true ->
  test_integer_then [d] (decimal_digits q ++ d :: f)
  = match f with [] => true | _ :: _ => false end.
Proof.
  intros Hd Hf. destruct (decimal_digits_spec q) as [c [ds [E [Hds [_ Hh]]]]]. rewrite E.
  cbn [app test_integer_then]. destruct Hh as [[_ [-> ->]]|[_ Hc]].
  - rewrite N.eqb_refl. cbn [app]. destruct f as [|x f]; [apply jseqb_refl|].
    destruct (jseqb (d :: x :: f) [d]) eqn:J; [|reflexivity].
    apply jseqb_eq in J. discriminate.
  - apply N.eqb_neq in Hc. rewrite Hc.
    cbn [forallb] in Hds. apply andb_true_iff in Hds as [Hdc Hds]. rewrite Hdc.
    rewrite (digit_run_app ds (d :: f) Hds Hd).
    destruct f as [|x f].
    + apply existsb_exists. exists (length ds). split; [apply in_seq; lia|].
      rewrite skipn_length_app. apply jseqb_refl.
    + destruct (existsb _ _) eqn:Ex; [|reflexivity]. exfalso.
      apply existsb_exists in Ex as [k [Hk J]]. apply in_seq in Hk. apply jseqb_eq in J.
      apply (f_equal (@length _)) in J. rewrite length_skipn, length_app in J.
      cbn [length] in J. lia.
Qed.

(** X13. On a digit table and under a style other than percent, for a profile
    with a decimal symbol: a text of digits and grouping symbols whose digits
    are a canonical integer, followed by the decimal symbol and digits, is an
    incomplete fraction exactly when no digit follows the decimal symbol,
    wherever the grouping symbols stand; a text that starts with a code unit
    that is no digit, glyph or grouping symbol (a minus sign, a currency sign)
    is not. *)
Theorem isFractionIncomplete_table (z g d : char) (mn pc : jsstring)
  (knows : NumberFormatStyle.t -> bool) (o : NumberInputOptions) (this : NumberFormat)
  (q : N) (s f : jsstring) :
  formatStyle o <> NumberFormatStyle.Percent ->
  separated z g d mn (host_prefix (formatStyle o) (opt_currency o))
    (host_suffix (formatStyle o) (opt_unit o)) ->
  constructor (Table.host (digit_table z g d mn pc knows)) o = Normal this ->
  decimalSymbol this <> None ->
  filter (fun c => negb (N.eqb g c)) s = decimal_digits q ->
  forallb is_digit f = true ->
  isFractionIncomplete utils_escapeRegExp this (localized z (s ++ d :: f))
  = Normal (match f with [] => true | _ :: _ => false end)
  /\ forall (c : char) (x : jsstring),
       is_digit c = false -> is_glyph z c = false -> c <> g ->
       isFractionIncomplete utils_escapeRegExp this (c :: x) = Normal false.
Proof.
  intros Hs Hsep Hctor Hdn Hq Hf.
  apply (constructor_table z g d mn pc knows o this Hs) in Hctor. subst this.
  set (P := table_profile z g d mn o) in *.
  destruct (table_profile_facts z g d mn o Hs) as [_ Hdec]. fold P in Hdec.
  destruct Hdec as [Hdec | Hdec]; [|congruence].
  pose proof (table_zero _ _ _ _ _ _ Hsep) as Hz.
  assert (Hd : digits P = glyphs z) by reflexivity.
  assert (Gg : is_glyph z g = false \/ z = ZERO).
  { destruct (sep_glyphs _ _ _ _ _ _ Hsep) as [E | [_ Hn]]; [now right | left].
    apply Hn. now left. }
  assert (Gd : is_glyph z d = false \/ z = ZERO).
  { destruct (sep_glyphs _ _ _ _ _ _ Hsep) as [E | [_ Hn]]; [now right | left].
    apply Hn. right. now left. }
  assert (Step : forall x, isFractionIncomplete utils_escapeRegExp P x
                   = Normal (test_integer_then [d]
                               (normalizeDigits P (filter (fun c => negb (N.eqb g c)) x)))).
  { intros x. unfold isFractionIncomplete, stripGroupingSeparator.
    change (groupingSymbol P) with (Some [g]). rewrite Hdec. cbn [utils_escapeRegExp bind].
    now rewrite replace_g_single. }
  split.
  - rewrite Step, (filter_localized z g _ (sep_group _ _ _ _ _ _ Hsep) Gg).
    rewrite filter_app, Hq. cbn [filter].
    replace (N.eqb g d) with false
      by (symmetry; apply N.eqb_neq; exact (sep_distinct _ _ _ _ _ _ Hsep)).
    cbn [negb].
    rewrite (filter_keeps f g (digits_exclude g f (sep_group _ _ _ _ _ _ Hsep) Hf)).
    assert (N : normalizeDigits P (localized z (decimal_digits q ++ d :: f))
                = decimal_digits q ++ d :: f).
    { rewrite (normalizeDigits_glyphs P z _ Hd Hz).
      destruct (sep_glyphs _ _ _ _ _ _ Hsep) as [E | [Hz' Hn]].
      - now rewrite E, unglyph_latin, localized_latin.
      - apply (unglyph_localized z _ Hz'). intros c Hc.
        apply in_app_or in Hc as [Hc | [<- | Hc]].
        + left. pose proof (decimal_digits_digits q) as D. rewrite forallb_forall in D.
          now apply D.
        + right. apply Hn. right. now left.
        + left. rewrite forallb_forall in Hf. now apply Hf. }
    rewrite N. f_equal. now apply test_integer_then_canonical; [exact (sep_decimal _ _ _ _ _ _ Hsep)|].
  - intros c x Hc Hgc Hcg. rewrite Step. cbn [filter].
    replace (N.eqb g c) with false by (symmetry; apply N.eqb_neq; congruence). cbn [negb].
    rewrite (normalizeDigits_glyphs P z _ Hd Hz). cbn [map].
    unfold unglyph at 1. rewrite Hgc. cbn [test_integer_then].
    replace (N.eqb c ZERO) with false
      by (symmetry; apply N.eqb_neq; intros ->; discriminate).
    now rewrite Hc.
Qed.

Lemma separated_en_Decimal : separated ZERO COMMA PERIOD [HYPHEN] [] [].
Proof.
  constructor.
  - reflexivity.
  - reflexivity.
  - discriminate.
  - discriminate.
  - discriminate.
  - exists HYPHEN, []. repeat split; try reflexivity; try discriminate; intros [].
  - reflexivity.
  - intros c [].
  - now left.
  - now left.
Qed.

Lemma isFractionIncomplete_table_witness :
  isFractionIncomplete utils_escapeRegExp en_Decimal (u "1,23,4.") = Normal true
  /\ isFractionIncomplete utils_escapeRegExp en_Decimal (u "1,234.5") = Normal false
  /\ isFractionIncomplete utils_escapeRegExp en_Decimal (u "-1.") = Normal false.
Proof.
  assert (Hc : constructor en_host (options_of "en" NumberFormatStyle.Decimal None None)
               = Normal en_Decimal) by (vm_compute; reflexivity).
  assert (Hs : formatStyle (options_of "en" NumberFormatStyle.Decimal None None)
               <> NumberFormatStyle.Percent) by discriminate.
  pose proof separated_en_Decimal as Hsep.
  assert (Hd : decimalSymbol en_Decimal <> None) by discriminate.
  pose proof (fun q s f Hq Hf =>
                isFractionIncomplete_table ZERO COMMA PERIOD [HYPHEN] [PERCENT_SIGN]
                  (fun _ => true) (options_of "en" NumberFormatStyle.Decimal None None)
                  en_Decimal q s f Hs Hsep Hc Hd Hq Hf) as P.
  split; [|split].
  - destruct (P 1234%N (u "1,23,4") [] eq_refl eq_refl) as [A _]. exact A.
  - destruct (P 1234%N (u "1,234") (u "5") eq_refl eq_refl) as [A _]. exact A.
  - destruct (P 0%N (u "0") [] eq_refl eq_refl) as [_ B].
    exact (B HYPHEN (u "1.") eq_refl eq_refl ltac:(discriminate)).
Defined.

(** X14. [isFractionIncomplete] hands the grouping symbol and then the decimal
    symbol to [escapeRegExp]: for a profile without one of them (a currency
    without minor units has no decimal symbol) and an [escapeRegExp] that
    raises on [undefined], it raises on every text. *)
Theorem isFractionIncomplete_raises (escapeRegExp : option jsstring -> completion jsstring)
  (this : NumberFormat) (str : jsstring) (e : exn) :
  groupingSymbol this = None \/ decimalSymbol this = None ->
  escapeRegExp None = Throw e ->
  ~ returns (isFractionIncomplete escapeRegExp this str).
Proof.
  intros Hn He [r Hr]. unfold isFractionIncomplete, stripGroupingSeparator in Hr.
  destruct Hn as [Hn | Hn]; rewrite Hn in Hr.
  - rewrite He in Hr. discriminate.
  - destruct (escapeRegExp (groupingSymbol this)); cbn [bind] in Hr; [|discriminate].
    rewrite He in Hr. discriminate.
Qed.

Lemma isFractionIncomplete_raises_witness :
  isFractionIncomplete utils_escapeRegExp en_JPY ([YEN] ++ u "1") = Throw TypeError
  /\ ~ returns (isFractionIncomplete utils_escapeRegExp en_JPY ([YEN] ++ u "1")).
Proof.
  split; [reflexivity|].
  exact (isFractionIncomplete_raises utils_escapeRegExp en_JPY ([YEN] ++ u "1") TypeError
           (or_intror eq_refl) eq_refl).
Defined.

(** ** The typed decimal separator *)

Lemma normalizeDecimalSeparator_tail (this : NumberFormat) (text : jsstring) (from : nat) :
  from <= length text ->
  normalizeDecimalSeparator this text (Z.of_nat from)
  = firstn from text
    ++ replace (replace (replace (skipn from text) [COMMA] (ToString (decimalSymbol this)))
                  [PERIOD] (ToString (decimalSymbol this)))
         [ARABIC_DECIMAL] (ToString (decimalSymbol this)).
Proof.
  intros Hl. apply Nat.leb_le in Hl.
  unfold normalizeDecimalSeparator, DECIMAL_SEPARATORS. cbn [fold_left].
  set (dec := ToString (decimalSymbol this)).
  assert (T : text = firstn from text ++ (if from <=? length text then skipn from text else [])).
  { rewrite Hl. now rewrite firstn_skipn. }
  pose proof (fun str tail s Hs E =>
                normalizeDecimalSeparator_step text str tail s dec from Hs E) as Step.
  rewrite Hl in Step.
  apply Step; [congruence|]. apply Step; [congruence|]. apply Step; [congruence|].
  rewrite Hl in T. exact T.
Qed.

Lemma replace_unit_head (p r : char) (f : jsstring) :
  replace (p :: f) [p] [r] = r :: f.
Proof.
  unfold replace. cbn [search startsWith]. rewrite N.eqb_refl. cbn [andb length skipn].
  cbn [GetSubstitution]. destruct (N.eqb r DOLLAR); reflexivity.
Qed.

Lemma replace_unit_pass (p x : char) (f : jsstring) (rep : jsstring) :
  p <> x -> ~ In p f -> replace (x :: f) [p] rep = x :: f.
Proof.
  intros Hx Hf. apply replace_head_absent. cbn [forallb].
  apply andb_true_iff. split; [now apply negb_true_iff, N.eqb_neq|].
  now apply forallb_excludes_In.
Qed.

(** One pass of [normalizeDecimalSeparator] over a tail that starts with the
    decimal symbol and has no separator after it. *)
Lemma replace_unit_settled (p d : char) (f : jsstring) :
  ~ In p f -> replace (d :: f) [p] [d] = d :: f.
Proof.
  intros Hf. destruct (N.eq_dec p d) as [-> | Hn].
  - apply replace_unit_head.
  - now apply replace_unit_pass.
Qed.

(** X15. For every profile whose decimal symbol is one code unit, a comma, a
    period or an Arabic decimal separator at index [from] becomes the decimal
    symbol, whatever stands before it, when none of the three follows it. *)
Theorem normalizeDecimalSeparator_typed (this : NumberFormat) (a f : jsstring) (s d : char) :
  decimalSymbol this = Some [d] ->
  In s [COMMA; PERIOD; ARABIC_DECIMAL] ->
  (forall c, In c [COMMA; PERIOD; ARABIC_DECIMAL] -> ~ In c f) ->
  normalizeDecimalSeparator this (a ++ s :: f) (Z.of_nat (length a)) = a ++ d :: f.
Proof.
  intros Hd Hs Hf.
  rewrite normalizeDecimalSeparator_tail by (rewrite length_app; lia).
  rewrite firstn_length_app, skipn_length_app, Hd. cbn [ToString]. f_equal.
  assert (Fc : ~ In COMMA f) by (apply Hf; cbn; auto).
  assert (Fp : ~ In PERIOD f) by (apply Hf; cbn; auto).
  assert (Fa : ~ In ARABIC_DECIMAL f) by (apply Hf; cbn; auto).
  destruct Hs as [<- | [<- | [<- | []]]].
  - rewrite replace_unit_head.
    now rewrite (replace_unit_settled PERIOD d f Fp), (replace_unit_settled ARABIC_DECIMAL d f Fa).
  - rewrite (replace_unit_pass COMMA PERIOD f [d] ltac:(discriminate) Fc).
    rewrite replace_unit_head.
    now rewrite (replace_unit_settled ARABIC_DECIMAL d f Fa).
  - rewrite (replace_unit_pass COMMA ARABIC_DECIMAL f [d] ltac:(discriminate) Fc).
    rewrite (replace_unit_pass PERIOD ARABIC_DECIMAL f [d] ltac:(discriminate) Fp).
    apply replace_unit_head.
Qed.

Lemma normalizeDecimalSeparator_typed_witness :
  normalizeDecimalSeparator ar_Decimal
    (localized ARABIC_ZERO (u "1") ++ [ARABIC_THOUSANDS] ++ localized ARABIC_ZERO (u "234")
     ++ [PERIOD] ++ localized ARABIC_ZERO (u "5")) 5
  = localized ARABIC_ZERO (u "1") ++ [ARABIC_THOUSANDS] ++ localized ARABIC_ZERO (u "234")
    ++ [ARABIC_DECIMAL] ++ localized ARABIC_ZERO (u "5").
Proof.
  assert (Hd : decimalSymbol ar_Decimal = Some [ARABIC_DECIMAL]) by reflexivity.
  assert (Hs : In PERIOD [COMMA; PERIOD; ARABIC_DECIMAL]) by (right; now left).
  assert (Hf : forall c, In c [COMMA; PERIOD; ARABIC_DECIMAL]
                 -> ~ In c (localized ARABIC_ZERO (u "5"))).
  { intros c [<- | [<- | [<- | []]]] [F|[]]; discriminate. }
  pose proof (normalizeDecimalSeparator_typed ar_Decimal
                (localized ARABIC_ZERO (u "1") ++ [ARABIC_THOUSANDS]
                 ++ localized ARABIC_ZERO (u "234"))
                (localized ARABIC_ZERO (u "5")) PERIOD ARABIC_DECIMAL Hd Hs Hf) as P.
  exact P.
Defined.

(** X16. An index at or beyond the end of the text leaves the text as it is,
    for every profile. *)
Theorem normalizeDecimalSeparator_beyond_end (this : NumberFormat) (text : jsstring)
  (from : nat) :
  length text <= from ->
  normalizeDecimalSeparator this text (Z.of_nat from) = text.
Proof.
  intros Hl. unfold normalizeDecimalSeparator, DECIMAL_SEPARATORS. cbn [fold_left].
  assert (Step : forall s, s <> [] ->
            substr text 0 (Some (Z.of_nat from))
            ++ replace (substr text (Z.of_nat from) None) s (ToString (decimalSymbol this))
            = text).
  { intros s Hs. rewrite substr_head, substr_from.
    rewrite firstn_all2 by lia. rewrite skipn_all2 by lia.
    rewrite replace_empty_text by assumption. apply app_nil_r. }
  rewrite !Step by congruence. reflexivity.
Qed.

Lemma normalizeDecimalSeparator_beyond_end_witness :
  normalizeDecimalSeparator en_Decimal (u "1,234") 5 = u "1,234".
Proof.
  exact (normalizeDecimalSeparator_beyond_end en_Decimal (u "1,234") 5 ltac:(cbn; lia)).
Defined.

(** ** Digit tables: texts without affixes *)

Section TableBare.

Variables (z g d : char) (mn pc cs us : jsstring) (knows : NumberFormatStyle.t -> bool).
Variable this : NumberFormat.

Hypothesis Hsep : separated z g d mn cs us.
Hypothesis Hdigits : digits this = glyphs z.
Hypothesis Hminus : minusSymbol this = Some mn.
Hypothesis Hprefix : prefix this = cs.
Hypothesis Hnegative : negativePrefix this = mn ++ cs.
Hypothesis Hsuffix : suffix this = us \/ (us = [] /\ exists rest, suffix this = mn ++ rest).

Let H := Table.host (digit_table z g d mn pc knows).

Lemma bare_normalizeDigits (b : jsstring) :
  plain_text g d b -> normalizeDigits this (localized z b) = b.
Proof.
  intros Hb. rewrite (normalizeDigits_glyphs this z _ Hdigits (table_zero _ _ _ _ _ _ Hsep)).
  destruct (sep_glyphs _ _ _ _ _ _ Hsep) as [E | [Hz Hn]].
  - now rewrite E, unglyph_latin, localized_latin.
  - apply (unglyph_localized z b Hz). intros c Hc.
    destruct (plain_text_units g d b c Hb Hc) as [F | [-> | ->]];
      [now left | right; apply Hn; now left | right; apply Hn; right; now left].
Qed.

Lemma bare_stripPrefixOrSuffix (b : jsstring) :
  plain_text g d b -> stripPrefixOrSuffix this b = b.
Proof.
  intros Hb.
  destruct (sep_minus _ _ _ _ _ _ Hsep) as [m0 [mrest [Emn [Hm0d [Hm0g [Hm0dd _]]]]]].
  pose proof (Hb m0 Hm0d Hm0g Hm0dd) as Hbm.
  unfold stripPrefixOrSuffix. rewrite Hnegative, Hprefix, Emn. cbn [app].
  rewrite (replace_head_absent b _ [] m0 Hbm).
  assert (A : forall affix, (forall c, In c affix -> In c (cs ++ us)) ->
                replace b affix [] = b).
  { intros [|a0 affix] Ha; [apply replace_nil_nil|].
    apply replace_head_absent. apply (table_affix_excluded z g d mn cs us Hsep a0 b Hb).
    apply Ha. now left. }
  rewrite (A cs) by (intros c Hc; apply in_or_app; now left).
  destruct Hsuffix as [-> | [_ [rest ->]]].
  - apply A. intros c Hc. apply in_or_app. now right.
  - rewrite Emn. cbn [app]. now apply replace_head_absent.
Qed.

Lemma bare_affix_stripped (b : jsstring) :
  plain_text g d b -> affix_stripped this (localized z b) = b.
Proof.
  intros Hb. unfold affix_stripped.
  rewrite (bare_normalizeDigits b Hb), (bare_stripPrefixOrSuffix b Hb).
  exact (table_stripMinusSymbol z g d mn cs us this Hsep Hminus b Hb).
Qed.

Lemma bare_isNegative (b : jsstring) :
  plain_text g d b -> isNegative this (localized z b) = false.
Proof.
  intros Hb.
  destruct (sep_minus _ _ _ _ _ _ Hsep) as [m0 [mrest [Emn [Hm0d [Hm0g [Hm0dd _]]]]]].
  assert (Gm : is_glyph z m0 = false).
  { apply (table_no_glyph z g d mn cs us Hsep); [assumption|].
    left. right. right. rewrite Emn. now left. }
  assert (Gh : is_glyph z HYPHEN = false)
    by (apply (table_no_glyph z g d mn cs us Hsep); [reflexivity | now right]).
  pose proof (localized_excludes z m0 b Hm0d Gm (Hb m0 Hm0d Hm0g Hm0dd)) as A.
  pose proof (localized_excludes z HYPHEN b eq_refl Gh
                (table_plain_no_hyphen z g d mn cs us Hsep b Hb)) as B.
  unfold isNegative. rewrite Hnegative, Hminus. cbn [ToString].
  rewrite (replace_head_absent _ [] mn HYPHEN B). rewrite Emn. cbn [app].
  now rewrite !(startsWith_head_absent _ _ m0 A).
Qed.

(** [parse] reads a text without its affixes like the text with the prefix
    and the suffix of a non-negative number. *)
Lemma bare_parse (b : jsstring) :
  plain_text g d b -> groupingSymbol this = Some [g] ->
  parse H utils_escapeRegExp this (Some (localized z b))
  = parse H utils_escapeRegExp this (Some (cs ++ localized z b ++ us)).
Proof.
  intros Hb Hg.
  pose proof (bare_affix_stripped b Hb) as A1. pose proof (bare_isNegative b Hb) as I1.
  pose proof (table_affix_stripped z g d mn cs us this Hsep Hdigits Hminus Hprefix Hnegative
                Hsuffix false b Hb) as A2.
  pose proof (table_isNegative z g d mn cs us this Hsep Hminus Hnegative false b Hb) as I2.
  cbn [app] in A2, I2.
  destruct b as [|b0 b'].
  - cbn [localized map]. cbn [localized map] in A2.
    destruct (cs ++ [] ++ us) as [|c s] eqn:E; [reflexivity|].
    rewrite parse_steps, A2. unfold stripGroupingSeparator. rewrite Hg.
    rewrite (fraction_pattern_escaped utils_escapeRegExp this utils_escapeRegExp_escapes).
    reflexivity.
  - destruct (localized z (b0 :: b')) as [|c1 s1] eqn:E1; [discriminate|].
    destruct (cs ++ (c1 :: s1) ++ us) as [|c2 s2] eqn:E2.
    + apply app_eq_nil in E2 as [_ E2]. discriminate.
    + now rewrite !parse_steps, A1, I1, A2, I2.
Qed.

End TableBare.

(** X17. On a digit table and under a style other than percent, the affixes of
    a non-negative number are optional: [parse] reads a text of digits,
    grouping and decimal symbols without the currency or unit text like the
    text with it. *)
Theorem parse_without_affixes (z g d : char) (mn pc : jsstring)
  (knows : NumberFormatStyle.t -> bool) (o : NumberInputOptions) (this : NumberFormat)
  (b : jsstring) :
  formatStyle o <> NumberFormatStyle.Percent ->
  separated z g d mn (host_prefix (formatStyle o) (opt_currency o))
    (host_suffix (formatStyle o) (opt_unit o)) ->
  constructor (Table.host (digit_table z g d mn pc knows)) o = Normal this ->
  forallb (fun c => is_digit c || N.eqb c g || N.eqb c d) b = true ->
  let H := Table.host (digit_table z g d mn pc knows) in
  parse H utils_escapeRegExp this (Some (localized z b))
  = parse H utils_escapeRegExp this
      (Some (host_prefix (formatStyle o) (opt_currency o)
             ++ localized z b
             ++ host_suffix (formatStyle o) (opt_unit o))).
Proof.
  intros Hs Hsep Hctor Hb H.
  apply (constructor_table z g d mn pc knows o this Hs) in Hctor. subst this.
  destruct (table_profile_facts z g d mn o Hs) as [Hsuf _].
  exact (bare_parse z g d mn pc _ _ knows (table_profile z g d mn o) Hsep eq_refl
           eq_refl eq_refl eq_refl Hsuf b (body_plain g d b Hb) eq_refl).
Qed.

Lemma parse_without_affixes_witness :
  parse en_host utils_escapeRegExp en_EUR (Some (u "1,234.5"))
  = parse en_host utils_escapeRegExp en_EUR (Some ([EURO] ++ u "1,234.5"))
  /\ parse en_host utils_escapeRegExp en_EUR (Some (u "1,234.5"))
     = Normal (Some (Table.Finite false 12345 1)).
Proof.
  split; [|reflexivity].
  assert (Hc : constructor en_host
                 (options_of "en" NumberFormatStyle.Currency (Some "EUR"%string) None)
               = Normal en_EUR) by (vm_compute; reflexivity).
  assert (Hs : formatStyle (options_of "en" NumberFormatStyle.Currency (Some "EUR"%string) None)
               <> NumberFormatStyle.Percent) by discriminate.
  assert (Hb : forallb (fun c => is_digit c || N.eqb c COMMA || N.eqb c PERIOD) (u "1,234.5")
               = true) by reflexivity.
  pose proof (parse_without_affixes ZERO COMMA PERIOD [HYPHEN] [PERCENT_SIGN] (fun _ => true)
                (options_of "en" NumberFormatStyle.Currency (Some "EUR"%string) None) en_EUR
                (u "1,234.5") Hs separated_en_EUR Hc Hb) as P.
  exact P.
Defined.

(** ** Fractions typed from the decimal separator, parsed *)

Lemma unglyph_digit (z c : char) : is_glyph z c = true -> is_digit (unglyph z c) = true.
Proof.
  intros E. unfold unglyph. rewrite E. unfold is_glyph in E.
  apply andb_true_iff in E as [A B]. apply N.leb_le in A, B.
  apply is_digit_range. unfold ZERO. lia.
Qed.

Lemma localized_unglyph (z : char) (s : jsstring) :
  forallb (is_glyph z) s = true ->
  localized z (map (unglyph z) s) = s /\ forallb is_digit (map (unglyph z) s) = true.
Proof.
  induction s as [|c s IH]; [split; reflexivity|].
  cbn [forallb]. intros Hs. apply andb_true_iff in Hs as [Hc Hs].
  destruct (IH Hs) as [E F]. unfold localized in *. cbn [map forallb].
  rewrite (unglyph_digit z c Hc), E, F. split; [|reflexivity]. f_equal.
  unfold unglyph. rewrite Hc. unfold is_glyph in Hc.
  apply andb_true_iff in Hc as [A B]. apply N.leb_le in A, B. unfold ZERO. lia.
Qed.

Lemma forallb_filter {A} (p : A -> bool) (l : list A) : forallb p (filter p l) = true.
Proof.
  induction l as [|x l IH]; [reflexivity|]. cbn [filter].
  destruct (p x) eqn:E; [cbn [forallb]; now rewrite E|exact IH].
Qed.

Lemma forallb_firstn {A} (p : A -> bool) (n : nat) (l : list A) :
  forallb p l = true -> forallb p (firstn n l) = true.
Proof.
  revert l; induction n as [|n IH]; intros [|x l]; try reflexivity.
  cbn [forallb firstn]. intros Hl. apply andb_true_iff in Hl as [-> Hl]. now apply IH.
Qed.

(** X18. On a digit table and under a style other than percent, for a profile
    with a decimal symbol, [parse] accepts whatever [toFraction] returns: the
    number read is zero, a point and the digits that the glyphs kept by
    [toFraction] stand for. *)
Theorem parse_toFraction (z g d : char) (mn pc : jsstring)
  (knows : NumberFormatStyle.t -> bool) (o : NumberInputOptions) (this : NumberFormat)
  (str : jsstring) :
  formatStyle o <> NumberFormatStyle.Percent ->
  separated z g d mn (host_prefix (formatStyle o) (opt_currency o))
    (host_suffix (formatStyle o) (opt_unit o)) ->
  constructor (Table.host (digit_table z g d mn pc knows)) o = Normal this ->
  decimalSymbol this <> None ->
  parse (Table.host (digit_table z g d mn pc knows)) utils_escapeRegExp this
    (Some (toFraction this str))
  = Normal (Some (Table.StringToNumber
                    (u "0" ++ [PERIOD]
                     ++ map (unglyph z)
                          (firstn (maximumFractionDigits this)
                             (filter (is_glyph z) (tl str)))))).
Proof.
  intros Hs Hsep Hctor Hdn.
  apply (constructor_table z g d mn pc knows o this Hs) in Hctor. subst this.
  set (P := table_profile z g d mn o) in *.
  destruct (table_profile_facts z g d mn o Hs) as [Hsuf Hdec]. fold P in Hsuf, Hdec.
  destruct Hdec as [Hdec | Hdec]; [|congruence].
  set (G := firstn (maximumFractionDigits P) (filter (is_glyph z) (tl str))).
  assert (HG : forallb (is_glyph z) G = true) by (apply forallb_firstn, forallb_filter).
  destruct (localized_unglyph z G HG) as [EG FG].
  set (F := map (unglyph z) G) in *.
  assert (ET : toFraction P str = localized z (number_text g d 0 (Some F) false)).
  { unfold toFraction. rewrite Hdec, substr_tail, substr_head.
    change (digits P) with (glyphs z).
    assert (EL : onlyLocaleDigits P (tl str) = filter (is_glyph z) (tl str)).
    { unfold onlyLocaleDigits. change (digits P) with (glyphs z).
      apply filter_ext. intros c. apply glyph_class. }
    rewrite EL. fold G. unfold number_text. change (decimal_digits 0) with [ZERO].
    cbn [app]. unfold localized at 1. cbn [map].
    rewrite (sep_decimal _ _ _ _ _ _ Hsep). fold (localized z F). rewrite EG.
    reflexivity. }
  rewrite ET.
  assert (Hfr : forall f, Some F = Some f -> forallb is_digit f = true)
    by (now intros f [= <-]).
  assert (Hb : plain_text g d (number_text g d 0 (Some F) false))
    by (apply table_body_plain; exact Hfr).
  rewrite (bare_parse z g d mn pc _ _ knows P Hsep eq_refl eq_refl eq_refl eq_refl Hsuf _ Hb
             eq_refl).
  assert (O : (0 < Table.OVERFLOW)%N) by reflexivity.
  exact (table_parse_text z g d mn pc _ _ knows P Hsep eq_refl eq_refl eq_refl eq_refl
           eq_refl Hsuf Hs eq_refl eq_refl 0%N (Some F) false Hfr (or_introl Hdec) false O).
Qed.

Lemma parse_toFraction_witness :
  toFraction ar_Decimal ([PERIOD] ++ localized ARABIC_ZERO (u "2575"))
  = localized ARABIC_ZERO (u "0") ++ [ARABIC_DECIMAL] ++ localized ARABIC_ZERO (u "257")
  /\ parse ar_host utils_escapeRegExp ar_Decimal
       (Some (toFraction ar_Decimal ([PERIOD] ++ localized ARABIC_ZERO (u "2575"))))
     = Normal (Some (Table.Finite false 257 3)).
Proof.
  split; [reflexivity|].
  assert (Hc : constructor ar_host (options_of "ar-EG" NumberFormatStyle.Decimal None None)
               = Normal ar_Decimal) by (vm_compute; reflexivity).
  assert (Hs : formatStyle (options_of "ar-EG" NumberFormatStyle.Decimal None None)
               <> NumberFormatStyle.Percent) by discriminate.
  assert (Hd : decimalSymbol ar_Decimal <> None) by discriminate.
  pose proof (parse_toFraction ARABIC_ZERO ARABIC_THOUSANDS ARABIC_DECIMAL
                [ARABIC_LETTER_MARK; HYPHEN] [1642%N; ARABIC_LETTER_MARK]
                (fun s => match s with NumberFormatStyle.Decimal => true | _ => false end)
                (options_of "ar-EG" NumberFormatStyle.Decimal None None) ar_Decimal
                ([PERIOD] ++ localized ARABIC_ZERO (u "2575")) Hs separated_ar_Decimal Hc Hd)
    as P.
  exact P.
Defined.

(** ** When [parse] raises *)

(** X19. For every host, profile and [escapeRegExp], [parse] returns on a
    non-empty text (a number or null) exactly when [escapeRegExp] returns on
    the grouping symbol and, if the profile has a non-empty decimal symbol, on
    that symbol: nothing else in [parse] raises, whatever the text. *)
Theorem parse_returns_iff (H : Host)
  (escapeRegExp : option jsstring -> completion jsstring) (this : NumberFormat)
  (c : char) (s : jsstring) :
  returns (parse H escapeRegExp this (Some (c :: s)))
  <-> (truthy (decimalSymbol this) = true -> returns (escapeRegExp (decimalSymbol this)))
      /\ returns (escapeRegExp (groupingSymbol this)).
Proof.
  rewrite parse_steps. unfold stripGroupingSeparator, returns.
  destruct (truthy (decimalSymbol this)) eqn:T.
  - destruct (escapeRegExp (decimalSymbol this)) as [dec|e] eqn:Ed; cbn [bind].
    + destruct (escapeRegExp (groupingSymbol this)) as [g|e] eqn:Eg; cbn [bind].
      * split; [intros _; split; eauto|]. intros _.
        destruct (exec_number _ _) as [[m1 m2]|]; [|eauto].
        destruct (isValidIntegerFormat _ _ _ _); eauto.
      * split; [intros [r F]; discriminate | intros [_ [r F]]; discriminate].
    + split; [intros [r F]; discriminate|]. intros [F _].
      destruct (F eq_refl) as [r Fr]. discriminate.
  - cbn [bind]. destruct (escapeRegExp (groupingSymbol this)) as [g|e] eqn:Eg; cbn [bind].
    + split; [intros _; split; [discriminate | eauto]|]. intros _.
      destruct (exec_number _ _) as [[m1 m2]|]; [|eauto].
      destruct (isValidIntegerFormat _ _ _ _); eauto.
    + split; [intros [r F]; discriminate | intros [_ [r F]]; discriminate].
Qed.

(** A currency without minor units: no decimal symbol, and [parse] returns. *)
Example parse_returns_JPY :
  parse en_host utils_escapeRegExp en_JPY (Some ([YEN] ++ u "1,234.5")) = Normal None
  /\ parse en_host utils_escapeRegExp en_JPY (Some ([YEN] ++ u "1,234"))
     = Normal (Some (Table.Finite false 1234 0)).
Proof. split; reflexivity. Qed.

(** ** The integer texts [isValidIntegerFormat] accepts *)

(** X20. On a digit table and under a style other than percent,
    [isValidIntegerFormat] accepts for a non-negative integer below 2^53
    (the integers a double holds exactly) two texts and no other: its digits
    grouped as the host groups them, and its digits without grouping
    symbols. *)
Theorem isValidIntegerFormat_table (z g d : char) (mn pc : jsstring)
  (knows : NumberFormatStyle.t -> bool) (o : NumberInputOptions) (this : NumberFormat)
  (q : N) (s : jsstring) :
  formatStyle o <> NumberFormatStyle.Percent ->
  separated z g d mn (host_prefix (formatStyle o) (opt_currency o))
    (host_suffix (formatStyle o) (opt_unit o)) ->
  constructor (Table.host (digit_table z g d mn pc knows)) o = Normal this ->
  (q < 2 ^ 53)%N ->
  isValidIntegerFormat (Table.host (digit_table z g d mn pc knows)) this s
    (Table.Finite false q 0) = true
  <-> s = grouped [g] (decimal_digits q) \/ s = decimal_digits q.
Proof.
  intros Hs Hsep Hctor _.
  apply (constructor_table z g d mn pc knows o this Hs) in Hctor. subst this.
  destruct (table_profile_facts z g d mn o Hs) as [Hsuf _].
  rewrite (isValidIntegerFormat_renderings (Table.host (digit_table z g d mn pc knows))
             (table_profile z g d mn o) s (Table.Finite false q 0)).
  rewrite (table_renderings z g d mn pc _ _ knows (table_profile z g d mn o) Hsep eq_refl
             eq_refl eq_refl Hsuf Hs eq_refl eq_refl q).
  cbn [In]. intuition congruence.
Qed.

Lemma isValidIntegerFormat_table_witness :
  isValidIntegerFormat en_host en_EUR (u "1,234,567") (Table.Finite false 1234567 0) = true
  /\ isValidIntegerFormat en_host en_EUR (u "1234567") (Table.Finite false 1234567 0) = true
  /\ isValidIntegerFormat en_host en_EUR (u "12,34,567") (Table.Finite false 1234567 0) = false.
Proof.
  assert (Hc : constructor en_host
                 (options_of "en" NumberFormatStyle.Currency (Some "EUR"%string) None)
               = Normal en_EUR) by (vm_compute; reflexivity).
  assert (Hs : formatStyle (options_of "en" NumberFormatStyle.Currency (Some "EUR"%string) None)
               <> NumberFormatStyle.Percent) by discriminate.
  assert (Hq : (1234567 < 2 ^ 53)%N) by reflexivity.
  pose proof (fun s => isValidIntegerFormat_table ZERO COMMA PERIOD [HYPHEN] [PERCENT_SIGN]
                         (fun _ => true)
                         (options_of "en" NumberFormatStyle.Currency (Some "EUR"%string) None)
                         en_EUR 1234567%N s Hs separated_en_EUR Hc Hq) as P.
  split; [|split].
  - apply (P (u "1,234,567")). now left.
  - apply (P (u "1234567")). now right.
  - reflexivity.
Defined.

(** ** The percent style *)

(** The constructor on a digit table, for the percent style. *)
Lemma constructor_percent (z g d : char) (mn pc : jsstring) (knows : NumberFormatStyle.t -> bool)
  (o : NumberInputOptions) (this : NumberFormat) :
  formatStyle o = NumberFormatStyle.Percent ->
  constructor (Table.host (digit_table z g d mn pc knows)) o = Normal this ->
  this = percent_profile z g mn pc o.
Proof.
  destruct o as [s cur un loc p]. cbn [formatStyle]. intros ->.
  unfold constructor.
  cbn [Intl_NumberFormat Table.host formatStyle opt_currency opt_unit opt_locale precision].
  unfold Table.construct.
  cbn [Table.style_of o_style o_currency o_unit Table.knows digit_table
       Table.digits_in_range o_minimumFractionDigits o_maximumFractionDigits andb].
  destruct (knows NumberFormatStyle.Percent); cbn [bind]; [|discriminate].
  intros E.
  assert (Get : forall (c : completion NumberFormat) (x : NumberFormat),
             c = Normal this -> (forall y, c = Normal y -> y = x) -> this = x).
  { intros c x E' Hx. now apply Hx. }
  apply (Get _ _ E). clear E. intros y E.
  apply (f_equal (fun c => match c with Normal x => x | Throw _ => y end)) in E.
  rewrite <- E. clear E. rewrite probe_value.
  unfold percent_profile.
  destruct p; vm_compute; f_equal; try reflexivity; [exact (app_nil_r _) | | exact (app_nil_r _) | ];
    repeat f_equal; exact (app_nil_r _).
Qed.

Lemma grouped_units (g c : char) (s : jsstring) :
  In c (grouped [g] s) -> In c s \/ c = g.
Proof.
  induction s as [|x s IH]; [intros []|]. cbn [grouped].
  destruct ((0 <? length s) && (length s mod 3 =? 0))%bool; cbn [app In].
  - intros [E | [E | Hc]]; auto. destruct (IH Hc); auto.
  - intros [E | Hc]; auto. destruct (IH Hc); auto.
Qed.

Lemma localized_digits_glyphs (z c : char) (s : jsstring) :
  forallb is_digit s = true -> In c (localized z s) -> is_glyph z c = true.
Proof.
  intros Hs Hc. unfold localized in Hc. apply in_map_iff in Hc as [x [<- Hx]].
  rewrite forallb_forall in Hs. specialize (Hs x Hx). rewrite Hs.
  apply is_digit_range in Hs. unfold is_glyph, ZERO.
  apply andb_true_iff. split; apply N.leb_le; lia.
Qed.

Lemma unglyph_cases (z c : char) :
  (is_glyph z c = true /\ is_digit (unglyph z c) = true)
  \/ (is_glyph z c = false /\ unglyph z c = c).
Proof.
  destruct (is_glyph z c) eqn:E; [left | right]; split; try reflexivity.
  - now apply unglyph_digit.
  - unfold unglyph. now rewrite E.
Qed.

Section PercentTable.

Variables (z g d : char) (mn pc : jsstring) (knows : NumberFormatStyle.t -> bool).
Variables (m0 p0 : char) (mrest prest : jsstring).
Variable o : NumberInputOptions.

Hypothesis Hz : z = ZERO \/ (128 <= z)%N.
Hypothesis Hmn : mn = m0 :: mrest.
Hypothesis Hm0 : is_digit m0 = false /\ m0 <> g /\ ~ In m0 (INFINITY_SIGN :: pc).
Hypothesis Hpc : pc = p0 :: prest.
Hypothesis Hp0 : is_digit p0 = false /\ is_glyph z p0 = false /\ p0 <> g.

Let H := Table.host (digit_table z g d mn pc knows).
Let P := percent_profile z g mn pc o.

(** What the host writes for a number that is not negative, as a percentage:
    glyphs, grouping symbols or the infinity sign, then the percent sign. *)
Lemma percent_rendering (x : Table.num) (b : bool) :
  (exists q, x = Table.Finite false q 0) \/ x = Table.Infinity false ->
  exists X,
    toLocaleString H x (locale P)
      {| o_style := Some (style P); o_currency := currency P; o_unit := unit P;
         o_minimumFractionDigits := Some 0; o_maximumFractionDigits := None;
         o_useGrouping := Some b |} = X ++ pc
    /\ forall c, In c X -> is_glyph z c = true \/ c = g \/ c = INFINITY_SIGN.
Proof.
  intros [[q ->] | ->].
  - set (I := decimal_digits (q * 100 / 10 ^ N.of_nat 0)).
    exists (if b then grouped [g] (localized z I) else localized z I). split.
    + cbn [toLocaleString H Table.host]. unfold Table.parts, Table.number_parts.
      cbn [Table.is_negative Table.style_of o_style style P percent_profile
           Table.fraction_digits o_minimumFractionDigits o_maximumFractionDigits
           o_useGrouping Table.round Nat.leb Table.trim Nat.ltb Nat.max app].
      change (Table.localize (digit_table z g d mn pc knows)) with (localized z).
      fold I. cbn [Table.group Table.percent digit_table].
      unfold join. rewrite map_app, concat_app. cbn [map concat value]. rewrite app_nil_r.
      f_equal; [|apply app_nil_r]. destruct b.
      * apply (int_parts_text (digit_table z g d mn pc knows) _ []).
      * cbn [map concat value]. apply app_nil_r.
    + intros c Hc. assert (Hl : In c (localized z I) \/ c = g).
      { destruct b; [now apply grouped_units | now left]. }
      destruct Hl as [Hl | ->]; [left | right; now left].
      exact (localized_digits_glyphs z c I (decimal_digits_digits _) Hl).
  - exists [INFINITY_SIGN]. split.
    + cbn [toLocaleString H Table.host]. unfold Table.parts, join.
      cbn [Table.is_negative Table.style_of o_style style P percent_profile
           Table.number_parts Table.percent digit_table app map concat value].
      now rewrite app_nil_r.
    + intros c [<- | []]. right. now right.
Qed.

(** The texts [isValidIntegerFormat] compares with keep the percent sign. *)
Lemma percent_renderings (m1 t : jsstring) :
  m1 <> [] -> forallb is_digit m1 = true ->
  In t (renderings H P (Number H m1)) -> In p0 t.
Proof.
  intros Hne Hm1 Ht.
  assert (Hx : (exists q, Number H m1 = Table.Finite false q 0)
               \/ Number H m1 = Table.Infinity false).
  { change (Number H m1) with (Table.StringToNumber m1).
    rewrite (StringToNumber_digits m1 Hne Hm1).
    destruct (Table.OVERFLOW <=? Table.digits_value m1)%N; [now right | left; eauto]. }
  unfold renderings in Ht. apply in_map_iff in Ht as [b [<- _]].
  destruct (percent_rendering (Number H m1) b Hx) as [X [-> HX]].
  rewrite (normalizeDigits_glyphs P z _ eq_refl Hz).
  set (Y := map (unglyph z) (X ++ pc)).
  destruct Hm0 as [Hm0d [Hm0g Hm0i]]. destruct Hp0 as [Hp0d [Hp0g Hp0n]].
  assert (Hin : In p0 Y).
  { unfold Y. apply in_map_iff. exists p0. split.
    - unfold unglyph. now rewrite Hp0g.
    - apply in_or_app. right. rewrite Hpc. now left. }
  assert (Hout : forallb (fun c => negb (N.eqb m0 c)) Y = true).
  { apply forallb_excludes_In. unfold Y. intros Hy.
    apply in_map_iff in Hy as [c [Ec Hc]].
    destruct (unglyph_cases z c) as [[_ Dg] | [Ng Eq]].
    - rewrite Ec in Dg. congruence.
    - rewrite Eq in Ec. subst c. apply in_app_or in Hc as [Hc | Hc].
      + destruct (HX m0 Hc) as [F | [F | F]]; [congruence | contradiction |].
        apply Hm0i. now left.
      + apply Hm0i. now right. }
  assert (S : stripPrefixOrSuffix P Y = Y).
  { unfold stripPrefixOrSuffix.
    change (negativePrefix P) with mn. change (prefix P) with (@nil N).
    change (suffix P) with (mn ++ localized z (u "12") ++ [g] ++ localized z (u "345") ++ [g]
                            ++ localized z (u "677") ++ pc).
    rewrite Hmn. cbn [app].
    rewrite (replace_head_absent Y mrest [] m0 Hout), replace_nil_nil.
    now apply replace_head_absent. }
  now rewrite S.
Qed.

(** Under the percent style [parse] returns null on every input. *)
Lemma percent_parse (str : option jsstring) :
  parse H utils_escapeRegExp P str = Normal None.
Proof.
  destruct str as [[|c s]|]; try reflexivity.
  apply (parse_rejects H utils_escapeRegExp P c s [g] eq_refl utils_escapeRegExp_escapes).
  intros m1 m2 Em Hin.
  set (t := affix_stripped P (c :: s)) in *.
  change (integer_portion P t) with t in Hin.
  change (fraction_pattern P) with (@None jsstring) in Em.
  destruct (exec_number_Some _ _ _ _ Em) as [Hne [Hm1 Hm2]].
  destruct m2 as [f|]; [destruct Hm2 as [d' [F _]]; discriminate|].
  pose proof (percent_renderings m1 t Hne Hm1 Hin) as Hp.
  rewrite replace_g_single in Hm2.
  destruct Hp0 as [Hp0d [_ Hp0n]].
  assert (Hf : In p0 (filter (fun c => negb (N.eqb g c)) t)).
  { apply filter_In. split; [assumption|].
    apply negb_true_iff, N.eqb_neq. congruence. }
  rewrite Hm2 in Hf. rewrite forallb_forall in Hm1. specialize (Hm1 p0 Hf). congruence.
Qed.

End PercentTable.

(** X21. On a digit table, under the percent style, [parse] returns null on
    every input: the texts [isValidIntegerFormat] compares with are those of
    the integer as a percentage and keep the percent sign, which no text that
    matched the number pattern has. *)
Theorem parse_percent_null (z g d : char) (mn pc : jsstring)
  (knows : NumberFormatStyle.t -> bool) (o : NumberInputOptions) (this : NumberFormat)
  (m0 p0 : char) (mrest prest : jsstring) (str : option jsstring) :
  formatStyle o = NumberFormatStyle.Percent ->
  constructor (Table.host (digit_table z g d mn pc knows)) o = Normal this ->
  z = ZERO \/ (128 <= z)%N ->
  mn = m0 :: mrest ->
  is_digit m0 = false /\ m0 <> g /\ ~ In m0 (INFINITY_SIGN :: pc) ->
  pc = p0 :: prest ->
  is_digit p0 = false /\ is_glyph z p0 = false /\ p0 <> g ->
  parse (Table.host (digit_table z g d mn pc knows)) utils_escapeRegExp this str
  = Normal None.
Proof.
  intros Hs Hctor Hz Hmn Hm0 Hpc Hp0.
  apply (constructor_percent z g d mn pc knows o this Hs) in Hctor. subst this.
  exact (percent_parse z g d mn pc knows m0 p0 mrest prest o Hz Hmn Hm0 Hpc Hp0 str).
Qed.

Lemma parse_percent_null_witness :
  parse en_host utils_escapeRegExp en_Percent (Some (u "12%")) = Normal None
  /\ parse en_host utils_escapeRegExp en_Percent (Some (u "0")) = Normal None.
Proof.
  assert (Hc : constructor en_host (options_of "en" NumberFormatStyle.Percent None None)
               = Normal en_Percent) by (vm_compute; reflexivity).
  assert (Hm0 : is_digit HYPHEN = false /\ HYPHEN <> COMMA
                /\ ~ In HYPHEN (INFINITY_SIGN :: [PERCENT_SIGN])).
  { split; [reflexivity|]. split; [discriminate|]. intros [F|[F|[]]]; discriminate. }
  assert (Hp0 : is_digit PERCENT_SIGN = false /\ is_glyph ZERO PERCENT_SIGN = false
                /\ PERCENT_SIGN <> COMMA).
  { split; [reflexivity|]. split; [reflexivity | discriminate]. }
  pose proof (fun str =>
                parse_percent_null ZERO COMMA PERIOD [HYPHEN] [PERCENT_SIGN] (fun _ => true)
                  (options_of "en" NumberFormatStyle.Percent None None) en_Percent
                  HYPHEN PERCENT_SIGN [] [] str eq_refl Hc (or_introl eq_refl) eq_refl Hm0
                  eq_refl Hp0) as P.
  split; [exact (P (Some (u "12%"))) | exact (P (Some (u "0")))].
Defined.

(** ** Grouping symbols *)

(** X22. For a profile whose grouping symbol is one code unit and an
    [escapeRegExp] that escapes, [stripGroupingSeparator] removes every
    occurrence of the symbol and nothing else: the result has none left, and
    stripping it again changes nothing. *)
Theorem stripGroupingSeparator_every_occurrence
  (escapeRegExp : option jsstring -> completion jsstring) (this : NumberFormat)
  (g : char) (str : jsstring) :
  groupingSymbol this = Some [g] ->
  escapes escapeRegExp ->
  stripGroupingSeparator escapeRegExp this str
  = Normal (filter (fun c => negb (N.eqb g c)) str)
  /\ ~ In g (filter (fun c => negb (N.eqb g c)) str)
  /\ stripGroupingSeparator escapeRegExp this (filter (fun c => negb (N.eqb g c)) str)
     = Normal (filter (fun c => negb (N.eqb g c)) str).
Proof.
  intros Hg Hesc.
  assert (S : forall x, stripGroupingSeparator escapeRegExp this x
                = Normal (filter (fun c => negb (N.eqb g c)) x)).
  { intros x. unfold stripGroupingSeparator. rewrite Hg, Hesc. cbn [bind].
    now rewrite replace_g_single. }
  split; [apply S|]. split.
  - intros Hin. apply filter_In in Hin as [_ F]. now rewrite N.eqb_refl in F.
  - rewrite S. f_equal. apply filter_keeps. apply forallb_forall.
    intros c Hc. now apply filter_In in Hc as [_ F].
Qed.

Lemma stripGroupingSeparator_every_occurrence_witness :
  stripGroupingSeparator utils_escapeRegExp en_Decimal (u "1,23,4,567.8")
  = Normal (u "1234567.8").
Proof.
  pose proof (stripGroupingSeparator_every_occurrence utils_escapeRegExp en_Decimal COMMA
                (u "1,23,4,567.8") eq_refl utils_escapeRegExp_escapes) as P.
  destruct P as [P _]. exact P.
Defined.
